(** * create-release-metadata: manifest assembly and signing orchestration

    A shallow embedding of [src/file-utils.ts] and [src/manifest.ts]
    (the version of [manifest.ts] whose [signFile] takes a password).

    - JavaScript strings are modelled as [string] (file names are taken
      to be ASCII, one character per code unit).
    - The four regular expressions of [file-utils.ts] are written as
      syntax trees and run by a backtracking matcher with JavaScript's
      priorities (leftmost match, greedy quantifiers, ordered choice).
    - [async] code is modelled in a monad that threads the trace of
      observable effects (console, file system, child processes) and
      carries a thrown [Error] by its message.
    - Operations that overlap in time (the two halves of [getFileInfo],
      the callbacks under [Promise.all]) are started in program order
      and end in an order that the environment gives. *)

From Stdlib Require Import String Ascii List Bool Arith ZArith NArith Lia.
From Stdlib Require Import DecimalString Permutation.
Import ListNotations.
Local Open Scope list_scope.
Local Open Scope string_scope.

(* ===================================================================== *)
(** * Strings *)
(* ===================================================================== *)

Module Str.

(** JavaScript truthiness of a string: non-empty. *)
Definition truthy (s : string) : bool :=
  match s with
  | EmptyString => false
  | String _ _ => true
  end.

(** Truthiness of an optional string ([undefined] is falsy). *)
Definition truthy_opt (s : option string) : bool :=
  match s with
  | Some s => truthy s
  | None => false
  end.

Definition is_digit (c : ascii) : bool :=
  (("0" <=? c) && (c <=? "9"))%char.

Definition is_lower (c : ascii) : bool :=
  (("a" <=? c) && (c <=? "z"))%char.

Definition is_upper (c : ascii) : bool :=
  (("A" <=? c) && (c <=? "Z"))%char.

(** The character class [[a-zA-Z0-9.]]. *)
Definition is_prerelease_char (c : ascii) : bool :=
  is_lower c || is_upper c || is_digit c || (c =? ".")%char.

(** The character class [[^.]]. *)
Definition not_dot (c : ascii) : bool := negb (c =? ".")%char.

(** Canonicalisation of a code unit under the [i] flag: upper case. *)
Definition canonicalize (c : ascii) : ascii :=
  if is_lower c then ascii_of_nat (nat_of_ascii c - 32) else c.

(** Equality of two code units, modulo case when [ci] is set. *)
Definition char_eq (ci : bool) (a b : ascii) : bool :=
  if ci then (canonicalize a =? canonicalize b)%char else (a =? b)%char.

(** The line terminator written after the password. *)
Definition newline : string := String (ascii_of_nat 10) EmptyString.

(** [String(n)] for a non-negative integer. *)
Definition of_nat (n : nat) : string :=
  NilZero.string_of_uint (Nat.to_uint n).

Definition of_N (n : N) : string :=
  NilZero.string_of_uint (N.to_uint n).

(** [String(z)] for an integer. *)
Definition of_Z (z : Z) : string :=
  NilZero.string_of_int (Z.to_int z).

(** [tok] occurs in [s] starting at its first character, modulo case
    when [ci] is set. *)
Fixpoint starts_with (ci : bool) (tok s : string) : bool :=
  match tok, s with
  | EmptyString, _ => true
  | String a tok', String b s' => char_eq ci a b && starts_with ci tok' s'
  | String _ _, EmptyString => false
  end.

(** [tok] occurs somewhere in [s] ([String.prototype.includes], modulo
    case when [ci] is set). *)
Fixpoint includes (ci : bool) (tok s : string) : bool :=
  starts_with ci tok s ||
  match s with
  | EmptyString => false
  | String _ s' => includes ci tok s'
  end.

(** The longest prefix of [s] whose characters all satisfy [p], and
    what follows it. *)
Fixpoint span (p : ascii -> bool) (s : string) : string * string :=
  match s with
  | EmptyString => (EmptyString, EmptyString)
  | String c s' =>
      if p c then let (a, b) := span p s' in (String c a, b)
      else (EmptyString, s)
  end.

(** Every character of [s] satisfies [p]. *)
Fixpoint all (p : ascii -> bool) (s : string) : bool :=
  match s with
  | EmptyString => true
  | String c s' => p c && all p s'
  end.

End Str.

(* ===================================================================== *)
(** * Regular expressions

    The fragment of ECMAScript regular expressions that the source uses:
    literal characters, character classes, sequence, ordered choice,
    the greedy quantifiers [?] (on any expression) and [+] (on a
    character class), one capturing group and the anchor [$]. *)
(* ===================================================================== *)

Module Regex.

Inductive t : Type :=
| Eps                         (* the empty pattern *)
| Lit (c : ascii)             (* a literal character; folded under /i *)
| Class (p : ascii -> bool)   (* a character class such as \d or [^.] *)
| Seq (r1 r2 : t)             (* r1 r2 *)
| Alt (r1 r2 : t)             (* r1|r2 *)
| Opt (r : t)                 (* r? or (?:r)? *)
| Plus (p : ascii -> bool)    (* [class]+ *)
| Group (r : t)               (* (r), capturing group 1 *)
| Eos.                        (* $ without the m flag *)

(** The literal [s] as a pattern. *)
Fixpoint lit (s : string) : t :=
  match s with
  | EmptyString => Eps
  | String c EmptyString => Lit c
  | String c s' => Seq (Lit c) (lit s')
  end.

(** [a|b|...]. *)
Fixpoint alts (r : t) (rs : list t) : t :=
  match rs with
  | [] => r
  | r' :: rs' => Alt r (alts r' rs')
  end.

Definition orelse {A} (a b : option A) : option A :=
  match a with
  | Some x => Some x
  | None => b
  end.

Section Matcher.
Variable R : Type.
Variable ci : bool.  (* the i flag *)

(** [more p k s]: the greedy [[class]+] at the start of [s]. At
    least one character of the class is taken; the longest run is
    tried first and given back one character at a time while the
    continuation [k] fails. *)
Fixpoint more (p : ascii -> bool) (k : string -> option R) (s : string)
  : option R :=
  match s with
  | String c s' => if p c then orelse (more p k s') (k s') else None
  | EmptyString => None
  end.

(** The continuation receives what is left of the input and the text
    captured by group 1 so far. *)
Definition cont : Type := string -> option string -> option R.

(** Backtracking matcher in continuation-passing style: [run r s g k]
    tries the ways of matching [r] at the start of [s] in
    ECMAScript's priority order and returns the first for which the
    continuation succeeds. *)
Fixpoint run (r : t) (s : string) (g : option string) (k : cont)
  {struct r} : option R :=
  match r with
  | Eps => k s g
  | Lit c =>
      match s with
      | String c' s' => if Str.char_eq ci c c' then k s' g else None
      | EmptyString => None
      end
  | Class p =>
      match s with
      | String c' s' => if p c' then k s' g else None
      | EmptyString => None
      end
  | Seq r1 r2 => run r1 s g (fun s' g' => run r2 s' g' k)
  | Alt r1 r2 => orelse (run r1 s g k) (run r2 s g k)
  | Opt r1 => orelse (run r1 s g k) (k s g)
  | Plus p => more p (fun s' => k s' g) s
  | Group r1 =>
      run r1 s g
        (fun s' _ =>
           k s' (Some (substring 0 (String.length s - String.length s') s)))
  | Eos =>
      match s with
      | EmptyString => k s g
      | String _ _ => None
      end
  end.
End Matcher.
Arguments more {R} p k s.
Arguments run {R} ci r s g k.

(** The result of [RegExp.prototype.exec]: where the match starts, the
    matched text and the text of group 1. *)
Record result : Type := mkResult {
  index : nat;
  matched : string;
  group1 : option string
}.

(** One attempt at the current position [i]. *)
Definition attempt (ci : bool) (r : t) (i : nat) (s : string)
  : option result :=
  run ci r s None
    (fun s' g =>
       Some (mkResult i (substring 0 (String.length s - String.length s') s) g)).

(** Attempts at each position from left to right, the end included. *)
Fixpoint exec_from (ci : bool) (r : t) (i : nat) (s : string)
  : option result :=
  orelse (attempt ci r i s)
    match s with
    | EmptyString => None
    | String _ s' => exec_from ci r (S i) s'
    end.

(** [/r/.exec(s)], or [/r/i.exec(s)] when [ci] is set. *)
Definition exec (ci : bool) (r : t) (s : string) : option result :=
  exec_from ci r 0 s.

(** [s.replace(/r/, "")]: the first match is removed. *)
Definition remove_first (r : t) (s : string) : string :=
  match exec false r s with
  | Some m =>
      substring 0 (index m) s ++
      substring (index m + String.length (matched m))
                (String.length s - (index m + String.length (matched m))) s
  | None => s
  end.

End Regex.

(* ===================================================================== *)
(** * file-utils.ts: the pure heuristics *)
(* ===================================================================== *)

(** [/arm64|aarch64/i] *)
Definition re_arm : Regex.t :=
  Regex.alts (Regex.lit "arm64") [Regex.lit "aarch64"].

(** [/x64|x86_64|amd64/i] *)
Definition re_x64 : Regex.t :=
  Regex.alts (Regex.lit "x64") [Regex.lit "x86_64"; Regex.lit "amd64"].

(** [/x86|ia32|i386/i] *)
Definition re_x86 : Regex.t :=
  Regex.alts (Regex.lit "x86") [Regex.lit "ia32"; Regex.lit "i386"].

(** [/universal/i] *)
Definition re_universal : Regex.t := Regex.lit "universal".

(** A JavaScript object is truthy, [null] is not. *)
Definition is_match {A} (m : option A) : bool :=
  match m with
  | Some _ => true
  | None => false
  end.

Definition extractArchFromFilename (filename : string) : option string :=
  if is_match (Regex.exec true re_arm filename) then Some "arm64"
  else if is_match (Regex.exec true re_x64 filename) then Some "x64"
  else if is_match (Regex.exec true re_x86 filename) then Some "ia32"
  else if is_match (Regex.exec true re_universal filename)
       then Some "universal"
  else None.

(** [/\.[^.]+$/] *)
Definition re_extension : Regex.t :=
  Regex.Seq (Regex.Lit ".") (Regex.Seq (Regex.Plus Str.not_dot) Regex.Eos).

(** [\d+\.\d+\.\d+] *)
Definition re_core : Regex.t :=
  Regex.Seq (Regex.Plus Str.is_digit)
    (Regex.Seq (Regex.Lit ".")
       (Regex.Seq (Regex.Plus Str.is_digit)
          (Regex.Seq (Regex.Lit ".") (Regex.Plus Str.is_digit)))).

(** [/v?(\d+\.\d+\.\d+(?:-[a-zA-Z0-9.]+)?)/] *)
Definition re_version_full : Regex.t :=
  Regex.Seq (Regex.Opt (Regex.Lit "v"))
    (Regex.Group
       (Regex.Seq re_core
          (Regex.Opt
             (Regex.Seq (Regex.Lit "-")
                (Regex.Plus Str.is_prerelease_char))))).

(** [/v?(\d+\.\d+\.\d+)/] *)
Definition re_version_simple : Regex.t :=
  Regex.Seq (Regex.Opt (Regex.Lit "v")) (Regex.Group re_core).

(** [m[1]] of a match in which group 1 took part. *)
Definition capture (m : Regex.result) : string :=
  match Regex.group1 m with
  | Some g => g
  | None => EmptyString
  end.

Definition extractVersionFromFilename (filename : string) : option string :=
  let nameWithoutExt := Regex.remove_first re_extension filename in
  match Regex.exec false re_version_full nameWithoutExt with
  | Some versionMatchFull => Some (capture versionMatchFull)
  | None =>
      match Regex.exec false re_version_simple nameWithoutExt with
      | Some versionMatchSimple => Some (capture versionMatchSimple)
      | None => None
      end
  end.


(* ===================================================================== *)
(** * node:path (POSIX flavour)

    [path.basename] and [path.join] belong to the Node.js runtime, not
    to the repository; they are modelled after [path.posix]. *)
(* ===================================================================== *)

Module Path.

Definition is_sep (c : ascii) : bool := (c =? "/")%char.

(** The segments of [s] between separators, the segment being read
    ([cur], reversed into place by appending) last. *)
Fixpoint split_from (cur : string) (s : string) : list string :=
  match s with
  | EmptyString => [cur]
  | String c s' =>
      if is_sep c then cur :: split_from EmptyString s'
      else split_from (cur ++ String c EmptyString) s'
  end.

Definition split (s : string) : list string := split_from EmptyString s.

(** [path.basename(p)]: the last non-empty segment, trailing
    separators ignored; empty when there is none. *)
Definition basename (p : string) : string :=
  last (filter Str.truthy (split p)) EmptyString.

(** The segment stack of [normalizeString], most recent segment first. *)
Fixpoint normalize_segments (allowAboveRoot : bool) (stack : list string)
  (segs : list string) : list string :=
  match segs with
  | [] => stack
  | seg :: segs' =>
      if (seg =? "") || (seg =? ".") then
        normalize_segments allowAboveRoot stack segs'
      else if seg =? ".." then
        match stack with
        | top :: below =>
            if top =? ".." then
              normalize_segments allowAboveRoot (seg :: stack) segs'
            else normalize_segments allowAboveRoot below segs'
        | [] =>
            if allowAboveRoot then
              normalize_segments allowAboveRoot [seg] segs'
            else normalize_segments allowAboveRoot [] segs'
        end
      else normalize_segments allowAboveRoot (seg :: stack) segs'
  end.

Definition ends_with_sep (p : string) : bool :=
  match rev (list_ascii_of_string p) with
  | c :: _ => is_sep c
  | [] => false
  end.

(** [path.normalize(p)]. *)
Definition normalize (p : string) : string :=
  match p with
  | EmptyString => "."
  | String c _ =>
      let isAbsolute := is_sep c in
      let trailingSeparator := ends_with_sep p in
      let body :=
        String.concat "/"
          (rev (normalize_segments (negb isAbsolute) [] (split p))) in
      match body with
      | EmptyString =>
          if isAbsolute then "/"
          else if trailingSeparator then "./" else "."
      | _ =>
          (if isAbsolute then "/" else "") ++ body ++
          (if trailingSeparator then "/" else "")
      end
  end.

(** [path.join(a, b)]. *)
Definition join (a b : string) : string :=
  match a, b with
  | EmptyString, EmptyString => "."
  | EmptyString, _ => normalize b
  | _, EmptyString => normalize a
  | _, _ => normalize (a ++ "/" ++ b)
  end.

End Path.

(* ===================================================================== *)
(** * types.ts *)
(* ===================================================================== *)

Module ReleaseFile.
Record t : Type := mk {
  url : string;
  sha512 : string;
  size : N;
  arch : option string
}.
End ReleaseFile.

Module ReleaseManifest.
Record t : Type := mk {
  version : string;
  updaterVersion : string;
  schemaVersion : Z;
  releaseDate : string;
  files : list ReleaseFile.t;
  releaseNotes : option string;
  releaseName : option string;
  (* Auto-updater compatibility fields (optional) *)
  path : option string;
  sha512 : option string;
  size : option N
}.
End ReleaseManifest.

Inductive Platform : Type := mac | win | linux.

Definition platform_name (p : Platform) : string :=
  match p with
  | mac => "mac"
  | win => "win"
  | linux => "linux"
  end.

(** An optional property is [None] when the caller leaves it out.
    [secretKeyPath] is declared as a plain string; it is optional here
    because the function itself tests it for absence. *)
Record CreateMetadataOptions : Type := mkOptions {
  distributables : list string;
  secretKeyPath : option string;
  autoUpdaterCompat : option bool;
  releaseNotes : option string;
  releaseNotesPath : option string;
  outputDir : option string;
  updaterVersion : option string;
  appVersion : option string;
  baseUrl : option string;
  platform : option Platform;
  password : option string;
  verbose : option bool
}.

(** A destructuring default: [x = d]. *)
Definition default {A} (d : A) (x : option A) : A :=
  match x with
  | Some v => v
  | None => d
  end.

(* ===================================================================== *)
(** * Effects *)
(* ===================================================================== *)

(** How one standard stream of a child process is set up. *)
Inductive Stdio : Type := pipe | inherit.

(** The text [stringify(manifest)] of the [yaml] package, which is not
    part of the repository: kept symbolic. *)
Inductive Yaml : Type := stringify (manifest : ReleaseManifest.t).

(** What a run does to the outside world, in the order it does it. *)
Inductive Event : Type :=
| ConsoleLog (message : string)
| ConsoleError (message : string)
| ReadFile (file : string)                 (* fs.readFile(file, "utf-8") *)
| CreateReadStream (file : string)         (* the stream that is hashed *)
| Stat (file : string)
| Mkdir (dir : string)                     (* fs.mkdir(dir, {recursive}) *)
| WriteFile (file : string) (content : Yaml)
| Spawn (pid : nat) (command : string) (args : list string)
        (stdin stdout stderr : Stdio)
| StdinWrite (pid : nat) (data : string)
| StdinEnd (pid : nat)
| ChildStderr (pid : nat) (text : string)  (* written by the child itself
                                              to the stream it inherited *)
| Close (pid : nat) (code : option Z).

(** The result of an awaited promise: the value it resolves to, or the
    message of the [Error] it rejects with. *)
Inductive outcome (A : Type) : Type :=
| Ok (value : A)
| Throw (message : string).
Arguments Ok {A} value.
Arguments Throw {A} message.

(** How one run of the external signer goes: the exit code passed to the
    [close] listener ([None] is [null], the process was ended by a
    signal) and what the signer printed on its standard error. *)
Record ChildRun : Type := mkChildRun {
  exitCode : option Z;
  diagnostics : string
}.

(** The environment of a run. The signer's behaviour may depend on which
    child it is, on its arguments and on what was written to its input.
    Operations started together end in an order the program does not
    choose: [settleTime index file] is when the inspection of the
    artifact at [index] settles, and [statFirst file] tells whether
    [stat(file)] settles before the read stream of [file] does. *)
Record World : Type := mkWorld {
  now : string;                              (* new Date().toISOString() *)
  fileContent : string -> outcome string;    (* fs.readFile *)
  fileDigest : string -> outcome string;     (* base64 SHA-512 of a file *)
  fileSize : string -> outcome N;            (* stat(file).size *)
  mkdirResult : string -> outcome unit;
  writeResult : string -> outcome unit;
  minisign : nat -> list string -> option string -> ChildRun;
  settleTime : nat -> string -> nat;
  statFirst : string -> bool
}.

(** A computation reads the world, counts the children spawned so far
    and returns the events it caused together with its outcome. *)
Definition M (A : Type) : Type :=
  World -> nat -> list Event * nat * outcome A.

Definition ret {A} (a : A) : M A := fun _ n => ([], n, Ok a).

Definition throw {A} (message : string) : M A :=
  fun _ n => ([], n, Throw message).

Definition bind {A B} (m : M A) (f : A -> M B) : M B :=
  fun w n =>
    match m w n with
    | (tr, n', Ok a) =>
        match f a w n' with
        | (tr', n'', r) => ((tr ++ tr')%list, n'', r)
        end
    | (tr, n', Throw e) => (tr, n', Throw e)
    end.

(** [try { m } catch (error) { handler(error.message) }]. *)
Definition try_catch {A} (m : M A) (handler : string -> M A) : M A :=
  fun w n =>
    match m w n with
    | (tr, n', Ok a) => (tr, n', Ok a)
    | (tr, n', Throw e) =>
        match handler e w n' with
        | (tr', n'', r) => ((tr ++ tr')%list, n'', r)
        end
    end.

Declare Scope monad_scope.
Delimit Scope monad_scope with monad.
Notation "x <- m ;; k" := (bind m (fun x => k))
  (at level 61, m at next level, right associativity) : monad_scope.
Notation "m ;; k" := (bind m (fun _ => k))
  (at level 61, right associativity) : monad_scope.
Local Open Scope monad_scope.

Definition emit (e : Event) : M unit := fun _ n => ([e], n, Ok tt).

(** An operation of the environment: the event it causes and the
    outcome the world gives it. *)
Definition perform {A} (e : Event) (result : World -> outcome A) : M A :=
  fun w n => ([e], n, result w).

(** A promise that was started earlier settles. *)
Definition settle {A} (result : World -> outcome A) : M A :=
  fun w n => ([], n, result w).

Definition console_log (message : string) : M unit :=
  emit (ConsoleLog message).

Definition console_error (message : string) : M unit :=
  emit (ConsoleError message).

Definition when (b : bool) (m : M unit) : M unit :=
  if b then m else ret tt.

(** [for (const [index, x] of xs.entries()) { await body(index, x) }],
    [index] counting from [i]. *)
Fixpoint for_each {A} (body : nat -> A -> M unit) (i : nat) (xs : list A)
  : M unit :=
  match xs with
  | [] => ret tt
  | x :: xs' => body i x ;; for_each body (S i) xs'
  end.

(** The same loop collecting the results. *)
Fixpoint map_each {A B} (body : nat -> A -> M B) (i : nat) (xs : list A)
  : M (list B) :=
  match xs with
  | [] => ret []
  | x :: xs' =>
      y <- body i x ;;
      ys <- map_each body (S i) xs' ;;
      ret (y :: ys)
  end.

(** [Promise.all([p, q])] of two promises that were started earlier:
    the pair of their values, or the rejection that comes first in time
    ([qFirst]: [q] settles before [p]). *)
Definition promise_all2 {A B} (qFirst : bool) (p : outcome A) (q : outcome B)
  : outcome (A * B) :=
  match p, q with
  | Ok a, Ok b => Ok (a, b)
  | Throw e, Ok _ => Throw e
  | Ok _, Throw e => Throw e
  | Throw e, Throw e' => Throw (if qFirst then e' else e)
  end.

(** [[...xs.entries()]], the indices counting from [i]. *)
Fixpoint indexed {A} (i : nat) (xs : list A) : list (nat * A) :=
  match xs with
  | [] => []
  | x :: xs' => (i, x) :: indexed (S i) xs'
  end.

(** [x] put into [l], which is in the order of [time], before the first
    element that is not earlier than [x]. *)
Fixpoint insert_by {A} (time : A -> nat) (x : A) (l : list A) : list A :=
  match l with
  | [] => [x]
  | y :: l' =>
      if (time x <=? time y)%nat then x :: y :: l'
      else y :: insert_by time x l'
  end.

(** The array [Promise.all] resolves to: each value stands at the index
    of its promise, whenever it settled. *)
Definition results_by_index {A} (total : nat) (settled : list (nat * A))
  : list A :=
  flat_map
    (fun index =>
       match find (fun r => (fst r =? index)%nat) settled with
       | Some r => [snd r]
       | None => []
       end)
    (seq 0 total).

(** A child process handle. *)
Record Child : Type := mkChild {
  pid : nat;
  argv : list string
}.

(** [spawn(command, args, { stdio })]. *)
Definition spawn (command : string) (args : list string)
  (stdin stdout stderr : Stdio) : M Child :=
  fun _ n =>
    ([Spawn n command args stdin stdout stderr], S n, Ok (mkChild n args)).

Definition stdin_write (c : Child) (data : string) : M unit :=
  emit (StdinWrite (pid c) data).

Definition stdin_end (c : Child) : M unit := emit (StdinEnd (pid c)).

(** [await new Promise(... child.on("close", (code) => ...))]: the child
    runs to its end. Its standard error was inherited in both spawns of
    the source, so what it prints goes to the parent's standard error and
    is not seen by this program. [input] is what was written to its
    standard input. *)
Definition on_close (c : Child) (input : option string) : M (option Z) :=
  fun w n =>
    let r := minisign w (pid c) (argv c) input in
    (((if Str.truthy (diagnostics r)
       then [ChildStderr (pid c) (diagnostics r)] else []) ++
      [Close (pid c) (exitCode r)])%list, n, Ok (exitCode r)).

(* ===================================================================== *)
(** * file-utils.ts: file access *)
(* ===================================================================== *)

(** [getFileInfo]: [calculateSha512] opens the read stream and
    [getFileSize] stats the file; both are started before either is
    awaited. *)
Definition getFileInfo_start (filePath : string) : M unit :=
  emit (CreateReadStream filePath) ;; emit (Stat filePath).

(** [Promise.all([calculateSha512(p), getFileSize(p)])] settles: with
    both results, or with the error of the operation that fails first. *)
Definition getFileInfo_settle (filePath : string) : M (string * N) :=
  settle (fun w =>
            promise_all2 (statFirst w filePath)
              (fileDigest w filePath) (fileSize w filePath)).

Definition getFileInfo (filePath : string) : M (string * N) :=
  getFileInfo_start filePath ;; getFileInfo_settle filePath.

Definition readReleaseNotes (releaseNotesPath : option string)
  : M (option string) :=
  match releaseNotesPath with
  | Some file =>
      if Str.truthy file then
        try_catch
          (content <- perform (ReadFile file) (fun w => fileContent w file) ;;
           ret (Some content))
          (fun errorMessage =>
             throw ("Failed to read release notes from " ++ file ++ ": "
                    ++ errorMessage))
      else ret None
  | None => ret None
  end.

(* ===================================================================== *)
(** * manifest.ts *)
(* ===================================================================== *)

(** [String(code)] and [String(code ?? "unknown")]. *)
Definition code_text (ifNull : string) (code : option Z) : string :=
  match code with
  | Some z => Str.of_Z z
  | None => ifNull
  end.

Definition is_zero (code : option Z) : bool :=
  match code with
  | Some z => (z =? 0)%Z
  | None => false
  end.

Definition sign_args (filePath secretKeyPath : string) : list string :=
  ["-S"; "-s"; secretKeyPath; "-m"; filePath].

(** Sign a file using the minisign command. *)
Definition signFile (filePath secretKeyPath : string)
  (password : option string) : M unit :=
  try_catch
    (console_log ("Signing file: " ++ Path.basename filePath) ;;
     (if Str.truthy_opt password then
        let secret := default EmptyString password in
        console_log "Using provided password for key decryption" ;;
        child <- spawn "minisign" (sign_args filePath secretKeyPath)
                   pipe inherit inherit ;;
        stdin_write child (secret ++ Str.newline) ;;
        stdin_end child ;;
        code <- on_close child (Some (secret ++ Str.newline)) ;;
        if is_zero code then ret tt
        else throw ("minisign process exited with code "
                    ++ code_text "null" code)
      else
        console_log
          "You may need to enter password in the terminal if prompted" ;;
        child <- spawn "minisign" (sign_args filePath secretKeyPath)
                   inherit inherit inherit ;;
        code <- on_close child None ;;
        if is_zero code then ret tt
        else throw ("minisign process exited with code "
                    ++ code_text "unknown" code)) ;;
     console_log ("Successfully signed: " ++ Path.basename filePath))
    (fun errMessage =>
       console_error ("Error signing file: " ++ Path.basename filePath) ;;
       when (Str.truthy errMessage) (console_error errMessage) ;;
       throw ("Failed to sign file with minisign: " ++ errMessage)).

(** The synchronous start of one callback of [distributables.map]: it
    runs up to its first [await]. *)
Definition inspect_start (log : string -> M unit) (total : nat)
  (index : nat) (filePath : string) : M unit :=
  log ("Processing file " ++ Str.of_nat (index + 1) ++ "/"
       ++ Str.of_nat total ++ ": " ++ Path.basename filePath) ;;
  getFileInfo_start filePath.

(** The rest of the callback, once its [getFileInfo] has settled. *)
Definition inspect_finish (log : string -> M unit) (baseUrl : string)
  (index : nat) (filePath : string) : M ReleaseFile.t :=
  info <- getFileInfo_settle filePath ;;
  let '(sha512, size) := info in
  log ("File size: " ++ Str.of_N size ++ " bytes") ;;
  let arch := extractArchFromFilename (Path.basename filePath) in
  log ("Detected architecture: " ++ default "unknown" arch) ;;
  let url :=
    if Str.truthy baseUrl
    then baseUrl ++ "/" ++ Path.basename filePath
    else Path.basename filePath in
  ret (ReleaseFile.mk url sha512 size
         (if Str.truthy_opt arch then arch else None)).

(** The order in which the callbacks of [distributables.map] are
    resumed: the order of the times at which their inspections settle,
    the earlier index first among equals. *)
Definition completion_order (w : World) (distributables : list string)
  : list (nat * string) :=
  fold_right (insert_by (fun callback =>
                           settleTime w (fst callback) (snd callback)))
    [] (indexed 0 distributables).

(** [await Promise.all(distributables.map(async ...))]. Every callback
    is started in input order (as [map] does) and runs up to its
    [await]; the callbacks are then resumed as their inspections settle,
    in the order the world gives. The first rejection in that order is
    the outcome of the whole, and the run goes on from there: what a
    callback that is still pending does afterwards is no part of it. If
    none rejects, the entries stand in input order. *)
Definition inspect_all (log : string -> M unit) (baseUrl : string)
  (distributables : list string) : M (list ReleaseFile.t) :=
  for_each (inspect_start log (List.length distributables)) 0 distributables ;;
  order <- settle (fun w => Ok (completion_order w distributables)) ;;
  settled <- map_each
               (fun _ callback =>
                  entry <- inspect_finish log baseUrl (fst callback)
                             (snd callback) ;;
                  ret (fst callback, entry))
               0 order ;;
  ret (results_by_index (List.length distributables) settled).

(** The manifest object of [createReleaseMetadata], auto-updater
    compatibility fields included when requested. *)
Definition build_manifest (version updaterVersion releaseDate : string)
  (fileEntries : list ReleaseFile.t) (notes : option string)
  (autoUpdaterCompat : bool) (distributables : list string)
  : ReleaseManifest.t :=
  let manifest :=
    ReleaseManifest.mk version updaterVersion 1%Z releaseDate fileEntries
      (if Str.truthy_opt notes then notes else None)
      None None None None in
  if autoUpdaterCompat && (0 <? List.length fileEntries)%nat then
    match fileEntries with
    | first :: _ =>
        ReleaseManifest.mk
          (ReleaseManifest.version manifest)
          (ReleaseManifest.updaterVersion manifest)
          (ReleaseManifest.schemaVersion manifest)
          (ReleaseManifest.releaseDate manifest)
          (ReleaseManifest.files manifest)
          (ReleaseManifest.releaseNotes manifest)
          (ReleaseManifest.releaseName manifest)
          (Some (Path.basename (hd EmptyString distributables)))
          (Some (ReleaseFile.sha512 first))
          (Some (ReleaseFile.size first))
    | [] => manifest
    end
  else manifest.

(** Creates release metadata files for ToDesktop Installer. *)
Definition createReleaseMetadata (options : CreateMetadataOptions)
  : M string :=
  let distributables := distributables options in
  let autoUpdaterCompat := default false (autoUpdaterCompat options) in
  let outputDir := default "." (outputDir options) in
  let updaterVersion := default "1.0.0" (updaterVersion options) in
  let baseUrl := default "" (baseUrl options) in
  let platform := default mac (platform options) in
  let password := password options in
  let verbose := default false (verbose options) in
  (* Helper function for logging *)
  let log (message : string) : M unit :=
    when verbose (console_log ("[ToDesktop Release] " ++ message)) in
  log "Starting release metadata creation..." ;;
  (* Validate inputs *)
  if (List.length distributables =? 0)%nat then
    throw "No distributable files provided"
  else if negb (Str.truthy_opt (secretKeyPath options)) then
    throw "Secret key path is required"
  else
    let secretKeyPath := default EmptyString (secretKeyPath options) in
    log ("Processing " ++ Str.of_nat (List.length distributables)
         ++ " distributable files") ;;
    (* Read release notes if a path is provided *)
    notes <- match releaseNotes options with
             | Some text => ret (Some text)
             | None => readReleaseNotes (releaseNotesPath options)
             end ;;
    log (if Str.truthy_opt notes then "Release notes loaded"
         else "No release notes provided") ;;
    (* Process each distributable file *)
    log "Calculating file hashes and metadata..." ;;
    fileEntries <- inspect_all log baseUrl distributables ;;
    (* Determine app version if not provided *)
    let version :=
      match appVersion options with
      | Some v => v
      | None =>
          default "1.0.0"
            (extractVersionFromFilename
               (Path.basename (hd EmptyString distributables)))
      end in
    log ("Using version: " ++ version) ;;
    (* Create manifest object *)
    log "Creating manifest object..." ;;
    releaseDate <- settle (fun w => Ok (now w)) ;;
    let manifest :=
      build_manifest version updaterVersion releaseDate fileEntries notes
        autoUpdaterCompat distributables in
    when (autoUpdaterCompat && (0 <? List.length fileEntries)%nat)
      (log "Adding auto-updater compatibility fields") ;;
    (* Convert manifest to YAML *)
    log "Converting manifest to YAML..." ;;
    let yamlContent := stringify manifest in
    (* Ensure output directory exists *)
    log ("Ensuring output directory exists: " ++ outputDir) ;;
    perform (Mkdir outputDir) (fun w => mkdirResult w outputDir) ;;
    (* Write manifest to file *)
    let manifestFile :=
      Path.join outputDir ("latest-" ++ platform_name platform ++ ".yml") in
    log ("Writing manifest to: " ++ manifestFile) ;;
    perform (WriteFile manifestFile yamlContent)
            (fun w => writeResult w manifestFile) ;;
    (* Sign manifest *)
    log "Signing manifest file..." ;;
    (if Str.truthy_opt password
     then log "Password provided for key decryption"
     else log "No password provided, you may need to enter it manually if prompted") ;;
    signFile manifestFile secretKeyPath password ;;
    (* Sign each distributable file *)
    log "Signing distributable files..." ;;
    for_each
      (fun index filePath =>
         log ("Signing file " ++ Str.of_nat (index + 1) ++ "/"
              ++ Str.of_nat (List.length distributables) ++ ": "
              ++ Path.basename filePath) ;;
         signFile filePath secretKeyPath password)
      0 distributables ;;
    log "Release metadata creation completed successfully!" ;;
    ret manifestFile.

(** A run from a fresh process: no child spawned yet. *)
Definition run_pipeline (options : CreateMetadataOptions) (w : World)
  : list Event * outcome string :=
  match createReleaseMetadata options w 0 with
  | (tr, _, r) => (tr, r)
  end.

(* ===================================================================== *)
(** * Observations on a run *)
(* ===================================================================== *)

(** The events that touch the file system. *)
Definition is_fs_event (e : Event) : bool :=
  match e with
  | ReadFile _ | CreateReadStream _ | Stat _ | Mkdir _ | WriteFile _ _ => true
  | _ => false
  end.

(** The events that concern a child process. *)
Definition is_child_event (e : Event) : bool :=
  match e with
  | Spawn _ _ _ _ _ _ | StdinWrite _ _ | StdinEnd _
  | ChildStderr _ _ | Close _ _ => true
  | _ => false
  end.

Definition is_console_event (e : Event) : bool :=
  match e with
  | ConsoleLog _ | ConsoleError _ => true
  | _ => false
  end.

(** The file a signer invocation is asked to sign: the argument that
    follows [-m]. *)
Definition target (args : list string) : string := nth 4 args EmptyString.

(** The files for which the signer was started, in the order of the
    invocations. *)
Definition targets (tr : list Event) : list string :=
  flat_map
    (fun e =>
       match e with
       | Spawn _ _ args _ _ _ => [target args]
       | _ => []
       end) tr.

(** The same options with another [password]. *)
Definition with_password (o : CreateMetadataOptions) (p : option string)
  : CreateMetadataOptions :=
  mkOptions (distributables o) (secretKeyPath o) (autoUpdaterCompat o)
    (releaseNotes o) (releaseNotesPath o) (outputDir o) (updaterVersion o)
    (appVersion o) (baseUrl o) (platform o) p (verbose o).

(** The path of the manifest file of a run. *)
Definition manifest_file (o : CreateMetadataOptions) : string :=
  Path.join (default "." (outputDir o))
    ("latest-" ++ platform_name (default mac (platform o)) ++ ".yml").

(** The credential strategy of a run, as the standard input of the
    signer: piped for an explicit credential, inherited otherwise. *)
Definition strategy (password : option string) : Stdio :=
  if Str.truthy_opt password then pipe else inherit.

(** What is written to the signer's input under each strategy. *)
Definition signer_input (password : option string) : option string :=
  if Str.truthy_opt password
  then Some (default EmptyString password ++ Str.newline)
  else None.

(** The detail of a failed signer run. *)
Definition exit_detail (password : option string) (code : option Z)
  : string :=
  "minisign process exited with code "
  ++ code_text (if Str.truthy_opt password then "null" else "unknown") code.

(** The events of one signer process, console output apart. *)
Definition child_protocol (n : nat) (filePath secretKeyPath : string)
  (password : option string) (r : ChildRun) : list Event :=
  (Spawn n "minisign" (sign_args filePath secretKeyPath)
     (strategy password) inherit inherit
   :: (if Str.truthy_opt password
       then [StdinWrite n (default EmptyString password ++ Str.newline);
             StdinEnd n]
       else [])
   ++ (if Str.truthy (diagnostics r) then [ChildStderr n (diagnostics r)]
       else [])
   ++ [Close n (exitCode r)])%list.

(* ===================================================================== *)
(** * A program logic for [M] *)
(* ===================================================================== *)

(** [sat w P Q m]: run in world [w], every event of [m] satisfies [P],
    every value it resolves to satisfies [Q], and the count of children
    grows by one for each signer [m] starts. *)
Definition sat {A} (w : World) (P : Event -> Prop) (Q : A -> Prop) (m : M A)
  : Prop :=
  forall n tr n' r,
    m w n = (tr, n', r) ->
    Forall P tr /\ n' = n + List.length (targets tr) /\
    (forall a, r = Ok a -> Q a).

(* ===================================================================== *)
(** * The three stages of [createReleaseMetadata]

    The body of the function after validation, cut where the source's
    comments cut it: the manifest is assembled, then persisted, then
    everything is signed. [createReleaseMetadata] is shown below to run
    exactly as the stages run in sequence. *)
(* ===================================================================== *)

(** The [log] helper of a run. *)
Definition logger (o : CreateMetadataOptions) (message : string) : M unit :=
  when (default false (verbose o))
    (console_log ("[ToDesktop Release] " ++ message)).

(** The version a run gives its manifest. *)
Definition effective_version (o : CreateMetadataOptions) : string :=
  match appVersion o with
  | Some v => v
  | None =>
      default "1.0.0"
        (extractVersionFromFilename
           (Path.basename (hd EmptyString (distributables o))))
  end.

(** From "Processing n distributable files" to the manifest object. *)
Definition assemble (o : CreateMetadataOptions) : M ReleaseManifest.t :=
  let log := logger o in
  let compat := default false (autoUpdaterCompat o) in
  log ("Processing " ++ Str.of_nat (List.length (distributables o))
       ++ " distributable files") ;;
  notes <- match releaseNotes o with
           | Some text => ret (Some text)
           | None => readReleaseNotes (releaseNotesPath o)
           end ;;
  log (if Str.truthy_opt notes then "Release notes loaded"
       else "No release notes provided") ;;
  log "Calculating file hashes and metadata..." ;;
  fileEntries <- inspect_all log (default "" (baseUrl o)) (distributables o) ;;
  log ("Using version: " ++ effective_version o) ;;
  log "Creating manifest object..." ;;
  releaseDate <- settle (fun w => Ok (now w)) ;;
  when (compat && (0 <? List.length fileEntries)%nat)
    (log "Adding auto-updater compatibility fields") ;;
  ret (build_manifest (effective_version o)
         (default "1.0.0" (updaterVersion o)) releaseDate fileEntries notes
         compat (distributables o)).

(** From "Converting manifest to YAML..." to the written file. *)
Definition persist (o : CreateMetadataOptions) (manifest : ReleaseManifest.t)
  : M string :=
  let log := logger o in
  let outputDir := default "." (outputDir o) in
  log "Converting manifest to YAML..." ;;
  log ("Ensuring output directory exists: " ++ outputDir) ;;
  perform (Mkdir outputDir) (fun w => mkdirResult w outputDir) ;;
  log ("Writing manifest to: " ++ manifest_file o) ;;
  perform (WriteFile (manifest_file o) (stringify manifest))
          (fun w => writeResult w (manifest_file o)) ;;
  ret (manifest_file o).

(** The body of the loop over the distributables. *)
Definition sign_one (o : CreateMetadataOptions) (secretKeyPath : string)
  (index : nat) (filePath : string) : M unit :=
  logger o ("Signing file " ++ Str.of_nat (index + 1) ++ "/"
            ++ Str.of_nat (List.length (distributables o)) ++ ": "
            ++ Path.basename filePath) ;;
  signFile filePath secretKeyPath (password o).

(** From "Signing manifest file..." to the end. *)
Definition sign_all (o : CreateMetadataOptions) (secretKeyPath : string)
  (manifestFile : string) : M string :=
  let log := logger o in
  log "Signing manifest file..." ;;
  (if Str.truthy_opt (password o)
   then log "Password provided for key decryption"
   else log "No password provided, you may need to enter it manually if prompted") ;;
  signFile manifestFile secretKeyPath (password o) ;;
  log "Signing distributable files..." ;;
  for_each (sign_one o secretKeyPath) 0 (distributables o) ;;
  log "Release metadata creation completed successfully!" ;;
  ret manifestFile.

(** Whether the inputs of a run pass validation. *)
Definition valid (o : CreateMetadataOptions) : bool :=
  negb (List.length (distributables o) =? 0)%nat
  && Str.truthy_opt (secretKeyPath o).

(** The stages in sequence. *)
Definition staged (o : CreateMetadataOptions) : M string :=
  logger o "Starting release metadata creation..." ;;
  if (List.length (distributables o) =? 0)%nat then
    throw "No distributable files provided"
  else if negb (Str.truthy_opt (secretKeyPath o)) then
    throw "Secret key path is required"
  else
    manifest <- assemble o ;;
    manifestFile <- persist o manifest ;;
    sign_all o (default EmptyString (secretKeyPath o)) manifestFile.

(** The events that mark the progress of a run: the directory, the
    manifest file, each signer started and each signer ended. *)
Definition is_milestone (e : Event) : bool :=
  match e with
  | Mkdir _ | WriteFile _ _ | Spawn _ _ _ _ _ _ | Close _ _ => true
  | _ => false
  end.

Definition milestones (tr : list Event) : list Event :=
  filter is_milestone tr.

(** The milestones of signing the files [fs] one after the other, every
    signer ending with status zero; the first child is number [n]. *)
Fixpoint all_signed (secretKeyPath : string) (password : option string)
  (n : nat) (fs : list string) : list Event :=
  match fs with
  | [] => []
  | f :: fs' =>
      Spawn n "minisign" (sign_args f secretKeyPath) (strategy password)
        inherit inherit
      :: Close n (Some 0%Z)
      :: all_signed secretKeyPath password (S n) fs'
  end.

(** The events of one [signFile] call whose signer behaves as [r]. *)
Definition sign_trace (n : nat) (filePath secretKeyPath : string)
  (password : option string) (r : ChildRun) : list Event :=
  ([ConsoleLog ("Signing file: " ++ Path.basename filePath);
    ConsoleLog (if Str.truthy_opt password
                then "Using provided password for key decryption"
                else "You may need to enter password in the terminal if prompted")]
   ++ child_protocol n filePath secretKeyPath password r
   ++ (if is_zero (exitCode r)
       then [ConsoleLog ("Successfully signed: " ++ Path.basename filePath)]
       else [ConsoleError ("Error signing file: " ++ Path.basename filePath);
             ConsoleError (exit_detail password (exitCode r))]))%list.

(** How [signFile] settles when its signer behaves as [r]. *)
Definition sign_outcome (password : option string) (r : ChildRun)
  : outcome unit :=
  if is_zero (exitCode r) then Ok tt
  else Throw ("Failed to sign file with minisign: "
              ++ exit_detail password (exitCode r)).

(** The signer run the world gives child [n] asked to sign [filePath]. *)
Definition signer_run (w : World) (n : nat) (filePath secretKeyPath : string)
  (password : option string) : ChildRun :=
  minisign w n (sign_args filePath secretKeyPath) (signer_input password).

(** The url the source gives the entry of [filePath]. *)
Definition entry_url (baseUrl : string) (filePath : string) : string :=
  if Str.truthy baseUrl
  then baseUrl ++ "/" ++ Path.basename filePath
  else Path.basename filePath.

(** The manifest entry [e] describes the file [filePath] of world [w]. *)
Definition entry_for (w : World) (baseUrl : string) (filePath : string)
  (e : ReleaseFile.t) : Prop :=
  fileDigest w filePath = Ok (ReleaseFile.sha512 e) /\
  fileSize w filePath = Ok (ReleaseFile.size e) /\
  ReleaseFile.url e = entry_url baseUrl filePath.

(** [notes] are the release notes a run in world [w] resolves. *)
Definition notes_for (w : World) (o : CreateMetadataOptions)
  (notes : option string) : Prop :=
  match releaseNotes o with
  | Some text => notes = Some text
  | None =>
      match releaseNotesPath o with
      | Some file =>
          if Str.truthy file
          then exists content,
                 fileContent w file = Ok content /\ notes = Some content
          else notes = None
      | None => notes = None
      end
  end.

(** [m] is a manifest a run of [o] in world [w] can build. *)
Definition manifest_of (w : World) (o : CreateMetadataOptions)
  (m : ReleaseManifest.t) : Prop :=
  exists fileEntries notes,
    m = build_manifest (effective_version o)
          (default "1.0.0" (updaterVersion o)) (now w) fileEntries notes
          (default false (autoUpdaterCompat o)) (distributables o) /\
    Forall2 (entry_for w (default "" (baseUrl o))) (distributables o)
      fileEntries /\
    notes_for w o notes.

(* ===================================================================== *)
(** * The heuristics as the specification words them *)
(* ===================================================================== *)

(** The token groups of the architecture heuristic, as the specification
    lists them, each with the tag it stands for. *)
Definition arch_groups : list (list string * string) :=
  [(["arm64"; "aarch64"], "arm64");
   (["x64"; "x86_64"; "amd64"], "x64");
   (["x86"; "ia32"; "i386"], "ia32");
   (["universal"], "universal")].

(** Some token of the group occurs in the name, whatever the case. *)
Definition mentions (tokens : list string) (filename : string) : bool :=
  existsb (fun token => Str.includes true token filename) tokens.

(** The tag of the first group with a token in the name. *)
Fixpoint first_group (groups : list (list string * string))
  (filename : string) : option string :=
  match groups with
  | [] => None
  | (tokens, tag) :: rest =>
      if mentions tokens filename then Some tag
      else first_group rest filename
  end.

Definition arch_by_tokens (filename : string) : option string :=
  first_group arch_groups filename.

(** [s] is a file extension: a dot followed by one or more characters
    none of which is a dot. *)
Definition is_extension (s : string) : bool :=
  match s with
  | String c s' => (c =? ".")%char && Str.truthy s' && Str.all Str.not_dot s'
  | EmptyString => false
  end.

(** The name without its extension. *)
Fixpoint strip_extension (s : string) : string :=
  if is_extension s then EmptyString
  else match s with
       | EmptyString => EmptyString
       | String c s' => String c (strip_extension s')
       end.

(** A run of one or more digits at the start of [s], and what follows. *)
Definition digits (s : string) : option (string * string) :=
  match Str.span Str.is_digit s with
  | (EmptyString, _) => None
  | (ds, rest) => Some (ds, rest)
  end.

(** What follows a given character at the start of [s]. *)
Definition after (c : ascii) (s : string) : option string :=
  match s with
  | String c' s' => if (c =? c')%char then Some s' else None
  | EmptyString => None
  end.

(** [<major>.<minor>.<patch>] at the start of [s], and what follows. *)
Definition core_at (s : string) : option (string * string) :=
  match digits s with
  | Some (major, r1) =>
      match after "." r1 with
      | Some r2 =>
          match digits r2 with
          | Some (minor, r3) =>
              match after "." r3 with
              | Some r4 =>
                  match digits r4 with
                  | Some (patch, r5) =>
                      Some (major ++ "." ++ minor ++ "." ++ patch, r5)
                  | None => None
                  end
              | None => None
              end
          | None => None
          end
      | None => None
      end
  | None => None
  end.

(** A [-<prerelease>] suffix at the start of [s], a hyphen and one or
    more alphanumerics or dots, and what follows. *)
Definition prerelease_at (s : string) : option (string * string) :=
  match after "-" s with
  | Some r =>
      match Str.span Str.is_prerelease_char r with
      | (EmptyString, _) => None
      | (pre, rest) => Some ("-" ++ pre, rest)
      end
  | None => None
  end.

(** The semantic version at the start of [s], its prerelease suffix
    included when there is one. *)
Definition semver_at (s : string) : option string :=
  match core_at s with
  | Some (core, rest) =>
      match prerelease_at rest with
      | Some (suffix, _) => Some (core ++ suffix)
      | None => Some core
      end
  | None => None
  end.

(** The first semantic version in [s], reading from the left. *)
Fixpoint find_semver (s : string) : option string :=
  match semver_at s with
  | Some v => Some v
  | None =>
      match s with
      | EmptyString => None
      | String _ s' => find_semver s'
      end
  end.

(** Version extraction as the specification words it. *)
Definition version_by_scan (filename : string) : option string :=
  find_semver (strip_extension filename).

(** The bare version at the start of [s]. *)
Definition bare_at (s : string) : option string :=
  option_map fst (core_at s).

(* ===================================================================== *)
(** * Vocabulary of the statements *)
(* ===================================================================== *)

(** The only thing a run can do before its inputs are validated. *)
Definition start_log (o : CreateMetadataOptions) : list Event :=
  if default false (verbose o)
  then [ConsoleLog "[ToDesktop Release] Starting release metadata creation..."]
  else [].

Definition validation_error (o : CreateMetadataOptions) : string :=
  match distributables o with
  | [] => "No distributable files provided"
  | _ :: _ => "Secret key path is required"
  end.

(** The [releaseNotes] property of a manifest built from resolved notes:
    there only for non-empty notes. *)
Definition release_notes_of (notes : option string) : option string :=
  if Str.truthy_opt notes then notes else None.

(** What a signer failure leaves at the end of the trace: the signer
    closes, the file is named on the error console, the detail follows. *)
Definition failure_tail (pw : option string) (pid : nat) (f : string)
  (code : option Z) : list Event :=
  [Close pid code;
   ConsoleError ("Error signing file: " ++ Path.basename f);
   ConsoleError (exit_detail pw code)].

(** An event that neither concerns a child process nor marks progress. *)
Definition quiet_event (e : Event) : Prop :=
  is_child_event e = false /\ is_milestone e = false.

(** An event of the interactive strategy: every stream of a signer is
    inherited and nothing is written to its input. *)
Definition interactive_only (e : Event) : Prop :=
  match e with
  | Spawn _ _ _ stdin stdout stderr =>
      stdin = inherit /\ stdout = inherit /\ stderr = inherit
  | StdinWrite _ _ | StdinEnd _ => False
  | _ => True
  end.

(** An event that only the explicit-credential strategy causes. *)
Definition explicit_credential_event (e : Event) : bool :=
  match e with
  | Spawn _ _ _ pipe _ _ | StdinWrite _ _ | StdinEnd _ => true
  | _ => false
  end.

(* ===================================================================== *)
(** * Sample inputs *)
(* ===================================================================== *)

(** No artifact at all. *)
Definition opts_empty : CreateMetadataOptions :=
  mkOptions [] (Some "secret.key") None None None None None None None None None None.

(** A world in which every file can be read and written and every
    signer succeeds without a word. *)
Definition calm_world : World :=
  mkWorld "2024-05-01T12:00:00.000Z"
    (fun _ => Ok "notes from file") (fun f => Ok ("digest:" ++ f))
    (fun _ => Ok 12345%N) (fun _ => Ok tt) (fun _ => Ok tt)
    (fun _ _ _ => mkChildRun (Some 0%Z) "")
    (fun _ _ => 0) (fun _ => false).

(** A world in which every file can be read and written and the signer
    succeeds, except for child number [k], which prints a diagnostic and
    exits with status 1. *)
Definition fails_at (k : nat) : World :=
  mkWorld "2024-05-01T12:00:00.000Z"
    (fun _ => Ok "notes from file") (fun f => Ok ("digest:" ++ f))
    (fun _ => Ok 12345%N) (fun _ => Ok tt) (fun _ => Ok tt)
    (fun n _ _ =>
       if (n =? k)%nat then mkChildRun (Some 1%Z) "Wrong password for this key"
       else mkChildRun (Some 0%Z) "")
    (fun _ _ => 0) (fun _ => false).

(** One artifact, everything else left to its default but the version. *)
Definition opts_one : CreateMetadataOptions :=
  mkOptions ["dist/app-1.0.0.zip"] (Some "secret.key") None None None None
    None (Some "1.0.0") None None None None.

(** One artifact, an explicit credential, compatibility mode off. *)
Definition opts_password : CreateMetadataOptions :=
  with_password opts_one (Some "test-password").

(** One artifact behind a base URL, compatibility mode on. *)
Definition opts_compat_cdn : CreateMetadataOptions :=
  mkOptions ["dist/app-1.0.0.zip"] (Some "secret.key") (Some true) None None
    None None (Some "1.0.0") (Some "https://cdn.example.com") None None None.

Definition entry_cdn : ReleaseFile.t :=
  ReleaseFile.mk "https://cdn.example.com/app-1.0.0.zip"
    "digest:dist/app-1.0.0.zip" 12345 None.

Definition manifest_compat_cdn : ReleaseManifest.t :=
  ReleaseManifest.mk "1.0.0" "1.0.0" 1 "2024-05-01T12:00:00.000Z"
    [entry_cdn] None None
    (Some "app-1.0.0.zip") (Some "digest:dist/app-1.0.0.zip") (Some 12345%N).

(* ===================================================================== *)
(** * Further vocabulary: stages as functions, runs compared *)
(* ===================================================================== *)

(** ** The heuristics: what they return *)

(** The name with every letter in its canonical (upper) case. *)
Fixpoint fold_case (s : string) : string :=
  match s with
  | EmptyString => EmptyString
  | String c s' => String (Str.canonicalize c) (fold_case s')
  end.

(** [v] has the form of a version: three non-empty runs of digits
    separated by dots, then nothing or a hyphen and a non-empty run of
    alphanumerics and dots. *)
Definition version_shaped (v : string) : Prop :=
  exists major minor patch suffix,
    v = major ++ "." ++ minor ++ "." ++ patch ++ suffix /\
    Str.truthy major = true /\ Str.all Str.is_digit major = true /\
    Str.truthy minor = true /\ Str.all Str.is_digit minor = true /\
    Str.truthy patch = true /\ Str.all Str.is_digit patch = true /\
    (suffix = EmptyString \/
     exists pre, suffix = "-" ++ pre /\ Str.truthy pre = true /\
                 Str.all Str.is_prerelease_char pre = true).

(** ** The assembly stage as a function of the world *)

(** The release notes a run resolves in world [w], or the error it
    rejects with when the notes file cannot be read. *)
Definition resolve_notes (w : World) (o : CreateMetadataOptions)
  : outcome (option string) :=
  match releaseNotes o with
  | Some text => Ok (Some text)
  | None =>
      match releaseNotesPath o with
      | Some file =>
          if Str.truthy file then
            match fileContent w file with
            | Ok content => Ok (Some content)
            | Throw e =>
                Throw ("Failed to read release notes from " ++ file ++ ": "
                       ++ e)
            end
          else Ok None
      | None => Ok None
      end
  end.

(** The file-system calls made to resolve the notes. *)
Definition notes_reads (o : CreateMetadataOptions) : list Event :=
  match releaseNotes o with
  | Some _ => []
  | None =>
      match releaseNotesPath o with
      | Some file => if Str.truthy file then [ReadFile file] else []
      | None => []
      end
  end.

(** The file-system calls of the inspection: each artifact is opened
    for hashing and stat'ed, in input order. *)
Definition inspection_calls (distributables : list string) : list Event :=
  flat_map (fun d => [CreateReadStream d; Stat d]) distributables.

(** The manifest entry of one artifact in world [w], or the error of
    its inspection: that of the operation that fails first. *)
Definition entry_of (w : World) (baseUrl : string) (filePath : string)
  : outcome ReleaseFile.t :=
  match promise_all2 (statFirst w filePath)
          (fileDigest w filePath) (fileSize w filePath) with
  | Throw e => Throw e
  | Ok (sha512, size) =>
      Ok (ReleaseFile.mk (entry_url baseUrl filePath) sha512 size
            (extractArchFromFilename (Path.basename filePath)))
  end.

(** The entries of the callbacks resumed in [order], each with its
    index, or the first error in that order. *)
Fixpoint settle_in_order (w : World) (baseUrl : string)
  (order : list (nat * string)) : outcome (list (nat * ReleaseFile.t)) :=
  match order with
  | [] => Ok []
  | callback :: order' =>
      match entry_of w baseUrl (snd callback) with
      | Throw e => Throw e
      | Ok entry =>
          match settle_in_order w baseUrl order' with
          | Throw e => Throw e
          | Ok settled => Ok ((fst callback, entry) :: settled)
          end
      end
  end.

(** The entries of all artifacts, in input order, or the error of the
    inspection that fails first in the order of completion. *)
Definition entries_of (w : World) (baseUrl : string) (ds : list string)
  : outcome (list ReleaseFile.t) :=
  match settle_in_order w baseUrl (completion_order w ds) with
  | Throw e => Throw e
  | Ok settled => Ok (results_by_index (List.length ds) settled)
  end.

(** The outcome of the assembly stage in world [w]. *)
Definition assembled (w : World) (o : CreateMetadataOptions)
  : outcome ReleaseManifest.t :=
  match resolve_notes w o with
  | Throw e => Throw e
  | Ok notes =>
      match entries_of w (default "" (baseUrl o)) (distributables o) with
      | Throw e => Throw e
      | Ok fileEntries =>
          Ok (build_manifest (effective_version o)
                (default "1.0.0" (updaterVersion o)) (now w) fileEntries notes
                (default false (autoUpdaterCompat o)) (distributables o))
      end
  end.

(** The file-system calls of the assembly stage in world [w]: the
    artifacts are inspected only once the notes are resolved. *)
Definition assembly_calls (w : World) (o : CreateMetadataOptions)
  : list Event :=
  (notes_reads o ++
   match resolve_notes w o with
   | Ok _ => inspection_calls (distributables o)
   | Throw _ => []
   end)%list.

(** ** The persistence stage as a function of the world *)

(** The outcome of the persistence stage in world [w]. *)
Definition persisted (w : World) (o : CreateMetadataOptions) : outcome string :=
  match mkdirResult w (default "." (outputDir o)) with
  | Throw e => Throw e
  | Ok _ =>
      match writeResult w (manifest_file o) with
      | Throw e => Throw e
      | Ok _ => Ok (manifest_file o)
      end
  end.

(** The file-system calls of the persistence stage: the manifest is
    written only once the directory is there. *)
Definition persist_calls (w : World) (o : CreateMetadataOptions)
  (manifest : ReleaseManifest.t) : list Event :=
  Mkdir (default "." (outputDir o))
  :: match mkdirResult w (default "." (outputDir o)) with
     | Ok _ => [WriteFile (manifest_file o) (stringify manifest)]
     | Throw _ => []
     end.

(** ** Two runs compared *)

(** The same options with another [verbose]. *)
Definition with_verbose (o : CreateMetadataOptions) (v : option bool)
  : CreateMetadataOptions :=
  mkOptions (distributables o) (secretKeyPath o) (autoUpdaterCompat o)
    (releaseNotes o) (releaseNotesPath o) (outputDir o) (updaterVersion o)
    (appVersion o) (baseUrl o) (platform o) (password o) v.

(** A line of the [log] helper: a console line with its prefix. *)
Definition is_progress_line (e : Event) : bool :=
  match e with
  | ConsoleLog text => Str.starts_with false "[ToDesktop Release] " text
  | _ => false
  end.

(** The event with what was written to a signer's input blanked. *)
Definition redact (e : Event) : Event :=
  match e with
  | StdinWrite pid _ => StdinWrite pid EmptyString
  | _ => e
  end.

(** [related w f1 f2 m1 m2]: run in world [w] from the same count of
    children, [m1] and [m2] settle alike, start as many signers, and
    their traces agree once seen through [f1] and [f2]. *)
Definition related {A X} (w : World) (f1 f2 : Event -> list X)
  (m1 m2 : M A) : Prop :=
  forall n,
    match m1 w n, m2 w n with
    | (t1, n1, r1), (t2, n2, r2) =>
        flat_map f1 t1 = flat_map f2 t2 /\ n1 = n2 /\ r1 = r2
    end.

(** ** Sample inputs with a notes file *)

(** One artifact, the release notes to be read from a file. *)
Definition opts_notes_file : CreateMetadataOptions :=
  mkOptions ["dist/app-1.0.0.zip"] (Some "secret.key") None None
    (Some "NOTES.md") None None (Some "1.0.0") None None None None.

Definition manifest_notes_file : ReleaseManifest.t :=
  ReleaseManifest.mk "1.0.0" "1.0.0" 1 "2024-05-01T12:00:00.000Z"
    [ReleaseFile.mk "app-1.0.0.zip" "digest:dist/app-1.0.0.zip" 12345 None]
    (Some "notes from file") None None None None.

(** ** More sample inputs *)

(** Two artifacts named after their architecture, no version given. *)
Definition opts_two : CreateMetadataOptions :=
  mkOptions ["dist/App-2.1.0-arm64.dmg"; "dist/App-2.1.0-x64.dmg"]
    (Some "secret.key") None None None None None None None None None None.

Definition manifest_two : ReleaseManifest.t :=
  ReleaseManifest.mk "2.1.0-arm64" "1.0.0" 1 "2024-05-01T12:00:00.000Z"
    [ReleaseFile.mk "App-2.1.0-arm64.dmg" "digest:dist/App-2.1.0-arm64.dmg"
       12345 (Some "arm64");
     ReleaseFile.mk "App-2.1.0-x64.dmg" "digest:dist/App-2.1.0-x64.dmg"
       12345 (Some "x64")]
    None None None None None.

(** A world in which no file can be read. *)
Definition unreadable_world : World :=
  mkWorld "2024-05-01T12:00:00.000Z"
    (fun _ => Throw "ENOENT: no such file or directory")
    (fun _ => Throw "EACCES: permission denied")
    (fun _ => Ok 12345%N) (fun _ => Ok tt) (fun _ => Ok tt)
    (fun _ _ _ => mkChildRun (Some 0%Z) "")
    (fun _ _ => 0) (fun _ => false).

(** A world in which no artifact exists: opening it and stat'ing it both
    fail, [stat] first; and the later an artifact stands in the list,
    the earlier its inspection settles. *)
Definition missing_world : World :=
  mkWorld "2024-05-01T12:00:00.000Z"
    (fun _ => Ok "notes from file")
    (fun f => Throw ("ENOENT: no such file or directory, open '" ++ f ++ "'"))
    (fun f => Throw ("ENOENT: no such file or directory, stat '" ++ f ++ "'"))
    (fun _ => Ok tt) (fun _ => Ok tt)
    (fun _ _ _ => mkChildRun (Some 0%Z) "")
    (fun index _ => 10 - index) (fun _ => true).

(** A world in which directories can be made but no file written. *)
Definition readonly_world : World :=
  mkWorld "2024-05-01T12:00:00.000Z"
    (fun _ => Ok "notes from file") (fun f => Ok ("digest:" ++ f))
    (fun _ => Ok 12345%N) (fun _ => Ok tt)
    (fun _ => Throw "EROFS: read-only file system")
    (fun _ _ _ => mkChildRun (Some 0%Z) "")
    (fun _ _ => 0) (fun _ => false).

(* ===================================================================== *)
(** * Theorems *)
(* ===================================================================== *)

Local Open Scope monad_scope.

(** ** The heuristics on sample names *)

Example arch_upper : extractArchFromFilename "app-ARM64.zip" = Some "arm64".
Proof. reflexivity. Qed.
Example arch_x86_64 : extractArchFromFilename "app-x86_64.dmg" = Some "x64".
Proof. reflexivity. Qed.
Example arch_x86 : extractArchFromFilename "app-x86.dmg" = Some "ia32".
Proof. reflexivity. Qed.
Example version_v : extractVersionFromFilename "app-v1.2.3.dmg" = Some "1.2.3".
Proof. reflexivity. Qed.
Example version_beta :
  extractVersionFromFilename "app-1.2.3-beta.1.dmg" = Some "1.2.3-beta.1".
Proof. reflexivity. Qed.
Example version_none : extractVersionFromFilename "app.dmg" = None.
Proof. reflexivity. Qed.
Example version_no_extension : extractVersionFromFilename "app-1.2.3" = None.
Proof. reflexivity. Qed.
Example version_arch_suffix :
  extractVersionFromFilename "app-1.2.3-arm64.zip" = Some "1.2.3-arm64".
Proof. reflexivity. Qed.
Example version_first_wins :
  extractVersionFromFilename "lib-2.0.1_for_app-10.20.30.tar.gz"
  = Some "2.0.1".
Proof. reflexivity. Qed.
Example arch_first_group : extractArchFromFilename "x64-on-arm64.zip" = Some "arm64".
Proof. reflexivity. Qed.
Example basename_nested : Path.basename "dist/mac/app-1.0.0.zip" = "app-1.0.0.zip".
Proof. reflexivity. Qed.
Example basename_trailing : Path.basename "dist/out//" = "out".
Proof. reflexivity. Qed.
Example join_dot : Path.join "." "latest-mac.yml" = "latest-mac.yml".
Proof. reflexivity. Qed.
Example join_up : Path.join "out/../dist/" "latest-win.yml" = "dist/latest-win.yml".
Proof. reflexivity. Qed.
Example join_abs : Path.join "/tmp/rel" "latest-linux.yml" = "/tmp/rel/latest-linux.yml".
Proof. reflexivity. Qed.

(* ===================================================================== *)
(** * The architecture heuristic *)
(* ===================================================================== *)

Lemma run_lit {R} ci tok s g (k : Regex.cont R) :
  Regex.run ci (Regex.lit tok) s g k
  = if Str.starts_with ci tok s
    then k (substring (String.length tok) (String.length s - String.length tok) s) g
    else None.
Proof.
  revert s. induction tok as [|c tok IH]; intros s.
  - simpl. rewrite Nat.sub_0_r.
    assert (H : forall t, substring 0 (String.length t) t = t).
    { induction t as [|a t IHt]; simpl; [reflexivity | rewrite IHt; reflexivity]. }
    rewrite H. destruct s; reflexivity.
  - destruct tok as [|c' tok'].
    + simpl. destruct s as [|a s]; [reflexivity|].
      simpl. rewrite andb_true_r. rewrite Nat.sub_0_r.
      assert (H : forall t, substring 0 (String.length t) t = t).
      { induction t as [|b t IHt]; simpl; [reflexivity | rewrite IHt; reflexivity]. }
      rewrite H. reflexivity.
    + change (Regex.lit (String c (String c' tok')))
        with (Regex.Seq (Regex.Lit c) (Regex.lit (String c' tok'))).
      destruct s as [|a s]; [reflexivity|].
      cbn [Regex.run]. rewrite IH.
      cbn [Str.starts_with]. fold (Str.starts_with ci (String c' tok') s).
      destruct (Str.char_eq ci c a); reflexivity.
Qed.

Lemma is_match_orelse {A} (a b : option A) :
  is_match (Regex.orelse a b) = is_match a || is_match b.
Proof. destruct a, b; reflexivity. Qed.

(** One attempt of an alternation of literal tokens succeeds exactly
    when one of the tokens starts the input. *)
Lemma attempt_tokens ci tok toks i s :
  is_match (Regex.attempt ci (Regex.alts (Regex.lit tok) (map Regex.lit toks)) i s)
  = existsb (fun t => Str.starts_with ci t s) (tok :: toks).
Proof.
  unfold Regex.attempt. revert tok.
  induction toks as [|t toks IH]; intros tok.
  - simpl. rewrite run_lit, orb_false_r.
    destruct (Str.starts_with ci tok s); reflexivity.
  - cbn [map Regex.alts Regex.run]. rewrite is_match_orelse, IH, run_lit.
    cbn [existsb]. destruct (Str.starts_with ci tok s); reflexivity.
Qed.

Lemma existsb_orb {A} (f g : A -> bool) (l : list A) :
  existsb (fun x => f x || g x) l = existsb f l || existsb g l.
Proof.
  induction l as [|x l IH]; [reflexivity|]. simpl. rewrite IH.
  destruct (f x), (g x), (existsb f l); reflexivity.
Qed.

(** An alternation of literal tokens matches somewhere in the input
    exactly when one of the tokens occurs in it. *)
Lemma exec_tokens ci tok toks s :
  is_match (Regex.exec ci (Regex.alts (Regex.lit tok) (map Regex.lit toks)) s)
  = existsb (fun t => Str.includes ci t s) (tok :: toks).
Proof.
  unfold Regex.exec. generalize 0 as i. induction s as [|a s IH]; intros i.
  - cbn [Regex.exec_from]. rewrite is_match_orelse, attempt_tokens.
    rewrite orb_false_r. clear. induction (tok :: toks) as [|t l IHl];
      [reflexivity|].
    cbn [existsb Str.includes]. rewrite IHl, orb_false_r. reflexivity.
  - cbn [Regex.exec_from]. rewrite is_match_orelse, attempt_tokens, IH.
    rewrite <- existsb_orb. reflexivity.
Qed.

(** C7. For every file name, [extractArchFromFilename] returns the tag
    of the first of the token groups {arm64, aarch64} -> arm64,
    {x64, x86_64, amd64} -> x64, {x86, ia32, i386} -> ia32,
    {universal} -> universal one of whose tokens occurs in the name,
    upper and lower case being the same, and nothing when no token
    occurs. It is a total function: no input makes it fail. In
    particular "app-ARM64.zip" and "app-arm64.zip" give arm64 and
    "app.zip" gives nothing. *)
Theorem extractArchFromFilename_by_tokens (filename : string) :
  extractArchFromFilename filename = arch_by_tokens filename /\
  extractArchFromFilename "app-ARM64.zip" = Some "arm64" /\
  extractArchFromFilename "app-arm64.zip" = Some "arm64" /\
  extractArchFromFilename "app.zip" = None.
Proof.
  split; [|repeat split].
  unfold extractArchFromFilename, arch_by_tokens, arch_groups, first_group,
    mentions.
  change re_arm with (Regex.alts (Regex.lit "arm64") (map Regex.lit ["aarch64"])).
  change re_x64
    with (Regex.alts (Regex.lit "x64") (map Regex.lit ["x86_64"; "amd64"])).
  change re_x86
    with (Regex.alts (Regex.lit "x86") (map Regex.lit ["ia32"; "i386"])).
  change re_universal
    with (Regex.alts (Regex.lit "universal") (map Regex.lit [])).
  rewrite !exec_tokens. reflexivity.
Qed.

(* ===================================================================== *)
(** * The version heuristic *)
(* ===================================================================== *)

(** ** Strings *)

Lemma substring_all (s : string) : substring 0 (String.length s) s = s.
Proof. induction s as [|c s IH]; simpl; [reflexivity | rewrite IH; reflexivity]. Qed.

Lemma substring_none (n : nat) (s : string) : substring n 0 s = EmptyString.
Proof.
  revert n. induction s as [|c s IH]; intros [|n]; simpl; auto.
Qed.

Lemma append_assoc (a b c : string) : (a ++ b) ++ c = a ++ b ++ c.
Proof. induction a as [|x a IH]; simpl; [reflexivity | rewrite IH; reflexivity]. Qed.

Lemma length_append (a b : string) :
  String.length (a ++ b) = String.length a + String.length b.
Proof. induction a as [|x a IH]; simpl; [reflexivity | rewrite IH; reflexivity]. Qed.

(** The text consumed from [a ++ b] when [b] is left. *)
Lemma substring_consumed (a b : string) :
  substring 0 (String.length (a ++ b) - String.length b) (a ++ b) = a.
Proof.
  rewrite length_append. replace (_ + _ - _) with (String.length a) by lia.
  induction a as [|x a IH]; simpl; [apply substring_none|].
  rewrite IH. reflexivity.
Qed.

Lemma span_append p s a b : Str.span p s = (a, b) -> s = a ++ b.
Proof.
  revert a b. induction s as [|c s IH]; intros a b; simpl.
  - intros E. inversion E. reflexivity.
  - destruct (p c).
    + destruct (Str.span p s) as [a' b'] eqn:Es. intros E. inversion E; subst.
      simpl. rewrite (IH a' b eq_refl). reflexivity.
    + intros E. inversion E. reflexivity.
Qed.

(** ** The greedy quantifier *)

Section More.
Context {R : Type}.
Variable p : ascii -> bool.
Variable k : string -> option R.

Lemma more_none s : fst (Str.span p s) = EmptyString -> Regex.more p k s = None.
Proof.
  destruct s as [|c s]; simpl; [reflexivity|].
  destruct (p c); [|reflexivity]. destruct (Str.span p s). discriminate.
Qed.

(** When the continuation accepts what follows the longest run, the
    longest run is the one taken. *)
Lemma more_longest s a b x :
  Str.span p s = (a, b) -> a <> EmptyString -> k b = Some x ->
  Regex.more p k s = Some x.
Proof.
  revert a. induction s as [|c s IH]; intros a; simpl.
  - intros E. inversion E. congruence.
  - destruct (p c); [|intros E; inversion E; congruence].
    destruct (Str.span p s) as [a' b'] eqn:Es. intros E _ Hk.
    inversion E; subst. destruct a' as [|c' a'].
    + rewrite more_none by (rewrite Es; reflexivity).
      apply span_append in Es. simpl in Es. subst. exact Hk.
    + rewrite (IH _ eq_refl) by (discriminate || exact Hk). reflexivity.
Qed.

(** When the continuation rejects every input that starts with a
    character of the class, giving characters back cannot help. *)
Lemma more_no_backtrack s :
  (forall c t, p c = true -> k (String c t) = None) ->
  Regex.more p k s
  = match Str.span p s with
    | (EmptyString, _) => None
    | (_, rest) => k rest
    end.
Proof.
  intros Hk. induction s as [|c s IH]; simpl; [reflexivity|].
  destruct (p c) eqn:Hc; [|reflexivity].
  rewrite IH. destruct (Str.span p s) as [[|c' a'] b] eqn:Es.
  - apply span_append in Es. simpl in Es. subst. reflexivity.
  - destruct (k b) as [x|] eqn:Hb; [reflexivity|].
    simpl. destruct s as [|d s]; simpl in Es; [discriminate|].
    destruct (p d) eqn:Hd; [|discriminate]. apply Hk, Hd.
Qed.

End More.

(** ** The version patterns *)

Lemma digit_not_dot (c : ascii) :
  Str.is_digit c = true -> Str.char_eq false "." c = false.
Proof.
  destruct c as [[] [] [] [] [] [] [] []]; try reflexivity; discriminate.
Qed.

Lemma more_total {R} p (k : string -> option R) s :
  (forall t, k t <> None) ->
  Regex.more p k s
  = match Str.span p s with
    | (EmptyString, _) => None
    | (_, rest) => k rest
    end.
Proof.
  intros Hk. destruct (Str.span p s) as [[|c a] b] eqn:Es.
  - apply more_none. rewrite Es. reflexivity.
  - destruct (k b) as [x|] eqn:Hb; [|exfalso; exact (Hk b Hb)].
    eapply more_longest; [exact Es | discriminate | exact Hb].
Qed.

(** [\d+\.\d+\.\d+] followed by something that cannot fail: the three
    runs of digits are the longest ones. *)
Lemma run_core {R} s g (k : Regex.cont R) :
  (forall t, k t g <> None) ->
  Regex.run false re_core s g k
  = match core_at s with
    | Some (_, rest) => k rest g
    | None => None
    end.
Proof.
  intros Hk. unfold re_core, core_at, digits, after. cbn [Regex.run].
  rewrite more_no_backtrack
    by (intros c t Hc; rewrite (digit_not_dot c Hc); reflexivity).
  destruct (Str.span Str.is_digit s) as [[|c1 major] r1]; [reflexivity|].
  destruct r1 as [|d1 r2]; [reflexivity|].
  change (Str.char_eq false "." d1) with ("." =? d1)%char.
  destruct ("." =? d1)%char; [|reflexivity].
  rewrite more_no_backtrack
    by (intros c t Hc; rewrite (digit_not_dot c Hc); reflexivity).
  destruct (Str.span Str.is_digit r2) as [[|c2 minor] r3]; [reflexivity|].
  destruct r3 as [|d2 r4]; [reflexivity|].
  change (Str.char_eq false "." d2) with ("." =? d2)%char.
  destruct ("." =? d2)%char; [|reflexivity].
  rewrite more_total by exact Hk.
  destruct (Str.span Str.is_digit r4) as [[|c3 patch] r5]; reflexivity.
Qed.

(** What [core_at] returns splits its input. *)
Lemma core_at_append s core rest : core_at s = Some (core, rest) -> s = core ++ rest.
Proof.
  unfold core_at, digits, after.
  destruct (Str.span Str.is_digit s) as [[|c1 major] r1] eqn:E1; [discriminate|].
  destruct r1 as [|d1 r2]; [discriminate|].
  destruct ("." =? d1)%char eqn:D1; [|discriminate].
  destruct (Str.span Str.is_digit r2) as [[|c2 minor] r3] eqn:E2; [discriminate|].
  destruct r3 as [|d2 r4]; [discriminate|].
  destruct ("." =? d2)%char eqn:D2; [|discriminate].
  destruct (Str.span Str.is_digit r4) as [[|c3 patch] r5] eqn:E3; [discriminate|].
  intros E. inversion E; subst; clear E.
  apply Ascii.eqb_eq in D1, D2. subst.
  apply span_append in E1, E2, E3. subst.
  simpl. rewrite !append_assoc. simpl. rewrite !append_assoc. reflexivity.
Qed.

(** The optional prerelease suffix, followed by something that cannot
    fail. *)
Lemma run_prerelease {R} s g (k : Regex.cont R) :
  (forall t, k t g <> None) ->
  Regex.run false
    (Regex.Opt (Regex.Seq (Regex.Lit "-") (Regex.Plus Str.is_prerelease_char)))
    s g k
  = match prerelease_at s with
    | Some (_, rest) => k rest g
    | None => k s g
    end.
Proof.
  intros Hk. unfold prerelease_at, after. cbn [Regex.run].
  destruct s as [|c s]; [reflexivity|].
  change (Str.char_eq false "-" c) with ("-" =? c)%char.
  destruct ("-" =? c)%char eqn:Hc; [|reflexivity].
  rewrite more_total by exact Hk.
  destruct (Str.span Str.is_prerelease_char s) as [[|c1 pre] rest] eqn:Es;
    [reflexivity|].
  destruct (k rest g) as [x|] eqn:Hr; [reflexivity|].
  exfalso; exact (Hk rest Hr).
Qed.

Lemma prerelease_at_append s suffix rest :
  prerelease_at s = Some (suffix, rest) -> s = suffix ++ rest.
Proof.
  unfold prerelease_at, after. destruct s as [|c s]; [discriminate|].
  destruct ("-" =? c)%char eqn:Hc; [|discriminate].
  destruct (Str.span Str.is_prerelease_char s) as [[|c1 pre] r] eqn:Es;
    [discriminate|].
  intros E. inversion E; subst; clear E.
  apply Ascii.eqb_eq in Hc. subst. apply span_append in Es. subst.
  reflexivity.
Qed.

Lemma run_Seq {R} ci r1 r2 s g (k : Regex.cont R) :
  Regex.run ci (Regex.Seq r1 r2) s g k
  = Regex.run ci r1 s g (fun s' g' => Regex.run ci r2 s' g' k).
Proof. reflexivity. Qed.

Lemma run_Group {R} ci r s g (k : Regex.cont R) :
  Regex.run ci (Regex.Group r) s g k
  = Regex.run ci r s g
      (fun s' _ =>
         k s' (Some (substring 0 (String.length s - String.length s') s))).
Proof. reflexivity. Qed.

(** The group [(\d+\.\d+\.\d+(?:-[a-zA-Z0-9.]+)?)] captures the
    version at the start of the input. *)
Lemma run_group_full {R} s g (k : Regex.cont R) :
  (forall t g', k t g' <> None) ->
  Regex.run false
    (Regex.Group
       (Regex.Seq re_core
          (Regex.Opt
             (Regex.Seq (Regex.Lit "-")
                (Regex.Plus Str.is_prerelease_char))))) s g k
  = match core_at s with
    | Some (core, rest) =>
        match prerelease_at rest with
        | Some (suffix, rest') => k rest' (Some (core ++ suffix))
        | None => k rest (Some core)
        end
    | None => None
    end.
Proof.
  intros Hk. rewrite run_Group, run_Seq, run_core.
  2:{ intros t. rewrite run_prerelease by (intros; apply Hk).
      destruct (prerelease_at t) as [[? ?]|]; apply Hk. }
  destruct (core_at s) as [[core rest]|] eqn:Ec; [|reflexivity].
  apply core_at_append in Ec. subst s.
  rewrite run_prerelease by (intros; apply Hk).
  destruct (prerelease_at rest) as [[suffix rest']|] eqn:Ep.
  - apply prerelease_at_append in Ep. subst rest.
    rewrite <- append_assoc, substring_consumed. reflexivity.
  - rewrite substring_consumed. reflexivity.
Qed.

(** The group [(\d+\.\d+\.\d+)] captures the bare version. *)
Lemma run_group_simple {R} s g (k : Regex.cont R) :
  (forall t g', k t g' <> None) ->
  Regex.run false (Regex.Group re_core) s g k
  = match core_at s with
    | Some (core, rest) => k rest (Some core)
    | None => None
    end.
Proof.
  intros Hk. rewrite run_Group, run_core by (intros; apply Hk).
  destruct (core_at s) as [[core rest]|] eqn:Ec; [|reflexivity].
  apply core_at_append in Ec. subst s.
  rewrite substring_consumed. reflexivity.
Qed.

Lemma run_Opt_Lit {R} ci c s g (k : Regex.cont R) :
  Regex.run ci (Regex.Opt (Regex.Lit c)) s g k
  = Regex.orelse
      match s with
      | String c' s' => if Str.char_eq ci c c' then k s' g else None
      | EmptyString => None
      end
      (k s g).
Proof. reflexivity. Qed.

Lemma core_at_v t : core_at (String "v" t) = None.
Proof. reflexivity. Qed.

Lemma option_map_orelse {A B} (f : A -> B) (a b : option A) :
  option_map f (Regex.orelse a b)
  = Regex.orelse (option_map f a) (option_map f b).
Proof. destruct a; reflexivity. Qed.


(** One attempt of the full pattern: an optional [v] is passed over and
    the version that follows is captured. *)
Lemma attempt_full i s :
  option_map capture (Regex.attempt false re_version_full i s)
  = match s with
    | String c t => if ("v" =? c)%char then semver_at t else semver_at s
    | EmptyString => None
    end.
Proof.
  unfold Regex.attempt, re_version_full.
  rewrite run_Seq, run_Opt_Lit. cbv beta.
  rewrite run_group_full by (intros; discriminate).
  destruct s as [|c t]; [reflexivity|].
  change (Str.char_eq false "v" c) with ("v" =? c)%char.
  destruct ("v" =? c)%char eqn:Hc.
  - apply Ascii.eqb_eq in Hc. subst c. rewrite core_at_v.
    rewrite run_group_full by (intros; discriminate).
    unfold semver_at. destruct (core_at t) as [[core rest]|]; [|reflexivity].
    destruct (prerelease_at rest) as [[suffix rest']|]; reflexivity.
  - unfold semver_at. simpl Regex.orelse.
    destruct (core_at (String c t)) as [[core rest]|]; [|reflexivity].
    destruct (prerelease_at rest) as [[suffix rest']|]; reflexivity.
Qed.

(** One attempt of the bare pattern. *)
Lemma attempt_simple i s :
  option_map capture (Regex.attempt false re_version_simple i s)
  = match s with
    | String c t => if ("v" =? c)%char then bare_at t else bare_at s
    | EmptyString => None
    end.
Proof.
  unfold Regex.attempt, re_version_simple.
  rewrite run_Seq, run_Opt_Lit. cbv beta.
  rewrite run_group_simple by (intros; discriminate).
  destruct s as [|c t]; [reflexivity|].
  change (Str.char_eq false "v" c) with ("v" =? c)%char.
  destruct ("v" =? c)%char eqn:Hc.
  - apply Ascii.eqb_eq in Hc. subst c. rewrite core_at_v.
    rewrite run_group_simple by (intros; discriminate).
    unfold bare_at. destruct (core_at t) as [[core rest]|]; reflexivity.
  - unfold bare_at. simpl Regex.orelse.
    destruct (core_at (String c t)) as [[core rest]|]; reflexivity.
Qed.

Lemma semver_at_v t : semver_at (String "v" t) = None.
Proof. reflexivity. Qed.

Lemma find_semver_unfold s :
  find_semver s
  = Regex.orelse (semver_at s)
      match s with
      | EmptyString => None
      | String _ s' => find_semver s'
      end.
Proof. destruct s; reflexivity. Qed.

(** The full pattern finds the first version in the input. *)
Lemma exec_full s : forall i,
  option_map capture (Regex.exec_from false re_version_full i s)
  = find_semver s.
Proof.
  induction s as [|c t IH]; intros i.
  - reflexivity.
  - cbn [Regex.exec_from]. rewrite option_map_orelse, attempt_full, IH.
    rewrite (find_semver_unfold (String c t)).
    destruct ("v" =? c)%char eqn:Hc; [|reflexivity].
    apply Ascii.eqb_eq in Hc. subst c. rewrite semver_at_v.
    rewrite (find_semver_unfold t).
    destruct (semver_at t); reflexivity.
Qed.

Lemma is_match_map {A B} (f : A -> B) (a : option A) :
  is_match (option_map f a) = is_match a.
Proof. destruct a; reflexivity. Qed.

Lemma semver_iff_bare s : is_match (semver_at s) = is_match (bare_at s).
Proof.
  unfold semver_at, bare_at. destruct (core_at s) as [[core rest]|];
    [|reflexivity].
  destruct (prerelease_at rest) as [[? ?]|]; reflexivity.
Qed.

(** The bare pattern matches wherever the full pattern does, and nowhere
    else: the fallback of the source never finds anything new. *)
Lemma exec_simple_full s : forall i,
  is_match (Regex.exec_from false re_version_simple i s)
  = is_match (Regex.exec_from false re_version_full i s).
Proof.
  induction s as [|c t IH]; intros i.
  - reflexivity.
  - cbn [Regex.exec_from]. rewrite !is_match_orelse, IH. f_equal.
    rewrite <- (is_match_map capture
                  (Regex.attempt false re_version_simple i (String c t))).
    rewrite <- (is_match_map capture
                  (Regex.attempt false re_version_full i (String c t))).
    rewrite attempt_simple, attempt_full.
    destruct ("v" =? c)%char; symmetry; apply semver_iff_bare.
Qed.

(** ** The extension *)

Lemma span_all p s :
  match Str.span p s with
  | (a, EmptyString) => Str.all p s = true /\ a = s
  | (_, String _ _) => Str.all p s = false
  end.
Proof.
  induction s as [|c s IH]; simpl; [auto|].
  destruct (p c); [|reflexivity].
  destruct (Str.span p s) as [a [|d rest]]; simpl.
  - destruct IH as [-> ->]. auto.
  - exact IH.
Qed.

Lemma attempt_extension i t :
  Regex.attempt false re_extension i t
  = if is_extension t then Some (Regex.mkResult i t None) else None.
Proof.
  unfold Regex.attempt, re_extension, is_extension.
  cbn [Regex.run].
  destruct t as [|c t]; [reflexivity|].
  change (Str.char_eq false "." c) with ("." =? c)%char.
  rewrite Ascii.eqb_sym.
  destruct (c =? ".")%char; [|reflexivity]. simpl andb.
  rewrite more_no_backtrack by reflexivity.
  pose proof (span_all Str.not_dot t) as H.
  destruct (Str.span Str.not_dot t) as [[|a1 a] [|d rest]].
  - destruct H as [_ <-]. reflexivity.
  - rewrite H, andb_false_r. reflexivity.
  - destruct H as [-> <-]. cbn [Str.truthy String.length].
    rewrite Nat.sub_0_r.
    change (S (S (String.length a))) with (String.length (String c (String a1 a))).
    rewrite substring_all. reflexivity.
  - rewrite H, andb_false_r. reflexivity.
Qed.

Lemma substring_prefix (a b : string) :
  substring 0 (String.length a) (a ++ b) = a.
Proof.
  induction a as [|x a IH]; simpl; [apply substring_none|].
  rewrite IH. reflexivity.
Qed.

Lemma strip_extension_ext s : is_extension s = true -> strip_extension s = EmptyString.
Proof. destruct s; simpl; [reflexivity|]. intros ->. reflexivity. Qed.

Lemma strip_extension_step c s :
  is_extension (String c s) = false ->
  strip_extension (String c s) = String c (strip_extension s).
Proof. simpl. intros ->. reflexivity. Qed.

(** Removing the first match of [/\.[^.]+$/] strips the extension. *)
Lemma remove_extension_from t : forall pre,
  match Regex.exec_from false re_extension (String.length pre) t with
  | Some m =>
      substring 0 (Regex.index m) (pre ++ t) ++
      substring (Regex.index m + String.length (Regex.matched m))
        (String.length (pre ++ t)
         - (Regex.index m + String.length (Regex.matched m))) (pre ++ t)
  | None => pre ++ t
  end = pre ++ strip_extension t.
Proof.
  induction t as [|c t IH]; intros pre.
  - reflexivity.
  - cbn [Regex.exec_from]. rewrite attempt_extension.
    destruct (is_extension (String c t)) eqn:He.
    + cbn [Regex.orelse Regex.index Regex.matched].
      rewrite substring_prefix, strip_extension_ext by exact He.
      rewrite length_append, Nat.sub_diag, substring_none. reflexivity.
    + cbn [Regex.orelse]. rewrite strip_extension_step by exact He.
      specialize (IH (pre ++ String c EmptyString)).
      rewrite length_append in IH. simpl String.length in IH.
      rewrite Nat.add_1_r in IH.
      rewrite !append_assoc in IH. exact IH.
Qed.

Lemma remove_first_extension s :
  Regex.remove_first re_extension s = strip_extension s.
Proof. exact (remove_extension_from s EmptyString). Qed.

(** C6. For every file name, [extractVersionFromFilename] strips the
    extension and returns the first semantic version
    <major>.<minor>.<patch> of what is left, reading from the left, a
    leading [v] being passed over and a [-<prerelease>] suffix of
    alphanumerics and dots being part of the result whenever there is
    one; it returns nothing exactly when even the bare pattern matches
    nowhere, so the fallback of the source adds nothing. In particular
    "app-v1.2.3.dmg" gives "1.2.3", "app-1.2.3-beta.1.dmg" gives
    "1.2.3-beta.1" and "app.dmg" gives nothing. *)
Theorem extractVersionFromFilename_by_scan (filename : string) :
  extractVersionFromFilename filename = version_by_scan filename /\
  (extractVersionFromFilename filename = None <->
   Regex.exec false re_version_simple (strip_extension filename) = None) /\
  extractVersionFromFilename "app-v1.2.3.dmg" = Some "1.2.3" /\
  extractVersionFromFilename "app-1.2.3-beta.1.dmg" = Some "1.2.3-beta.1" /\
  extractVersionFromFilename "app.dmg" = None.
Proof.
  assert (H : extractVersionFromFilename filename
              = option_map capture
                  (Regex.exec false re_version_full (strip_extension filename))).
  { unfold extractVersionFromFilename. rewrite remove_first_extension.
    pose proof (exec_simple_full (strip_extension filename) 0) as Hs.
    unfold Regex.exec.
    destruct (Regex.exec_from false re_version_full 0 _); [reflexivity|].
    destruct (Regex.exec_from false re_version_simple 0 _);
      [discriminate Hs | reflexivity]. }
  split; [|split; [|repeat split]].
  - rewrite H. apply exec_full.
  - rewrite H. pose proof (exec_simple_full (strip_extension filename) 0) as Hs.
    unfold Regex.exec.
    destruct (Regex.exec_from false re_version_full 0 _),
      (Regex.exec_from false re_version_simple 0 _);
      try discriminate Hs; simpl; split; intros; congruence.
Qed.

(* ===================================================================== *)
(** * Rules of the program logic *)
(* ===================================================================== *)

Lemma targets_app (a b : list Event) :
  targets (a ++ b) = (targets a ++ targets b)%list.
Proof. unfold targets. apply flat_map_app. Qed.

Section Rules.
Variable w : World.
Variable P : Event -> Prop.

Lemma sat_ret {A} (Q : A -> Prop) (a : A) : Q a -> sat w P Q (ret a).
Proof.
  intros Ha n tr n' r E. inversion E; subst. simpl.
  split; [constructor|]. split; [lia|].
  intros a' Ea. inversion Ea; subst. exact Ha.
Qed.

Lemma sat_throw {A} (Q : A -> Prop) (e : string) : sat w P Q (throw e).
Proof.
  intros n tr n' r E. inversion E; subst. simpl.
  split; [constructor|]. split; [lia|].
  intros a Ea. discriminate Ea.
Qed.

Lemma sat_bind {A B} (Q1 : A -> Prop) (Q2 : B -> Prop) (m : M A)
  (f : A -> M B) :
  sat w P Q1 m -> (forall a, Q1 a -> sat w P Q2 (f a)) ->
  sat w P Q2 (bind m f).
Proof.
  intros Hm Hf n tr n' r E. unfold bind in E.
  destruct (m w n) as [[tr1 n1] [a|e]] eqn:Em.
  - destruct (f a w n1) as [[tr2 n2] r2] eqn:Ef. inversion E; subst.
    destruct (Hm _ _ _ _ Em) as (F1 & N1 & Qa).
    destruct (Hf a (Qa a eq_refl) _ _ _ _ Ef) as (F2 & N2 & Qb).
    split; [apply Forall_app; split; assumption|].
    split; [rewrite targets_app, length_app; lia | exact Qb].
  - inversion E; subst. destruct (Hm _ _ _ _ Em) as (F1 & N1 & _).
    split; [exact F1|]. split; [exact N1 | intros b Eb; discriminate Eb].
Qed.

Lemma sat_try_catch {A} (Q : A -> Prop) (m : M A) (h : string -> M A) :
  sat w P Q m -> (forall e, sat w P Q (h e)) -> sat w P Q (try_catch m h).
Proof.
  intros Hm Hh n tr n' r E. unfold try_catch in E.
  destruct (m w n) as [[tr1 n1] [a|e]] eqn:Em.
  - inversion E; subst. exact (Hm _ _ _ _ Em).
  - destruct (h e w n1) as [[tr2 n2] r2] eqn:Eh. inversion E; subst.
    destruct (Hm _ _ _ _ Em) as (F1 & N1 & _).
    destruct (Hh e _ _ _ _ Eh) as (F2 & N2 & Qa).
    split; [apply Forall_app; split; assumption|].
    split; [rewrite targets_app, length_app; lia | exact Qa].
Qed.

Lemma sat_weaken {A} (Q Q' : A -> Prop) (m : M A) :
  sat w P Q m -> (forall a, Q a -> Q' a) -> sat w P Q' m.
Proof.
  intros Hm HQ n tr n' r E. destruct (Hm _ _ _ _ E) as (F & N & Qa).
  split; [exact F|]. split; [exact N | intros a Ea; apply HQ, Qa, Ea].
Qed.

Lemma sat_emit (Q : unit -> Prop) (e : Event) :
  P e -> targets [e] = [] -> Q tt -> sat w P Q (emit e).
Proof.
  intros He Ht Hq n tr n' r E. inversion E; subst.
  split; [repeat constructor; exact He|].
  split; [rewrite Ht; simpl; lia|]. intros [] _. exact Hq.
Qed.

Lemma sat_perform {A} (Q : A -> Prop) (e : Event) (res : World -> outcome A) :
  P e -> targets [e] = [] -> (forall a, res w = Ok a -> Q a) ->
  sat w P Q (perform e res).
Proof.
  intros He Ht Hq n tr n' r E. inversion E; subst.
  split; [repeat constructor; exact He|].
  split; [rewrite Ht; simpl; lia | exact Hq].
Qed.

Lemma sat_settle {A} (Q : A -> Prop) (res : World -> outcome A) :
  (forall a, res w = Ok a -> Q a) -> sat w P Q (settle res).
Proof.
  intros Hq n tr n' r E. inversion E; subst. simpl.
  split; [constructor|]. split; [lia | exact Hq].
Qed.

Lemma sat_when (Q : unit -> Prop) (b : bool) (m : M unit) :
  Q tt -> sat w P Q m -> sat w P Q (when b m).
Proof.
  intros Hq Hm. destruct b; [exact Hm | apply sat_ret, Hq].
Qed.

Lemma sat_for_each {A} (body : nat -> A -> M unit) (xs : list A) :
  (forall i x, In x xs -> sat w P (fun _ => True) (body i x)) ->
  forall i, sat w P (fun _ => True) (for_each body i xs).
Proof.
  induction xs as [|x xs IH]; intros Hb i; simpl.
  - apply sat_ret; exact I.
  - apply sat_bind with (Q1 := fun _ => True).
    + apply Hb; left; reflexivity.
    + intros _ _. apply IH. intros j y Hy. apply Hb; right; exact Hy.
Qed.

Lemma sat_map_each {A B} (R : A -> B -> Prop) (body : nat -> A -> M B)
  (xs : list A) :
  (forall i x, In x xs -> sat w P (R x) (body i x)) ->
  forall i, sat w P (Forall2 R xs) (map_each body i xs).
Proof.
  induction xs as [|x xs IH]; intros Hb i; simpl.
  - apply sat_ret; constructor.
  - apply sat_bind with (Q1 := R x).
    + apply Hb; left; reflexivity.
    + intros y Hy. apply sat_bind with (Q1 := Forall2 R xs).
      * apply IH. intros j z Hz. apply Hb; right; exact Hz.
      * intros ys Hys. apply sat_ret. constructor; assumption.
Qed.

(** A console message satisfies [P]: so does logging, verbose or not. *)
Lemma sat_logger (o : CreateMetadataOptions) (message : string) :
  (forall text, P (ConsoleLog text)) ->
  sat w P (fun _ => True) (logger o message).
Proof.
  intros HP. unfold logger. apply sat_when; [exact I|].
  apply sat_emit; [apply HP | reflexivity | exact I].
Qed.

End Rules.

(* ===================================================================== *)
(** * Validation                                                         *)
(* ===================================================================== *)


(** C4. When the list of distributables is empty, or the secret-key
    path is absent or empty, [createReleaseMetadata] rejects with the
    validation message of the first check that fails, having done
    nothing but (in verbose mode) log its first line: no file is read or
    hashed, no directory is created, no file is written and no signer is
    started. *)
Theorem validation_precedes_file_access (o : CreateMetadataOptions) (w : World) :
  distributables o = [] \/ Str.truthy_opt (secretKeyPath o) = false ->
  run_pipeline o w = (start_log o, Throw (validation_error o)) /\
  filter is_fs_event (fst (run_pipeline o w)) = [] /\
  filter is_child_event (fst (run_pipeline o w)) = [].
Proof.
  intros H.
  assert (E : run_pipeline o w = (start_log o, Throw (validation_error o))).
  { unfold run_pipeline, createReleaseMetadata, start_log, validation_error.
    destruct o as [ds key compat rn rnp od uv av bu pl pw vb]; simpl in *.
    destruct H as [H | H].
    - subst ds. destruct vb as [[|]|]; reflexivity.
    - destruct ds as [|d ds]; [destruct vb as [[|]|]; reflexivity|].
      unfold bind, when. simpl. rewrite H. simpl.
      destruct vb as [[|]|]; reflexivity. }
  rewrite E. unfold start_log.
  split; [reflexivity|]. destruct (default false (verbose o)); split; reflexivity.
Qed.


Lemma validation_precedes_file_access_witness :
  run_pipeline opts_empty calm_world
    = ([], Throw "No distributable files provided") /\
  filter is_fs_event (fst (run_pipeline opts_empty calm_world)) = [] /\
  filter is_child_event (fst (run_pipeline opts_empty calm_world)) = [].
Proof.
  apply (validation_precedes_file_access opts_empty calm_world).
  left; reflexivity.
Defined.

(* ===================================================================== *)
(** * signFile                                                            *)
(* ===================================================================== *)

(** C3, amended. [signFile] starts the signer exactly once. With a
    non-empty password the signer's standard input is a pipe (its output
    and error streams are inherited), the password and a newline are
    written to it and it is closed before the exit is awaited; with an
    empty or absent password all three streams are inherited and nothing
    is written. Under either strategy exit status zero resolves to
    success, and any other status, or a termination without status,
    rejects with a detail that carries the exit status only: what the
    signer prints reaches the parent's error stream through the
    inherited descriptor and is no part of the detail. *)
Theorem signFile_protocol (filePath secretKeyPath : string)
  (password : option string) (w : World) (n : nat) :
  let child :=
    minisign w n (sign_args filePath secretKeyPath) (signer_input password) in
  let printed :=
    if Str.truthy (diagnostics child)
    then [ChildStderr n (diagnostics child)] else [] in
  exists tr,
    signFile filePath secretKeyPath password w n
      = (tr, S n,
         if is_zero (exitCode child) then Ok tt
         else Throw ("Failed to sign file with minisign: "
                     ++ "minisign process exited with code "
                     ++ code_text (if Str.truthy_opt password
                                   then "null" else "unknown")
                          (exitCode child))) /\
    filter is_child_event tr
      = match password with
        | Some (String c secret) =>
            (Spawn n "minisign" ["-S"; "-s"; secretKeyPath; "-m"; filePath]
               pipe inherit inherit
             :: StdinWrite n (String c secret ++ Str.newline)
             :: StdinEnd n
             :: printed ++ [Close n (exitCode child)])%list
        | _ =>
            (Spawn n "minisign" ["-S"; "-s"; secretKeyPath; "-m"; filePath]
               inherit inherit inherit
             :: printed ++ [Close n (exitCode child)])%list
        end.
Proof.
  unfold signFile, signer_input.
  unfold try_catch, bind, on_close, spawn, stdin_write, stdin_end,
    console_log, console_error, emit, when.
  destruct password as [[|c secret]|]; simpl;
    destruct (minisign w n _ _) as [code diag]; simpl;
    destruct (is_zero code); simpl; destruct (Str.truthy diag); simpl;
    eexists; split; reflexivity.
Qed.

(** * Monad laws, pointwise *)

Lemma bind_assoc {A B C} (m : M A) (f : A -> M B) (g : B -> M C) w n :
  bind (bind m f) g w n = bind m (fun x => bind (f x) g) w n.
Proof.
  unfold bind. destruct (m w n) as [[tr1 n1] [a|e]]; [|reflexivity].
  destruct (f a w n1) as [[tr2 n2] [b|e]]; [|reflexivity].
  destruct (g b w n2) as [[tr3 n3] r]. rewrite app_assoc. reflexivity.
Qed.

Lemma bind_ext {A B} (m : M A) (f g : A -> M B) w n :
  (forall a n', f a w n' = g a w n') -> bind m f w n = bind m g w n.
Proof.
  intros H. unfold bind. destruct (m w n) as [[tr1 n1] [a|e]]; [|reflexivity].
  rewrite H. reflexivity.
Qed.

Lemma bind_ret_l {A B} (a : A) (f : A -> M B) w n :
  bind (ret a) f w n = f a w n.
Proof.
  unfold bind, ret. destruct (f a w n) as [[tr n'] r]. reflexivity.
Qed.

Ltac reassoc :=
  repeat first
    [ rewrite bind_assoc; apply bind_ext; intros
    | rewrite bind_ret_l ].

Lemma createReleaseMetadata_staged (o : CreateMetadataOptions) w n :
  createReleaseMetadata o w n = staged o w n.
Proof.
  unfold createReleaseMetadata, staged.
  change (fun message : string =>
            when (default false (verbose o))
              (console_log ("[ToDesktop Release] " ++ message)))
    with (logger o).
  apply bind_ext; intros _ n1.
  destruct (List.length (distributables o) =? 0)%nat; [reflexivity|].
  destruct (negb (Str.truthy_opt (secretKeyPath o))); [reflexivity|].
  unfold assemble, persist, sign_all, sign_one, manifest_file.
  reassoc.
  reflexivity.
Qed.

(* ===================================================================== *)
(** * signFile *)
(* ===================================================================== *)

(** One call of [signFile], in full. *)
Lemma signFile_run (filePath secretKeyPath : string) (password : option string)
  (w : World) (n : nat) :
  signFile filePath secretKeyPath password w n
  = (sign_trace n filePath secretKeyPath password
       (signer_run w n filePath secretKeyPath password),
     S n,
     sign_outcome password (signer_run w n filePath secretKeyPath password)).
Proof.
  unfold signFile, sign_trace, sign_outcome, signer_run, signer_input,
    exit_detail, child_protocol, strategy.
  unfold try_catch, bind, on_close, spawn, stdin_write, stdin_end,
    console_log, console_error, emit, when. simpl.
  destruct (Str.truthy_opt password) eqn:Ep; simpl;
    destruct (minisign w n _ _) as [code diag]; simpl;
    destruct (is_zero code); simpl; destruct (Str.truthy diag); reflexivity.
Qed.

Lemma is_zero_true (code : option Z) : is_zero code = true -> code = Some 0%Z.
Proof.
  destruct code as [z|]; simpl; [|discriminate].
  intros H. apply Z.eqb_eq in H. subst. reflexivity.
Qed.

Lemma milestones_app (a b : list Event) :
  milestones (a ++ b) = (milestones a ++ milestones b)%list.
Proof. apply filter_app. Qed.

Lemma milestones_sign_trace n f k pw r :
  milestones (sign_trace n f k pw r)
  = [Spawn n "minisign" (sign_args f k) (strategy pw) inherit inherit;
     Close n (exitCode r)].
Proof.
  unfold sign_trace, child_protocol, milestones. simpl.
  destruct (Str.truthy_opt pw), (Str.truthy (diagnostics r)),
    (is_zero (exitCode r)); reflexivity.
Qed.

Lemma targets_sign_trace n f k pw r :
  targets (sign_trace n f k pw r) = [f].
Proof.
  unfold sign_trace, child_protocol, targets. simpl.
  destruct (Str.truthy_opt pw), (Str.truthy (diagnostics r)),
    (is_zero (exitCode r)); reflexivity.
Qed.

Lemma Forall_child_protocol (P : Event -> Prop) n f k pw r :
  (forall e, is_child_event e = true -> P e) ->
  Forall P (child_protocol n f k pw r).
Proof.
  intros H. unfold child_protocol.
  destruct (Str.truthy_opt pw), (Str.truthy (diagnostics r));
    repeat constructor; apply H; reflexivity.
Qed.

(** The log lines of a run are no milestones and start no signer. *)
Lemma logger_run o message w n :
  exists tr, logger o message w n = (tr, n, Ok tt) /\
             milestones tr = [] /\ targets tr = [] /\
             Forall (fun e => is_console_event e = true) tr.
Proof.
  unfold logger, when, console_log, emit, ret.
  destruct (default false (verbose o)); eexists; repeat split; repeat constructor.
Qed.

(** ** The order of completion *)

Lemma insert_by_perm {A} (time : A -> nat) (x : A) (l : list A) :
  Permutation (insert_by time x l) (x :: l).
Proof.
  induction l as [|y l IH]; simpl; [apply Permutation_refl|].
  destruct (time x <=? time y)%nat; [apply Permutation_refl|].
  eapply Permutation_trans; [apply perm_skip, IH | apply perm_swap].
Qed.

(** Every callback is resumed, and once. *)
Lemma completion_order_perm (w : World) (ds : list string) :
  Permutation (completion_order w ds) (indexed 0 ds).
Proof.
  unfold completion_order. induction (indexed 0 ds) as [|c l IH]; simpl.
  - apply Permutation_refl.
  - eapply Permutation_trans; [apply insert_by_perm | apply perm_skip, IH].
Qed.

Lemma indexed_fst {A} (xs : list A) : forall i,
  map fst (indexed i xs) = seq i (List.length xs).
Proof.
  induction xs as [|x xs IH]; intros i; simpl; [|rewrite IH]; reflexivity.
Qed.

Lemma indexed_nth {A} (xs : list A) : forall i j x,
  nth_error xs j = Some x -> In ((i + j)%nat, x) (indexed i xs).
Proof.
  induction xs as [|y xs IH]; intros i [|j] x H; simpl in *;
    try discriminate H.
  - inversion H; subst. left. f_equal. lia.
  - right. replace (i + S j)%nat with (S i + j)%nat by lia. apply IH, H.
Qed.

Lemma indexed_In {A} (xs : list A) : forall i c,
  In c (indexed i xs) -> In (snd c) xs.
Proof.
  induction xs as [|y xs IH]; intros i c H; simpl in *; [contradiction|].
  destruct H as [<- | H]; [left; reflexivity | right; eapply IH, H].
Qed.

Lemma In_indexed {A} (xs : list A) (x : A) : forall i,
  In x xs -> exists j, In (j, x) (indexed i xs).
Proof.
  induction xs as [|y xs IH]; intros i H; simpl in *; [contradiction|].
  destruct H as [-> | H]; [exists i; left; reflexivity|].
  destruct (IH (S i) H) as (j & Hj). exists j. right. exact Hj.
Qed.

Lemma completion_order_In (w : World) (ds : list string) (c : nat * string) :
  In c (completion_order w ds) -> In (snd c) ds.
Proof.
  intros H. apply (indexed_In ds 0).
  eapply Permutation_in; [apply completion_order_perm | exact H].
Qed.

Lemma In_completion_order (w : World) (ds : list string) (d : string) :
  In d ds -> exists j, In (j, d) (completion_order w ds).
Proof.
  intros H. destruct (In_indexed ds d 0 H) as (j & Hj). exists j.
  eapply Permutation_in; [apply Permutation_sym, completion_order_perm|].
  exact Hj.
Qed.

Lemma find_by_index {A} (l : list (nat * A)) (r : nat * A) :
  NoDup (map fst l) -> In r l ->
  find (fun r' => (fst r' =? fst r)%nat) l = Some r.
Proof.
  induction l as [|r' l IH]; intros Hnd Hin; [contradiction|].
  simpl in Hnd. inversion Hnd as [|? ? Hnot Hnd']; subst.
  simpl. destruct Hin as [-> | Hin].
  - rewrite Nat.eqb_refl. reflexivity.
  - destruct (Nat.eqb_spec (fst r') (fst r)) as [E | _].
    + exfalso. apply Hnot. rewrite E. apply in_map, Hin.
    + apply IH; assumption.
Qed.

Lemma Forall2_In_l {A B} (R : A -> B -> Prop) (l : list A) (l' : list B)
  (a : A) :
  Forall2 R l l' -> In a l -> exists b, In b l' /\ R a b.
Proof.
  induction 1 as [|x y l l' Hxy _ IH]; intros Hin; [contradiction|].
  destruct Hin as [-> | Hin].
  - exists y. split; [left; reflexivity | exact Hxy].
  - destruct (IH Hin) as (b & Hb & Hab). exists b. split; [right|]; assumption.
Qed.

Lemma results_from {A B} (R : A -> B -> Prop) (settled : list (nat * B))
  (xs : list A) : forall k,
  (forall j x, nth_error xs j = Some x ->
     exists r, find (fun r' => (fst r' =? k + j)%nat) settled = Some r
               /\ R x (snd r)) ->
  Forall2 R xs
    (flat_map
       (fun index =>
          match find (fun r => (fst r =? index)%nat) settled with
          | Some r => [snd r]
          | None => []
          end)
       (seq k (List.length xs))).
Proof.
  induction xs as [|x xs IH]; intros k H; simpl; [constructor|].
  destruct (H 0%nat x eq_refl) as (r & Hr & Hx).
  rewrite Nat.add_0_r in Hr. rewrite Hr. simpl. constructor; [exact Hx|].
  apply IH. intros j y Hy. destruct (H (S j) y Hy) as (r' & Hr' & Hy').
  exists r'. split; [|exact Hy'].
  replace (S k + j)%nat with (k + S j)%nat by lia. exact Hr'.
Qed.

(** Whatever the order of completion, the results stand in input order:
    if each callback's value is related to its input, so are the inputs
    and the results, one by one. *)
Lemma results_in_input_order {A B} (R : A -> B -> Prop) (xs : list A)
  (order : list (nat * A)) (settled : list (nat * B)) :
  Permutation order (indexed 0 xs) ->
  Forall2 (fun c r => fst r = fst c /\ R (snd c) (snd r)) order settled ->
  Forall2 R xs (results_by_index (List.length xs) settled).
Proof.
  intros Hperm Hall.
  assert (Hfst : map fst settled = map fst order).
  { clear Hperm. induction Hall as [|c r l l' (E & _) _ IH]; simpl;
      [|rewrite E, IH]; reflexivity. }
  assert (Hnd : NoDup (map fst settled)).
  { rewrite Hfst.
    eapply Permutation_NoDup;
      [apply Permutation_sym, Permutation_map, Hperm|].
    rewrite indexed_fst. apply seq_NoDup. }
  unfold results_by_index. apply results_from. intros j x Hx. simpl.
  pose proof (indexed_nth xs 0 j x Hx) as Hin. simpl in Hin.
  apply (Permutation_in _ (Permutation_sym Hperm)) in Hin.
  destruct (Forall2_In_l _ _ _ _ Hall Hin) as (r & Hr & E & HR).
  simpl in E, HR. exists r. split; [|exact HR].
  rewrite <- E. apply find_by_index; assumption.
Qed.

Section Stages.
Variable w : World.
Variable o : CreateMetadataOptions.
Variable P : Event -> Prop.
Hypothesis P_log : forall text, P (ConsoleLog text).

Lemma sat_signFile (filePath secretKeyPath : string) :
  (forall text, P (ConsoleError text)) ->
  (forall n r, Forall P (child_protocol n filePath secretKeyPath (password o) r)) ->
  sat w P (fun _ => True) (signFile filePath secretKeyPath (password o)).
Proof.
  intros P_err P_child n tr n' r E. rewrite signFile_run in E.
  inversion E; subst; clear E. rewrite targets_sign_trace. simpl.
  split; [|split; [lia | intros; exact I]].
  unfold sign_trace. repeat (apply Forall_app; split).
  - repeat constructor; apply P_log.
  - apply P_child.
  - destruct (is_zero _); repeat constructor; auto.
Qed.

Lemma sat_readReleaseNotes :
  (forall file, releaseNotesPath o = Some file -> Str.truthy file = true ->
                P (ReadFile file)) ->
  sat w P
    (fun notes =>
       match releaseNotesPath o with
       | Some file =>
           if Str.truthy file
           then exists content,
                  fileContent w file = Ok content /\ notes = Some content
           else notes = None
       | None => notes = None
       end)
    (readReleaseNotes (releaseNotesPath o)).
Proof.
  intros P_read. unfold readReleaseNotes.
  destruct (releaseNotesPath o) as [file|]; [|apply sat_ret; reflexivity].
  destruct (Str.truthy file) eqn:Ef; [|apply sat_ret; reflexivity].
  apply sat_try_catch; [|intros e; apply sat_throw].
  apply sat_bind with (Q1 := fun content => fileContent w file = Ok content).
  - apply sat_perform; [apply P_read; auto | reflexivity | auto].
  - intros content Hc. apply sat_ret. exists content. auto.
Qed.

Lemma sat_inspect_all :
  (forall d, In d (distributables o) -> P (CreateReadStream d) /\ P (Stat d)) ->
  sat w P
    (Forall2 (entry_for w (default "" (baseUrl o))) (distributables o))
    (inspect_all (logger o) (default "" (baseUrl o)) (distributables o)).
Proof.
  intros P_inspect. unfold inspect_all.
  apply sat_bind with (Q1 := fun _ => True).
  - apply sat_for_each. intros i d Hd. unfold inspect_start.
    apply sat_bind with (Q1 := fun _ => True);
      [apply sat_logger, P_log | intros _ _].
    unfold getFileInfo_start.
    destruct (P_inspect d Hd) as [Pc Ps].
    apply sat_bind with (Q1 := fun _ => True);
      [apply sat_emit; [exact Pc | reflexivity | exact I] | intros _ _].
    apply sat_emit; [exact Ps | reflexivity | exact I].
  - intros _ _.
    apply sat_bind with
      (Q1 := fun order => order = completion_order w (distributables o)).
    { apply sat_settle. intros order E. inversion E. reflexivity. }
    intros order ->.
    apply sat_bind with
      (Q1 := Forall2
               (fun c r => fst r = fst c /\
                           entry_for w (default "" (baseUrl o)) (snd c) (snd r))
               (completion_order w (distributables o))).
    + apply sat_map_each. intros i [index d] _. simpl fst. simpl snd.
      apply sat_bind with (Q1 := entry_for w (default "" (baseUrl o)) d).
      * unfold inspect_finish.
        apply sat_bind with
          (Q1 := fun info => fileDigest w d = Ok (fst info)
                             /\ fileSize w d = Ok (snd info)).
        -- unfold getFileInfo_settle. apply sat_settle.
           intros [h s]. unfold promise_all2.
           destruct (fileDigest w d), (fileSize w d); intros E;
             inversion E; subst; auto.
        -- intros [h s] [Hh Hs]. simpl in Hh, Hs.
           apply sat_bind with (Q1 := fun _ => True);
             [apply sat_logger, P_log | intros _ _].
           apply sat_bind with (Q1 := fun _ => True);
             [apply sat_logger, P_log | intros _ _].
           apply sat_ret. repeat split; assumption.
      * intros entry He. apply sat_ret. split; [reflexivity | exact He].
    + intros settled Hs. apply sat_ret.
      eapply results_in_input_order; [apply completion_order_perm | exact Hs].
Qed.

Lemma sat_assemble :
  (forall file, releaseNotes o = None -> releaseNotesPath o = Some file ->
                Str.truthy file = true -> P (ReadFile file)) ->
  (forall d, In d (distributables o) -> P (CreateReadStream d) /\ P (Stat d)) ->
  sat w P (manifest_of w o) (assemble o).
Proof.
  intros P_read P_inspect. unfold assemble.
  apply sat_bind with (Q1 := fun _ => True);
    [apply sat_logger, P_log | intros _ _].
  apply sat_bind with (Q1 := notes_for w o).
  { unfold notes_for. destruct (releaseNotes o) as [text|].
    - apply sat_ret. reflexivity.
    - apply sat_readReleaseNotes. intros file. apply P_read. reflexivity. }
  intros notes Hnotes.
  apply sat_bind with (Q1 := fun _ => True);
    [apply sat_logger, P_log | intros _ _].
  apply sat_bind with (Q1 := fun _ => True);
    [apply sat_logger, P_log | intros _ _].
  apply sat_bind with
    (Q1 := Forall2 (entry_for w (default "" (baseUrl o))) (distributables o));
    [apply sat_inspect_all, P_inspect | intros entries Hentries].
  apply sat_bind with (Q1 := fun _ => True);
    [apply sat_logger, P_log | intros _ _].
  apply sat_bind with (Q1 := fun _ => True);
    [apply sat_logger, P_log | intros _ _].
  apply sat_bind with (Q1 := fun d => d = now w);
    [apply sat_settle; intros a Ha; inversion Ha; reflexivity | intros d ->].
  apply sat_bind with (Q1 := fun _ => True).
  { apply sat_when; [exact I | apply sat_logger, P_log]. }
  intros _ _. apply sat_ret. exists entries, notes. auto.
Qed.

Lemma sat_persist (manifest : ReleaseManifest.t) :
  P (Mkdir (default "." (outputDir o))) ->
  P (WriteFile (manifest_file o) (stringify manifest)) ->
  sat w P (fun file => file = manifest_file o) (persist o manifest).
Proof.
  intros P_mkdir P_write. unfold persist.
  apply sat_bind with (Q1 := fun _ => True);
    [apply sat_logger, P_log | intros _ _].
  apply sat_bind with (Q1 := fun _ => True);
    [apply sat_logger, P_log | intros _ _].
  apply sat_bind with (Q1 := fun _ => True);
    [apply sat_perform; [exact P_mkdir | reflexivity | auto] | intros _ _].
  apply sat_bind with (Q1 := fun _ => True);
    [apply sat_logger, P_log | intros _ _].
  apply sat_bind with (Q1 := fun _ => True);
    [apply sat_perform; [exact P_write | reflexivity | auto] | intros _ _].
  apply sat_ret. reflexivity.
Qed.

Lemma sat_sign_all (secretKeyPath manifestFile : string) :
  (forall text, P (ConsoleError text)) ->
  (forall n f r, f = manifestFile \/ In f (distributables o) ->
                 Forall P (child_protocol n f secretKeyPath (password o) r)) ->
  sat w P (fun file => file = manifestFile)
    (sign_all o secretKeyPath manifestFile).
Proof.
  intros P_err P_child. unfold sign_all.
  apply sat_bind with (Q1 := fun _ => True);
    [apply sat_logger, P_log | intros _ _].
  apply sat_bind with (Q1 := fun _ => True);
    [destruct (Str.truthy_opt (password o)); apply sat_logger, P_log
    | intros _ _].
  apply sat_bind with (Q1 := fun _ => True).
  { apply sat_signFile; [exact P_err|]. intros n r. apply P_child. auto. }
  intros _ _.
  apply sat_bind with (Q1 := fun _ => True);
    [apply sat_logger, P_log | intros _ _].
  apply sat_bind with (Q1 := fun _ => True).
  { apply sat_for_each. intros i d Hd. unfold sign_one.
    apply sat_bind with (Q1 := fun _ => True);
      [apply sat_logger, P_log | intros _ _].
    apply sat_signFile; [exact P_err|]. intros n r. apply P_child. auto. }
  intros _ _.
  apply sat_bind with (Q1 := fun _ => True);
    [apply sat_logger, P_log | intros _ _].
  apply sat_ret. reflexivity.
Qed.

(** Every event of a run, by the stage that causes it; the stages run
    only on inputs that pass validation. *)
Lemma sat_pipeline :
  (forall text, P (ConsoleError text)) ->
  (forall file, releaseNotes o = None -> releaseNotesPath o = Some file ->
                Str.truthy file = true -> P (ReadFile file)) ->
  (forall d, In d (distributables o) -> P (CreateReadStream d) /\ P (Stat d)) ->
  P (Mkdir (default "." (outputDir o))) ->
  (forall m, valid o = true -> manifest_of w o m ->
             P (WriteFile (manifest_file o) (stringify m))) ->
  (forall n f r, f = manifest_file o \/ In f (distributables o) ->
     Forall P (child_protocol n f (default EmptyString (secretKeyPath o))
                 (password o) r)) ->
  sat w P (fun file => file = manifest_file o) (createReleaseMetadata o).
Proof.
  intros P_err P_read P_inspect P_mkdir P_write P_child n tr n' r E.
  rewrite createReleaseMetadata_staged in E. revert n tr n' r E.
  change (sat w P (fun file => file = manifest_file o) (staged o)).
  unfold staged.
  apply sat_bind with (Q1 := fun _ => True);
    [apply sat_logger, P_log | intros _ _].
  unfold valid in P_write.
  destruct (List.length (distributables o) =? 0)%nat; [apply sat_throw|].
  destruct (Str.truthy_opt (secretKeyPath o)); [|apply sat_throw].
  simpl.
  apply sat_bind with (Q1 := manifest_of w o);
    [apply sat_assemble; assumption | intros m Hm].
  apply sat_bind with (Q1 := fun file => file = manifest_file o);
    [apply sat_persist; auto | intros file ->].
  apply sat_sign_all; assumption.
Qed.

End Stages.

(* ===================================================================== *)
(** * The manifest a run writes *)
(* ===================================================================== *)

(** Every manifest a run writes is one it built from its inputs. *)
Lemma written_manifest (o : CreateMetadataOptions) (w : World) file m :
  In (WriteFile file (stringify m)) (fst (run_pipeline o w)) ->
  file = manifest_file o /\ valid o = true /\ manifest_of w o m.
Proof.
  unfold run_pipeline.
  destruct (createReleaseMetadata o w 0) as [[tr n'] r] eqn:E. simpl.
  intros Hin.
  pose (P := fun e : Event =>
               forall f y, e = WriteFile f (stringify y) ->
                           f = manifest_file o /\ valid o = true
                           /\ manifest_of w o y).
  assert (H : sat w P (fun f => f = manifest_file o) (createReleaseMetadata o)).
  { apply sat_pipeline; unfold P; try (intros; discriminate).
    - intros d _. split; intros; discriminate.
    - intros y Hv Hy f y' Ey. inversion Ey; subst. auto.
    - intros k f cr _. apply Forall_child_protocol.
      intros e He; destruct e; try discriminate He; intros; discriminate. }
  destruct (H _ _ _ _ E) as (F & _ & _).
  rewrite Forall_forall in F. exact (F _ Hin _ _ eq_refl).
Qed.

Lemma build_manifest_files v uv d entries notes compat ds :
  ReleaseManifest.files (build_manifest v uv d entries notes compat ds) = entries.
Proof.
  unfold build_manifest. destruct compat; simpl; [|reflexivity].
  destruct entries; reflexivity.
Qed.

Lemma build_manifest_notes v uv d entries notes compat ds :
  ReleaseManifest.releaseNotes (build_manifest v uv d entries notes compat ds)
  = if Str.truthy_opt notes then notes else None.
Proof.
  unfold build_manifest. destruct compat; simpl; [|reflexivity].
  destruct entries; reflexivity.
Qed.

Lemma entry_for_urls w base ds es :
  Forall2 (entry_for w base) ds es ->
  map ReleaseFile.url es = map (entry_url base) ds.
Proof.
  induction 1 as [|d e ds es (_ & _ & Hurl) _ IH]; [reflexivity|].
  simpl. rewrite IH, Hurl. reflexivity.
Qed.

(** C8, amended. In every manifest a run writes, the [url] of the entry
    of each artifact is the base URL, a slash and the artifact's base
    name when a non-empty base URL is supplied, and the base name alone
    otherwise. *)
Theorem entry_urls (o : CreateMetadataOptions) (w : World) file m :
  In (WriteFile file (stringify m)) (fst (run_pipeline o w)) ->
  map ReleaseFile.url (ReleaseManifest.files m)
  = map (fun filePath =>
           match baseUrl o with
           | Some (String c base) =>
               String c base ++ "/" ++ Path.basename filePath
           | _ => Path.basename filePath
           end) (distributables o).
Proof.
  intros Hin. destruct (written_manifest o w _ _ Hin) as (_ & _ & Hm).
  destruct Hm as (entries & notes & -> & Hentries & _).
  rewrite build_manifest_files, (entry_for_urls _ _ _ _ Hentries).
  apply map_ext. intros d.
  unfold entry_url. destruct (baseUrl o) as [[|c base]|]; reflexivity.
Qed.

(** C1, amended. In every manifest a run writes with the compatibility
    flag set, the top-level [sha512] and [size] are those of the first
    entry of [files] and the top-level [path] is the base name of the
    first artifact, of which the first entry's [url] is made (it is that
    base name itself only when no base URL is supplied); with the flag
    unset the three top-level fields are absent. *)
Theorem compat_block_mirrors_first (o : CreateMetadataOptions) (w : World)
  file m :
  In (WriteFile file (stringify m)) (fst (run_pipeline o w)) ->
  if default false (autoUpdaterCompat o) then
    exists first rest d ds,
      ReleaseManifest.files m = first :: rest /\
      distributables o = d :: ds /\
      ReleaseManifest.sha512 m = Some (ReleaseFile.sha512 first) /\
      ReleaseManifest.size m = Some (ReleaseFile.size first) /\
      ReleaseManifest.path m = Some (Path.basename d) /\
      ReleaseFile.url first = entry_url (default "" (baseUrl o)) d
  else
    ReleaseManifest.path m = None /\
    ReleaseManifest.sha512 m = None /\
    ReleaseManifest.size m = None.
Proof.
  intros Hin. destruct (written_manifest o w _ _ Hin) as (_ & Hv & Hm).
  destruct Hm as (entries & notes & -> & Hentries & _).
  unfold valid in Hv. apply andb_true_iff in Hv. destruct Hv as [Hne _].
  destruct (default false (autoUpdaterCompat o)).
  - destruct Hentries as [|d e ds es (_ & _ & Hurl) Hrest];
      [discriminate Hne|].
    exists e, es, d, ds. repeat split. exact Hurl.
  - unfold build_manifest. simpl. repeat split.
Qed.


(* ===================================================================== *)
(** * The order of a run *)
(* ===================================================================== *)

Lemma bind_inv {A B} (m : M A) (f : A -> M B) w n tr n' r :
  bind m f w n = (tr, n', r) ->
  (exists e, m w n = (tr, n', Throw e) /\ r = Throw e) \/
  (exists tr1 n1 a tr2,
      m w n = (tr1, n1, Ok a) /\ f a w n1 = (tr2, n', r) /\ tr = (tr1 ++ tr2)%list).
Proof.
  unfold bind. destruct (m w n) as [[tr1 n1] [a|e]].
  - destruct (f a w n1) as [[tr2 n2] r2] eqn:Ef. intros E. inversion E; subst.
    right. exists tr1, n1, a, tr2. auto.
  - intros E. inversion E; subst. left. exists e. auto.
Qed.

Lemma no_milestones (tr : list Event) :
  Forall (fun e => is_milestone e = false) tr -> milestones tr = [].
Proof.
  induction 1 as [|e tr He _ IH]; [reflexivity|].
  unfold milestones in *. simpl. rewrite He. exact IH.
Qed.

Lemma no_child_events (tr : list Event) :
  Forall (fun e => is_child_event e = false) tr ->
  targets tr = [] /\ forall pid code, ~ In (Close pid code) tr.
Proof.
  induction 1 as [|e tr He _ [IH1 IH2]]; [split; [reflexivity | intros ? ? []]|].
  split.
  - unfold targets in *. simpl. rewrite IH1.
    destruct e; try reflexivity; discriminate He.
  - intros pid code [Hin | Hin]; [subst; discriminate He | exact (IH2 _ _ Hin)].
Qed.

Lemma In_milestones (e : Event) (tr : list Event) :
  In e tr -> is_milestone e = true -> In e (milestones tr).
Proof. intros Hin He. apply filter_In. auto. Qed.

Lemma all_signed_closes key pw n fs pid code :
  In (Close pid code) (all_signed key pw n fs) -> code = Some 0%Z.
Proof.
  revert n. induction fs as [|f fs IH]; intros n; simpl; [intros []|].
  intros [H | [H | H]]; [discriminate H | inversion H; reflexivity | eauto].
Qed.

Section Order.
Variable w : World.
Variable o : CreateMetadataOptions.
Variable key : string.

Let pw := password o.


Lemma sign_trace_failure n f r :
  is_zero (exitCode r) = false ->
  exists pre,
    sign_trace n f key pw r = (pre ++ failure_tail pw n f (exitCode r))%list.
Proof.
  intros Hz. unfold sign_trace, child_protocol, failure_tail. rewrite Hz.
  destruct (Str.truthy_opt pw), (Str.truthy (diagnostics r)); simpl.
  - exists [ConsoleLog ("Signing file: " ++ Path.basename f);
            ConsoleLog "Using provided password for key decryption";
            Spawn n "minisign" (sign_args f key) (strategy pw) inherit inherit;
            StdinWrite n (default "" pw ++ Str.newline); StdinEnd n;
            ChildStderr n (diagnostics r)]. reflexivity.
  - exists [ConsoleLog ("Signing file: " ++ Path.basename f);
            ConsoleLog "Using provided password for key decryption";
            Spawn n "minisign" (sign_args f key) (strategy pw) inherit inherit;
            StdinWrite n (default "" pw ++ Str.newline); StdinEnd n].
    reflexivity.
  - exists [ConsoleLog ("Signing file: " ++ Path.basename f);
            ConsoleLog "You may need to enter password in the terminal if prompted";
            Spawn n "minisign" (sign_args f key) (strategy pw) inherit inherit;
            ChildStderr n (diagnostics r)]. reflexivity.
  - exists [ConsoleLog ("Signing file: " ++ Path.basename f);
            ConsoleLog "You may need to enter password in the terminal if prompted";
            Spawn n "minisign" (sign_args f key) (strategy pw) inherit inherit].
    reflexivity.
Qed.


Lemma sign_one_run i f n :
  exists lg,
    sign_one o key i f w n
    = ((lg ++ sign_trace n f key pw (signer_run w n f key pw))%list, S n,
       sign_outcome pw (signer_run w n f key pw)) /\
    milestones lg = [] /\ targets lg = [].
Proof.
  unfold sign_one, bind.
  destruct (logger_run o
              ("Signing file " ++ Str.of_nat (i + 1) ++ "/"
               ++ Str.of_nat (List.length (distributables o)) ++ ": "
               ++ Path.basename f) w n) as (lg & -> & Hm & Ht & _).
  rewrite signFile_run. exists lg. auto.
Qed.

(** The loop over the distributables when every signer succeeds. *)
Lemma sign_loop_ok fs : forall i n tr n',
  for_each (sign_one o key) i fs w n = (tr, n', Ok tt) ->
  n' = n + List.length fs /\
  milestones tr = all_signed key pw n fs /\ targets tr = fs.
Proof.
  induction fs as [|f fs IH]; intros i n tr n' E; simpl in E.
  - inversion E; subst. simpl. repeat split. lia.
  - apply bind_inv in E.
    destruct E as [(e & _ & He) | (tr1 & n1 & [] & tr2 & E1 & E2 & ->)];
      [discriminate He|].
    destruct (sign_one_run i f n) as (lg & E1' & Hm & Ht).
    rewrite E1' in E1. inversion E1; subst; clear E1.
    unfold sign_outcome in H2.
    destruct (is_zero (exitCode (signer_run w n f key pw))) eqn:Hz;
      [|discriminate H2].
    apply is_zero_true in Hz.
    destruct (IH _ _ _ _ E2) as (Hn & Hm2 & Ht2).
    split; [simpl; lia|].
    rewrite !milestones_app, !targets_app, Hm, Ht, Hm2, Ht2.
    rewrite milestones_sign_trace, targets_sign_trace, Hz. auto.
Qed.

(** The loop when it is cut short by a failing signer: the files before
    the failing one were signed, the failing one was attempted, and the
    trace ends with the failure. *)
Lemma sign_loop_fail fs : forall i n tr n' msg,
  for_each (sign_one o key) i fs w n = (tr, n', Throw msg) ->
  exists j f code pre,
    nth_error fs j = Some f /\ is_zero code = false /\
    msg = "Failed to sign file with minisign: " ++ exit_detail pw code /\
    milestones tr
    = (all_signed key pw n (firstn j fs)
       ++ [Spawn (n + j) "minisign" (sign_args f key) (strategy pw)
             inherit inherit;
           Close (n + j) code])%list /\
    targets tr = firstn (S j) fs /\
    tr = (pre ++ failure_tail pw (n + j) f code)%list.
Proof.
  induction fs as [|f fs IH]; intros i n tr n' msg E; simpl in E.
  - inversion E.
  - destruct (sign_one_run i f n) as (lg & E1' & Hm & Ht).
    apply bind_inv in E.
    destruct E as [(e & E1 & He) | (tr1 & n1 & [] & tr2 & E1 & E2 & ->)].
    + rewrite E1' in E1. inversion E1; subst; clear E1.
      unfold sign_outcome in H2.
      destruct (is_zero (exitCode (signer_run w n f key pw))) eqn:Hz;
        [discriminate H2|].
      inversion H2; subst; clear H2. inversion He; subst; clear He.
      destruct (sign_trace_failure n f (signer_run w n f key pw) Hz)
        as (pre & Hpre).
      exists 0, f, (exitCode (signer_run w n f key pw)), (lg ++ pre)%list.
      rewrite Nat.add_0_r.
      rewrite !milestones_app, !targets_app, Hm, Ht.
      rewrite milestones_sign_trace, targets_sign_trace.
      repeat split; try assumption.
      rewrite Hpre, app_assoc. reflexivity.
    + rewrite E1' in E1. inversion E1; subst; clear E1.
      unfold sign_outcome in H2.
      destruct (is_zero (exitCode (signer_run w n f key pw))) eqn:Hz;
        [|discriminate H2].
      apply is_zero_true in Hz.
      destruct (IH _ _ _ _ _ E2)
        as (j & g & code & pre & Hj & Hcode & Hmsg & Hm2 & Ht2 & Htr).
      exists (S j), g, code,
        ((lg ++ sign_trace n f key pw (signer_run w n f key pw)) ++ pre)%list.
      replace (n + S j) with (S n + j) by lia.
      rewrite !milestones_app, !targets_app, Hm, Ht, Hm2, Ht2.
      rewrite milestones_sign_trace, targets_sign_trace, Hz.
      repeat split; try assumption.
      rewrite Htr, app_assoc. reflexivity.
Qed.

End Order.

Lemma bind_logger_inv {B} o message (f : unit -> M B) w n tr n' r :
  bind (logger o message) f w n = (tr, n', r) ->
  exists lg tr2,
    f tt w n = (tr2, n', r) /\ tr = (lg ++ tr2)%list /\
    milestones lg = [] /\ targets lg = [] /\
    Forall (fun e => is_child_event e = false) lg.
Proof.
  intros E. apply bind_inv in E.
  destruct (logger_run o message w n) as (lg & El & Hm & Ht & Hc).
  destruct E as [(e & E1 & _) | (tr1 & n1 & [] & tr2 & E1 & E2 & ->)];
    rewrite El in E1; inversion E1; subst.
  exists tr1, tr2. repeat split; try assumption.
  eapply Forall_impl; [|exact Hc]. intros e He. destruct e; try reflexivity;
    discriminate He.
Qed.

Section Shape.
Variable w : World.
Variable o : CreateMetadataOptions.

Let key := default EmptyString (secretKeyPath o).
Let pw := password o.
Let file := manifest_file o.
Let fs := manifest_file o :: distributables o.

(** The manifest file is signed, then the distributables: all succeed. *)
Lemma sign_all_ok n tr n' result :
  sign_all o key file w n = (tr, n', Ok result) ->
  result = file /\
  milestones tr = all_signed key pw n fs /\ targets tr = fs.
Proof.
  unfold sign_all. intros E.
  apply bind_logger_inv in E. destruct E as (lg1 & t1 & E & -> & Hm1 & Ht1 & _).
  assert (E' : exists lg2 t2,
             bind (signFile file key (password o))
               (fun _ =>
                  logger o "Signing distributable files..." ;;
                  for_each (sign_one o key) 0 (distributables o) ;;
                  logger o "Release metadata creation completed successfully!" ;;
                  ret file) w n = (t2, n', Ok result)
             /\ t1 = (lg2 ++ t2)%list /\ milestones lg2 = [] /\ targets lg2 = []).
  { destruct (Str.truthy_opt (password o)); apply bind_logger_inv in E;
      destruct E as (lg2 & t2 & E & -> & Hm2 & Ht2 & _);
      exists lg2, t2; auto. }
  clear E. destruct E' as (lg2 & t2 & E & -> & Hm2 & Ht2).
  apply bind_inv in E.
  destruct E as [(e & _ & He) | (ts & n1 & [] & t3 & E1 & E & ->)];
    [discriminate He|].
  rewrite signFile_run in E1. inversion E1; subst; clear E1.
  unfold sign_outcome in H2.
  destruct (is_zero (exitCode (signer_run w n file key (password o)))) eqn:Hz;
    [|discriminate H2].
  apply is_zero_true in Hz.
  apply bind_logger_inv in E. destruct E as (lg3 & t4 & E & -> & Hm3 & Ht3 & _).
  apply bind_inv in E.
  destruct E as [(e & _ & He) | (tl & n2 & [] & t5 & E1 & E & ->)];
    [discriminate He|].
  apply sign_loop_ok in E1. destruct E1 as (Hn & Hml & Htl).
  apply bind_logger_inv in E. destruct E as (lg4 & t6 & E & -> & Hm4 & Ht4 & _).
  inversion E; subst; clear E.
  split; [reflexivity|].
  rewrite !milestones_app, !targets_app.
  rewrite Hm1, Ht1, Hm2, Ht2, Hm3, Ht3, Hm4, Ht4, Hml, Htl.
  rewrite milestones_sign_trace, targets_sign_trace, Hz.
  simpl. rewrite !app_nil_r. auto.
Qed.

(** Signing is cut short by the first signer that fails. *)
Lemma sign_all_fail n tr n' msg :
  sign_all o key file w n = (tr, n', Throw msg) ->
  exists j f code pre,
    nth_error fs j = Some f /\ is_zero code = false /\
    msg = "Failed to sign file with minisign: " ++ exit_detail pw code /\
    milestones tr
    = (all_signed key pw n (firstn j fs)
       ++ [Spawn (n + j) "minisign" (sign_args f key) (strategy pw)
             inherit inherit;
           Close (n + j) code])%list /\
    targets tr = firstn (S j) fs /\
    tr = (pre ++ failure_tail pw (n + j) f code)%list.
Proof.
  unfold sign_all. intros E.
  apply bind_logger_inv in E. destruct E as (lg1 & t1 & E & -> & Hm1 & Ht1 & _).
  assert (E' : exists lg2 t2,
             bind (signFile file key (password o))
               (fun _ =>
                  logger o "Signing distributable files..." ;;
                  for_each (sign_one o key) 0 (distributables o) ;;
                  logger o "Release metadata creation completed successfully!" ;;
                  ret file) w n = (t2, n', Throw msg)
             /\ t1 = (lg2 ++ t2)%list /\ milestones lg2 = [] /\ targets lg2 = []).
  { destruct (Str.truthy_opt (password o)); apply bind_logger_inv in E;
      destruct E as (lg2 & t2 & E & -> & Hm2 & Ht2 & _);
      exists lg2, t2; auto. }
  clear E. destruct E' as (lg2 & t2 & E & -> & Hm2 & Ht2).
  apply bind_inv in E.
  destruct E as [(e & E1 & He) | (ts & n1 & [] & t3 & E1 & E & ->)];
    rewrite signFile_run in E1; inversion E1; subst; clear E1;
    unfold sign_outcome in H2;
    destruct (is_zero (exitCode (signer_run w n file key (password o)))) eqn:Hz;
    try discriminate H2.
  - (* the signer of the manifest fails *)
    inversion H2; subst; clear H2. inversion He; subst; clear He.
    destruct (sign_trace_failure o key n file _ Hz) as (pre & Hpre).
    exists 0, file, (exitCode (signer_run w n file key (password o))),
      (lg1 ++ lg2 ++ pre)%list.
    rewrite Nat.add_0_r.
    rewrite !milestones_app, !targets_app, Hm1, Ht1, Hm2, Ht2.
    rewrite milestones_sign_trace, targets_sign_trace.
    repeat split; try assumption.
    rewrite Hpre, !app_assoc. reflexivity.
  - (* a signer of a distributable fails *)
    apply is_zero_true in Hz.
    apply bind_logger_inv in E.
    destruct E as (lg3 & t4 & E & -> & Hm3 & Ht3 & _).
    apply bind_inv in E.
    destruct E as [(e & E1 & He) | (tl & n2 & [] & t5 & E1 & E & ->)].
    + inversion He; subst; clear He.
      apply sign_loop_fail in E1.
      destruct E1 as (j & g & code & pre & Hj & Hcode & Hmsg & Hml & Htl & Htr).
      exists (S j), g, code,
        (lg1 ++ lg2 ++ sign_trace n file key (password o)
                          (signer_run w n file key (password o))
             ++ lg3 ++ pre)%list.
      replace (n + S j) with (S n + j) by lia.
      rewrite !milestones_app, !targets_app.
      rewrite Hm1, Ht1, Hm2, Ht2, Hm3, Ht3, Hml, Htl.
      rewrite milestones_sign_trace, targets_sign_trace, Hz.
      repeat split; try assumption.
      rewrite Htr, !app_assoc. reflexivity.
    + apply bind_logger_inv in E.
      destruct E as (lg4 & t6 & E & _). inversion E.
Qed.

End Shape.

Lemma quiet_trace (tr : list Event) :
  Forall quiet_event tr ->
  Forall (fun e => is_child_event e = false) tr /\
  milestones tr = [] /\ targets tr = [].
Proof.
  intros H. assert (Hc : Forall (fun e => is_child_event e = false) tr).
  { eapply Forall_impl; [|exact H]. intros e [He _]. exact He. }
  split; [exact Hc|]. split.
  - apply no_milestones. eapply Forall_impl; [|exact H]. intros e [_ He].
    exact He.
  - apply no_child_events, Hc.
Qed.

Section Pipeline.
Variable w : World.
Variable o : CreateMetadataOptions.

Lemma assemble_quiet n tr n' r :
  assemble o w n = (tr, n', r) ->
  Forall quiet_event tr /\ n' = n /\
  forall m, r = Ok m -> manifest_of w o m.
Proof.
  intros E.
  assert (H : sat w quiet_event (manifest_of w o) (assemble o)).
  { apply sat_assemble.
    - intros text. split; reflexivity.
    - intros f _ _ _. split; reflexivity.
    - intros d _. split; split; reflexivity. }
  destruct (H _ _ _ _ E) as (F & N & Q).
  split; [exact F|]. split; [|exact Q].
  destruct (quiet_trace _ F) as (_ & _ & Ht). rewrite Ht in N. simpl in N. lia.
Qed.

Lemma persist_no_child manifest n tr n' r :
  persist o manifest w n = (tr, n', r) ->
  Forall (fun e => is_child_event e = false) tr /\ n' = n.
Proof.
  intros E.
  assert (H : sat w (fun e => is_child_event e = false)
                (fun f => f = manifest_file o) (persist o manifest)).
  { apply sat_persist; reflexivity. }
  destruct (H _ _ _ _ E) as (F & N & _). split; [exact F|].
  destruct (no_child_events _ F) as [Ht _]. rewrite Ht in N. simpl in N. lia.
Qed.

Lemma persist_ok manifest n tr n' f :
  persist o manifest w n = (tr, n', Ok f) ->
  f = manifest_file o /\
  milestones tr
  = [Mkdir (default "." (outputDir o));
     WriteFile (manifest_file o) (stringify manifest)].
Proof.
  unfold persist. intros E.
  apply bind_logger_inv in E. destruct E as (lg1 & t1 & E & -> & Hm1 & _).
  apply bind_logger_inv in E. destruct E as (lg2 & t2 & E & -> & Hm2 & _).
  apply bind_inv in E.
  destruct E as [(e & _ & He) | (tm & n1 & [] & t3 & E1 & E & ->)];
    [discriminate He|].
  unfold perform in E1. inversion E1; subst; clear E1.
  apply bind_logger_inv in E. destruct E as (lg3 & t4 & E & -> & Hm3 & _).
  apply bind_inv in E.
  destruct E as [(e & _ & He) | (tw & n2 & [] & t5 & E1 & E & ->)];
    [discriminate He|].
  unfold perform in E1. inversion E1; subst; clear E1.
  inversion E; subst; clear E.
  split; [reflexivity|].
  rewrite !milestones_app, Hm1, Hm2, Hm3. reflexivity.
Qed.

(** A run either fails before any signer is started, or gets as far as
    the written manifest and then signs. *)
Lemma pipeline_shape tr r :
  run_pipeline o w = (tr, r) ->
  (Forall (fun e => is_child_event e = false) tr /\ exists msg, r = Throw msg)
  \/
  (exists pre manifest tr3 n',
      tr = (pre ++ tr3)%list /\
      Forall (fun e => is_child_event e = false) pre /\
      milestones pre
      = [Mkdir (default "." (outputDir o));
         WriteFile (manifest_file o) (stringify manifest)] /\
      manifest_of w o manifest /\
      sign_all o (default EmptyString (secretKeyPath o)) (manifest_file o) w 0
      = (tr3, n', r)).
Proof.
  unfold run_pipeline.
  destruct (createReleaseMetadata o w 0) as [[tr0 n0] r0] eqn:E.
  intros E0. inversion E0; subst; clear E0.
  rewrite createReleaseMetadata_staged in E. unfold staged in E.
  apply bind_logger_inv in E. destruct E as (lg & t1 & E & -> & Hm0 & Ht0 & Hc0).
  destruct (List.length (distributables o) =? 0)%nat.
  { inversion E; subst. left. rewrite app_nil_r. eauto. }
  destruct (negb (Str.truthy_opt (secretKeyPath o))).
  { inversion E; subst. left. rewrite app_nil_r. eauto. }
  apply bind_inv in E.
  destruct E as [(e & E1 & He) | (ta & n1 & m & t2 & E1 & E & ->)].
  { apply assemble_quiet in E1. destruct E1 as (F & _ & _).
    left. split; [|eauto]. apply Forall_app. split; [exact Hc0|].
    apply quiet_trace, F. }
  apply assemble_quiet in E1. destruct E1 as (Fa & -> & Qa).
  destruct (quiet_trace _ Fa) as (Hca & Hma & Hta).
  apply bind_inv in E.
  destruct E as [(e & E1 & He) | (tp & n2 & f & t3 & E1 & E & ->)].
  { apply persist_no_child in E1. destruct E1 as (F & _).
    left. split; [|eauto]. repeat (apply Forall_app; split); assumption. }
  destruct (persist_no_child _ _ _ _ _ E1) as (Hcp & ->).
  apply persist_ok in E1. destruct E1 as (-> & Hmp).
  right. exists (lg ++ ta ++ tp)%list, m, t3, n0.
  split; [rewrite !app_assoc; reflexivity|].
  split; [repeat (apply Forall_app; split); assumption|].
  split; [|split; [apply Qa; reflexivity | exact E]].
  rewrite !milestones_app, Hm0, Hma, Hmp. reflexivity.
Qed.

(** C5. In every successful run the returned value is the path of
    [latest-<platform>.yml] inside the output directory; the directory
    is created (if absent) and the serialized manifest written to that
    path before any signer is started; then the manifest file is signed,
    then every artifact in input order, each signer ending before the
    next one starts, all under the same credential strategy. With one
    artifact the signers started are exactly two: for the manifest, then
    for the artifact. *)
Theorem successful_run (tr : list Event) (result : string) :
  run_pipeline o w = (tr, Ok result) ->
  result = manifest_file o /\
  (exists manifest,
     manifest_of w o manifest /\
     milestones tr
     = Mkdir (default "." (outputDir o))
       :: WriteFile (manifest_file o) (stringify manifest)
       :: all_signed (default EmptyString (secretKeyPath o)) (password o) 0
            (manifest_file o :: distributables o)) /\
  targets tr = manifest_file o :: distributables o /\
  (forall d, distributables o = [d] -> targets tr = [manifest_file o; d]).
Proof.
  intros E. apply pipeline_shape in E.
  destruct E as [(_ & msg & Hmsg) | (pre & m & t3 & n' & -> & Hc & Hm & Qm & E)];
    [discriminate Hmsg|].
  apply sign_all_ok in E. destruct E as (-> & Hms & Hts).
  destruct (no_child_events _ Hc) as [Htp _].
  split; [reflexivity|]. split.
  - exists m. split; [exact Qm|]. rewrite milestones_app, Hm, Hms. reflexivity.
  - assert (Ht : targets (pre ++ t3) = manifest_file o :: distributables o)
      by (rewrite targets_app, Htp, Hts; reflexivity).
    split; [exact Ht|]. intros d Hd. rewrite Ht, Hd. reflexivity.
Qed.

(** C2, amended. When a signer ends with a status other than zero,
    [createReleaseMetadata] rejects with "Failed to sign file with
    minisign: minisign process exited with code <status>", a text that
    carries the status and not the file; the base name of the file being
    signed is written to the error console just before, these being the
    last events of the run; and no signer is started for any artifact
    after the failing one. *)
Theorem signer_failure_aborts (tr : list Event) (r : outcome string)
  (pid : nat) (code : option Z) :
  run_pipeline o w = (tr, r) ->
  In (Close pid code) tr -> is_zero code = false ->
  r = Throw ("Failed to sign file with minisign: "
             ++ exit_detail (password o) code) /\
  targets tr = firstn (S pid) (manifest_file o :: distributables o) /\
  exists pre f,
    nth_error (manifest_file o :: distributables o) pid = Some f /\
    tr = (pre ++ [Close pid code;
                  ConsoleError ("Error signing file: " ++ Path.basename f);
                  ConsoleError (exit_detail (password o) code)])%list.
Proof.
  intros E Hin Hcode. apply pipeline_shape in E.
  destruct E as [(Hc & _) | (pre & m & t3 & n' & -> & Hc & Hm & Qm & E)].
  { destruct (no_child_events _ Hc) as [_ Hno]. exfalso. exact (Hno _ _ Hin). }
  destruct (no_child_events _ Hc) as [Htp Hno].
  assert (Hin3 : In (Close pid code) (milestones t3)).
  { apply In_milestones; [|reflexivity]. apply in_app_or in Hin.
    destruct Hin as [Hin | Hin]; [exfalso; exact (Hno _ _ Hin) | exact Hin]. }
  destruct r as [result | msg].
  - apply sign_all_ok in E. destruct E as (_ & Hms & _).
    rewrite Hms in Hin3. apply all_signed_closes in Hin3. subst. discriminate Hcode.
  - apply sign_all_fail in E.
    destruct E as (j & f & c & pre3 & Hj & Hc3 & Hmsg & Hms & Hts & Htr).
    rewrite Hms in Hin3. apply in_app_or in Hin3.
    destruct Hin3 as [Hin3 | [Hin3 | [Hin3 | []]]].
    + apply all_signed_closes in Hin3. subst. discriminate Hcode.
    + discriminate Hin3.
    + inversion Hin3; subst. simpl in *.
      split; [reflexivity|]. split; [rewrite targets_app, Htp; exact Hts|].
      exists (pre ++ pre3)%list, f. split; [exact Hj|].
      rewrite <- app_assoc. reflexivity.
Qed.

End Pipeline.

(* ===================================================================== *)
(** * The credential strategy, and runs on sample inputs *)
(* ===================================================================== *)

Ltac find_event := vm_compute; repeat (first [left; reflexivity | right]).

(** C10. A run whose password is the empty string is, event for event
    and in its outcome, the run with no password: every signer inherits
    all three standard streams and nothing is written to its input. An
    event of the explicit-credential strategy (a piped input, a write to
    it, its closing) occurs only in runs whose password is a non-empty
    string. *)
Theorem empty_password_is_interactive (o : CreateMetadataOptions) (w : World) :
  run_pipeline (with_password o (Some EmptyString)) w
  = run_pipeline (with_password o None) w /\
  Forall interactive_only
    (fst (run_pipeline (with_password o (Some EmptyString)) w)) /\
  (forall e, In e (fst (run_pipeline o w)) ->
             explicit_credential_event e = true ->
             exists c s, password o = Some (String c s)).
Proof.
  split; [|split].
  - destruct o. reflexivity.
  - unfold run_pipeline.
    destruct (createReleaseMetadata (with_password o (Some "")) w 0)
      as [[tr n'] r] eqn:E. simpl.
    assert (H : sat w interactive_only
                  (fun f => f = manifest_file (with_password o (Some "")))
                  (createReleaseMetadata (with_password o (Some "")))).
    { apply sat_pipeline; try (intros; exact I).
      - intros d _. split; exact I.
      - intros k f cr _. unfold child_protocol. simpl.
        destruct (Str.truthy (diagnostics cr)); repeat constructor. }
    exact (proj1 (H _ _ _ _ E)).
  - unfold run_pipeline.
    destruct (createReleaseMetadata o w 0) as [[tr n'] r] eqn:E. simpl.
    intros e Hin He.
    pose (P := fun e : Event =>
                 explicit_credential_event e = true ->
                 exists c s, password o = Some (String c s)).
    assert (H : sat w P (fun f => f = manifest_file o)
                  (createReleaseMetadata o)).
    { apply sat_pipeline; unfold P; try (intros; discriminate).
      - intros d _. split; intros; discriminate.
      - intros k f cr _. unfold child_protocol, strategy.
        destruct (password o) as [[|c s]|]; simpl;
          destruct (Str.truthy (diagnostics cr));
          repeat constructor; intros; try discriminate; eauto. }
    destruct (H _ _ _ _ E) as (F & _). rewrite Forall_forall in F.
    exact (F e Hin He).
Qed.

(** Against C1 as stated: with a base URL supplied and the compatibility
    flag set, the manifest written has [path] "app-1.0.0.zip" while its
    first entry, which has no [path], has the [url]
    "https://cdn.example.com/app-1.0.0.zip". *)
Lemma compat_path_counterexample :
  In (WriteFile "latest-mac.yml" (stringify manifest_compat_cdn))
     (fst (run_pipeline opts_compat_cdn calm_world)) /\
  ReleaseManifest.files manifest_compat_cdn = [entry_cdn] /\
  ReleaseManifest.path manifest_compat_cdn = Some "app-1.0.0.zip" /\
  ReleaseFile.url entry_cdn = "https://cdn.example.com/app-1.0.0.zip" /\
  ReleaseManifest.path manifest_compat_cdn <> Some (ReleaseFile.url entry_cdn).
Proof.
  split; [find_event|]. repeat split. discriminate.
Qed.

Lemma compat_block_mirrors_first_witness :
  In (WriteFile "latest-mac.yml" (stringify manifest_compat_cdn))
     (fst (run_pipeline opts_compat_cdn calm_world)) /\
  exists first rest d ds,
    ReleaseManifest.files manifest_compat_cdn = first :: rest /\
    distributables opts_compat_cdn = d :: ds /\
    ReleaseManifest.sha512 manifest_compat_cdn
    = Some (ReleaseFile.sha512 first) /\
    ReleaseManifest.size manifest_compat_cdn = Some (ReleaseFile.size first) /\
    ReleaseManifest.path manifest_compat_cdn = Some (Path.basename d) /\
    ReleaseFile.url first = entry_url "https://cdn.example.com" d.
Proof.
  split; [find_event|].
  apply (compat_block_mirrors_first opts_compat_cdn calm_world
           "latest-mac.yml" manifest_compat_cdn).
  find_event.
Defined.

(** Against C8 as stated: the [url] is not the base URL concatenated with
    the base name, a slash stands between them. *)
Lemma entry_url_counterexample :
  In (WriteFile "latest-mac.yml" (stringify manifest_compat_cdn))
     (fst (run_pipeline opts_compat_cdn calm_world)) /\
  baseUrl opts_compat_cdn = Some "https://cdn.example.com" /\
  map ReleaseFile.url (ReleaseManifest.files manifest_compat_cdn)
  = ["https://cdn.example.com/app-1.0.0.zip"] /\
  map ReleaseFile.url (ReleaseManifest.files manifest_compat_cdn)
  <> map (fun filePath => "https://cdn.example.com" ++ Path.basename filePath)
       (distributables opts_compat_cdn).
Proof.
  split; [find_event|]. repeat split. vm_compute. discriminate.
Qed.

Lemma entry_urls_witness :
  In (WriteFile "latest-mac.yml" (stringify manifest_compat_cdn))
     (fst (run_pipeline opts_compat_cdn calm_world)) /\
  map ReleaseFile.url (ReleaseManifest.files manifest_compat_cdn)
  = map (fun filePath => "https://cdn.example.com/" ++ Path.basename filePath)
      ["dist/app-1.0.0.zip"].
Proof.
  split; [find_event|].
  apply (entry_urls opts_compat_cdn calm_world "latest-mac.yml"
           manifest_compat_cdn).
  find_event.
Defined.

(** Against C2 as stated: whether the signer of the manifest fails or
    the signer of the artifact, the run rejects with one and the same
    text, in which neither file name occurs. *)
Lemma failure_text_counterexample :
  snd (run_pipeline opts_one (fails_at 0))
  = Throw "Failed to sign file with minisign: minisign process exited with code 1" /\
  snd (run_pipeline opts_one (fails_at 1))
  = Throw "Failed to sign file with minisign: minisign process exited with code 1" /\
  targets (fst (run_pipeline opts_one (fails_at 0))) = ["latest-mac.yml"] /\
  targets (fst (run_pipeline opts_one (fails_at 1)))
  = ["latest-mac.yml"; "dist/app-1.0.0.zip"] /\
  Str.includes false "latest-mac.yml"
    "Failed to sign file with minisign: minisign process exited with code 1"
  = false /\
  Str.includes false "app-1.0.0.zip"
    "Failed to sign file with minisign: minisign process exited with code 1"
  = false.
Proof. repeat split; vm_compute; reflexivity. Qed.

Lemma signer_failure_aborts_witness :
  In (Close 1 (Some 1%Z)) (fst (run_pipeline opts_one (fails_at 1))) /\
  is_zero (Some 1%Z) = false /\
  snd (run_pipeline opts_one (fails_at 1))
  = Throw ("Failed to sign file with minisign: "
           ++ exit_detail (password opts_one) (Some 1%Z)) /\
  targets (fst (run_pipeline opts_one (fails_at 1)))
  = firstn 2 (manifest_file opts_one :: distributables opts_one) /\
  exists pre f,
    nth_error (manifest_file opts_one :: distributables opts_one) 1 = Some f /\
    fst (run_pipeline opts_one (fails_at 1))
    = (pre ++ [Close 1 (Some 1%Z);
               ConsoleError ("Error signing file: " ++ Path.basename f);
               ConsoleError (exit_detail (password opts_one) (Some 1%Z))])%list.
Proof.
  split; [find_event|]. split; [reflexivity|].
  apply (signer_failure_aborts (fails_at 1) opts_one
           (fst (run_pipeline opts_one (fails_at 1)))
           (snd (run_pipeline opts_one (fails_at 1))) 1 (Some 1%Z)).
  - apply surjective_pairing.
  - find_event.
  - reflexivity.
Defined.

(** Against C3 as stated: a supplied but empty password does not select
    the explicit-credential strategy, and the diagnostic text of a
    failing signer is no part of the failure detail. *)
Lemma explicit_credential_counterexample :
  (* an empty password is supplied, yet the signer's input is inherited
     and nothing is written to it *)
  filter is_child_event
    (fst (fst (signFile "app.zip" "secret.key" (Some EmptyString)
                 calm_world 0)))
  = [Spawn 0 "minisign" ["-S"; "-s"; "secret.key"; "-m"; "app.zip"]
       inherit inherit inherit;
     Close 0 (Some 0%Z)] /\
  (* the signer's diagnostic text is no part of the failure detail *)
  diagnostics (signer_run (fails_at 0) 0 "app.zip" "secret.key" (Some "pw"))
  = "Wrong password for this key" /\
  snd (signFile "app.zip" "secret.key" (Some "pw") (fails_at 0) 0)
  = Throw "Failed to sign file with minisign: minisign process exited with code 1" /\
  Str.includes false "Wrong password for this key"
    "Failed to sign file with minisign: minisign process exited with code 1"
  = false.
Proof. repeat split; vm_compute; reflexivity. Qed.

Lemma successful_run_witness :
  run_pipeline opts_password calm_world
  = (fst (run_pipeline opts_password calm_world), Ok "latest-mac.yml") /\
  "latest-mac.yml" = manifest_file opts_password /\
  (exists manifest,
     manifest_of calm_world opts_password manifest /\
     milestones (fst (run_pipeline opts_password calm_world))
     = Mkdir "."
       :: WriteFile (manifest_file opts_password) (stringify manifest)
       :: all_signed "secret.key" (Some "test-password") 0
            (manifest_file opts_password :: ["dist/app-1.0.0.zip"])) /\
  targets (fst (run_pipeline opts_password calm_world))
  = manifest_file opts_password :: ["dist/app-1.0.0.zip"] /\
  (forall d, distributables opts_password = [d] ->
             targets (fst (run_pipeline opts_password calm_world))
             = [manifest_file opts_password; d]).
Proof.
  split; [vm_compute; reflexivity|].
  apply (successful_run calm_world opts_password
           (fst (run_pipeline opts_password calm_world)) "latest-mac.yml").
  vm_compute; reflexivity.
Defined.

(* ===================================================================== *)
(** * Further properties of the code *)
(* ===================================================================== *)

(** ** The heuristics beyond the examples *)

(** The source function is the scan, on every name. *)
Lemma extractVersion_scan (filename : string) :
  extractVersionFromFilename filename = find_semver (strip_extension filename).
Proof.
  unfold extractVersionFromFilename. rewrite remove_first_extension.
  pose proof (exec_simple_full (strip_extension filename) 0) as Hs.
  rewrite <- (exec_full (strip_extension filename) 0).
  unfold Regex.exec.
  destruct (Regex.exec_from false re_version_full 0 _); [reflexivity|].
  destruct (Regex.exec_from false re_version_simple 0 _);
    [discriminate Hs | reflexivity].
Qed.

Lemma span_prefix_all p s a b : Str.span p s = (a, b) -> Str.all p a = true.
Proof.
  revert a b. induction s as [|c s IH]; intros a b; simpl.
  - intros E. inversion E. reflexivity.
  - destruct (p c) eqn:Hc.
    + destruct (Str.span p s) as [a' b'] eqn:Es. intros E. inversion E; subst.
      simpl. rewrite Hc. exact (IH _ _ eq_refl).
    + intros E. inversion E. reflexivity.
Qed.

Lemma digits_spec s ds rest :
  digits s = Some (ds, rest) ->
  s = ds ++ rest /\ Str.truthy ds = true /\ Str.all Str.is_digit ds = true.
Proof.
  unfold digits. destruct (Str.span Str.is_digit s) as [[|c a] b] eqn:Es;
    [discriminate|].
  intros E. inversion E; subst. split; [exact (span_append _ _ _ _ Es)|].
  split; [reflexivity | exact (span_prefix_all _ _ _ _ Es)].
Qed.

Lemma after_spec c s rest : after c s = Some rest -> s = String c rest.
Proof.
  destruct s as [|c' s']; simpl; [discriminate|].
  destruct (c =? c')%char eqn:Hc; [|discriminate].
  apply Ascii.eqb_eq in Hc. intros E. inversion E; subst. reflexivity.
Qed.

Lemma core_at_spec s core rest :
  core_at s = Some (core, rest) ->
  exists major minor patch,
    core = major ++ "." ++ minor ++ "." ++ patch /\
    Str.truthy major = true /\ Str.all Str.is_digit major = true /\
    Str.truthy minor = true /\ Str.all Str.is_digit minor = true /\
    Str.truthy patch = true /\ Str.all Str.is_digit patch = true.
Proof.
  unfold core_at.
  destruct (digits s) as [[major r1]|] eqn:E1; [|discriminate].
  destruct (after "." r1) as [r2|] eqn:A1; [|discriminate].
  destruct (digits r2) as [[minor r3]|] eqn:E2; [|discriminate].
  destruct (after "." r3) as [r4|] eqn:A2; [|discriminate].
  destruct (digits r4) as [[patch r5]|] eqn:E3; [|discriminate].
  apply digits_spec in E1, E2, E3.
  destruct E1 as (_ & T1 & D1). destruct E2 as (_ & T2 & D2).
  destruct E3 as (_ & T3 & D3).
  intros E. inversion E; subst. exists major, minor, patch. auto 10.
Qed.

Lemma prerelease_at_spec s suffix rest :
  prerelease_at s = Some (suffix, rest) ->
  exists pre, suffix = "-" ++ pre /\ Str.truthy pre = true /\
              Str.all Str.is_prerelease_char pre = true.
Proof.
  unfold prerelease_at. destruct (after "-" s) as [r|]; [|discriminate].
  destruct (Str.span Str.is_prerelease_char r) as [[|c pre] b] eqn:Es;
    [discriminate|].
  intros E. inversion E; subst. exists (String c pre).
  split; [reflexivity|]. split; [reflexivity|].
  exact (span_prefix_all _ _ _ _ Es).
Qed.

Lemma append_empty (s : string) : s ++ EmptyString = s.
Proof. induction s as [|c s IH]; simpl; [|rewrite IH]; reflexivity. Qed.

Lemma version_parts major minor patch suffix :
  (major ++ "." ++ minor ++ "." ++ patch) ++ suffix
  = major ++ "." ++ minor ++ "." ++ patch ++ suffix.
Proof.
  rewrite append_assoc. simpl. rewrite append_assoc. reflexivity.
Qed.

Lemma semver_at_spec s v :
  semver_at s = Some v -> version_shaped v /\ exists rest, s = v ++ rest.
Proof.
  unfold semver_at.
  destruct (core_at s) as [[core rest]|] eqn:Ec; [|discriminate].
  pose proof (core_at_append _ _ _ Ec) as Hs.
  apply core_at_spec in Ec.
  destruct Ec as (major & minor & patch & -> & Hparts).
  destruct (prerelease_at rest) as [[suffix rest']|] eqn:Ep.
  - pose proof (prerelease_at_append _ _ _ Ep) as Hr.
    apply prerelease_at_spec in Ep. intros E. inversion E; subst v. split.
    + exists major, minor, patch, suffix.
      split; [apply version_parts|]. repeat split; tauto.
    + exists rest'. rewrite Hs, Hr. symmetry. apply append_assoc.
  - intros E. inversion E; subst v. split.
    + exists major, minor, patch, EmptyString.
      split; [rewrite <- version_parts; symmetry; apply append_empty|].
      repeat split; tauto.
    + exists rest. exact Hs.
Qed.

Lemma find_semver_spec s v :
  find_semver s = Some v ->
  version_shaped v /\ exists before rest, s = before ++ v ++ rest.
Proof.
  induction s as [|c s IH]; rewrite find_semver_unfold.
  - destruct (semver_at "") eqn:E; [|discriminate].
    intros H. inversion H; subst. apply semver_at_spec in E.
    destruct E as (Hs & rest & Hr). split; [exact Hs|].
    exists EmptyString, rest. exact Hr.
  - destruct (semver_at (String c s)) as [v'|] eqn:E; simpl.
    + intros H. inversion H; subst. apply semver_at_spec in E.
      destruct E as (Hs & rest & Hr). split; [exact Hs|].
      exists EmptyString, rest. exact Hr.
    + intros H. destruct (IH H) as (Hs & before & rest & ->).
      split; [exact Hs|]. exists (String c before), rest. reflexivity.
Qed.

Lemma strip_extension_prefix s : exists ext, s = strip_extension s ++ ext.
Proof.
  induction s as [|c s [ext IH]].
  - exists EmptyString. reflexivity.
  - destruct (is_extension (String c s)) eqn:He.
    + rewrite strip_extension_ext by exact He. exists (String c s). reflexivity.
    + rewrite strip_extension_step by exact He. exists ext. simpl.
      rewrite <- IH. reflexivity.
Qed.

(** X1. Whatever [extractVersionFromFilename] returns has the form of a
    version (three non-empty runs of digits separated by dots, then
    nothing or a hyphen and a non-empty run of letters, digits and dots)
    and occurs in the file name as a contiguous part of it. *)
Theorem extracted_version_is_sound (filename v : string) :
  extractVersionFromFilename filename = Some v ->
  version_shaped v /\ exists before rest, filename = before ++ v ++ rest.
Proof.
  rewrite extractVersion_scan. intros H. apply find_semver_spec in H.
  destruct H as (Hs & before & rest & Hstem). split; [exact Hs|].
  destruct (strip_extension_prefix filename) as [ext Hext].
  exists before, (rest ++ ext). rewrite Hext at 1. rewrite Hstem.
  rewrite !append_assoc. reflexivity.
Qed.

Lemma extracted_version_is_sound_witness :
  extractVersionFromFilename "app-v1.2.3-beta.1.dmg" = Some "1.2.3-beta.1" /\
  version_shaped "1.2.3-beta.1" /\
  exists before rest, "app-v1.2.3-beta.1.dmg" = before ++ "1.2.3-beta.1" ++ rest.
Proof.
  split; [reflexivity|].
  apply (extracted_version_is_sound "app-v1.2.3-beta.1.dmg" "1.2.3-beta.1").
  reflexivity.
Defined.

Lemma all_not_dot_append a b :
  Str.all Str.not_dot (a ++ String "." b) = false.
Proof.
  induction a as [|c a IH]; simpl; [reflexivity|].
  rewrite IH. apply andb_false_r.
Qed.

Lemma strip_extension_append stem ext :
  Str.truthy ext = true -> Str.all Str.not_dot ext = true ->
  strip_extension (stem ++ String "." ext) = stem.
Proof.
  intros Ht Ha. induction stem as [|c stem IH].
  - apply strip_extension_ext. simpl. rewrite Ht, Ha. reflexivity.
  - change (String c stem ++ String "." ext)
      with (String c (stem ++ String "." ext)).
    rewrite strip_extension_step, IH; [reflexivity|].
    simpl. rewrite all_not_dot_append, !andb_false_r. reflexivity.
Qed.

Lemma version_of_stem (stem ext : string) :
  Str.truthy ext = true -> Str.all Str.not_dot ext = true ->
  extractVersionFromFilename (stem ++ "." ++ ext) = find_semver stem.
Proof.
  intros Ht Ha. rewrite extractVersion_scan.
  change (stem ++ "." ++ ext) with (stem ++ String "." ext).
  rewrite strip_extension_append by assumption. reflexivity.
Qed.

(** X2. The part of a name after its last dot, when not empty, never
    contributes to the version: two names that differ only there have
    the same extracted version. So a version whose last number is the
    last dot-separated part of the name (as in app-1.2.3, with no
    extension) is not found. *)
Theorem extension_never_contributes (stem ext ext' : string) :
  Str.truthy ext = true -> Str.all Str.not_dot ext = true ->
  Str.truthy ext' = true -> Str.all Str.not_dot ext' = true ->
  extractVersionFromFilename (stem ++ "." ++ ext)
  = extractVersionFromFilename (stem ++ "." ++ ext').
Proof.
  intros Ht Ha Ht' Ha'.
  rewrite (version_of_stem stem ext), (version_of_stem stem ext');
    auto.
Qed.

Lemma extension_never_contributes_witness :
  extractVersionFromFilename ("app-1.2" ++ "." ++ "3")
  = extractVersionFromFilename ("app-1.2" ++ "." ++ "zip") /\
  extractVersionFromFilename "app-1.2.3" = None.
Proof.
  split; [|reflexivity].
  apply (extension_never_contributes "app-1.2" "3" "zip"); reflexivity.
Defined.

(** ** The case of letters *)

Lemma canonicalize_idem (c : ascii) :
  Str.canonicalize (Str.canonicalize c) = Str.canonicalize c.
Proof. destruct c as [[] [] [] [] [] [] [] []]; reflexivity. Qed.

Lemma starts_with_fold tok s :
  Str.starts_with true tok (fold_case s) = Str.starts_with true tok s.
Proof.
  revert s. induction tok as [|a tok IH]; intros s; [destruct s; reflexivity|].
  destruct s as [|b s]; [reflexivity|]. simpl.
  rewrite IH. unfold Str.char_eq. rewrite canonicalize_idem. reflexivity.
Qed.

Lemma includes_fold tok s :
  Str.includes true tok (fold_case s) = Str.includes true tok s.
Proof.
  induction s as [|b s IH]; [reflexivity|].
  change (fold_case (String b s))
    with (String (Str.canonicalize b) (fold_case s)).
  cbn [Str.includes]. rewrite IH.
  change (String (Str.canonicalize b) (fold_case s))
    with (fold_case (String b s)).
  rewrite starts_with_fold. reflexivity.
Qed.

(** The source function is the search of the token groups, on every
    name. *)
Lemma extractArch_tokens (filename : string) :
  extractArchFromFilename filename = arch_by_tokens filename.
Proof.
  unfold extractArchFromFilename, arch_by_tokens, arch_groups, first_group,
    mentions.
  change re_arm with (Regex.alts (Regex.lit "arm64") (map Regex.lit ["aarch64"])).
  change re_x64
    with (Regex.alts (Regex.lit "x64") (map Regex.lit ["x86_64"; "amd64"])).
  change re_x86
    with (Regex.alts (Regex.lit "x86") (map Regex.lit ["ia32"; "i386"])).
  change re_universal
    with (Regex.alts (Regex.lit "universal") (map Regex.lit [])).
  rewrite !exec_tokens. reflexivity.
Qed.

Lemma mentions_fold tokens s : mentions tokens (fold_case s) = mentions tokens s.
Proof.
  unfold mentions. induction tokens as [|t ts IH]; [reflexivity|].
  simpl. rewrite includes_fold, IH. reflexivity.
Qed.

Lemma arch_of_folded (filename : string) :
  extractArchFromFilename (fold_case filename)
  = extractArchFromFilename filename.
Proof.
  rewrite !extractArch_tokens. unfold arch_by_tokens, arch_groups, first_group.
  rewrite !mentions_fold. reflexivity.
Qed.

(** X3. [extractArchFromFilename] does not see the case of letters: two
    names that are equal once their letters are brought to one case get
    the same architecture tag. *)
Theorem arch_ignores_case (f g : string) :
  fold_case f = fold_case g ->
  extractArchFromFilename f = extractArchFromFilename g.
Proof.
  intros H. rewrite <- (arch_of_folded f), <- (arch_of_folded g), H.
  reflexivity.
Qed.

Lemma arch_ignores_case_witness :
  fold_case "App-AArch64.DMG" = fold_case "app-aarch64.dmg" /\
  extractArchFromFilename "App-AArch64.DMG"
  = extractArchFromFilename "app-aarch64.dmg".
Proof.
  split; [reflexivity|].
  apply (arch_ignores_case "App-AArch64.DMG" "app-aarch64.dmg"). reflexivity.
Defined.

(** ** Overlapping tokens *)

Lemma char_eq_refl ci c : Str.char_eq ci c c = true.
Proof. unfold Str.char_eq. destruct ci; apply Ascii.eqb_refl. Qed.

Lemma starts_with_self ci tok rest : Str.starts_with ci tok (tok ++ rest) = true.
Proof.
  induction tok as [|c tok IH]; [reflexivity|].
  simpl. rewrite char_eq_refl, IH. reflexivity.
Qed.

Lemma includes_inside ci tok before rest :
  Str.includes ci tok (before ++ tok ++ rest) = true.
Proof.
  induction before as [|c before IH].
  - simpl. destruct (tok ++ rest) eqn:E; cbn [Str.includes];
      rewrite <- E, starts_with_self; reflexivity.
  - change (String c before ++ tok ++ rest)
      with (String c (before ++ tok ++ rest)).
    cbn [Str.includes]. rewrite IH. apply orb_true_r.
Qed.

(** X4. The patterns are tried in a fixed order, so a name in which the
    token x86_64 occurs is tagged x64 (or arm64, when an arm token occurs
    as well), never ia32, although x86 is a part of x86_64. *)
Theorem x86_64_is_not_ia32 (before rest : string) :
  extractArchFromFilename (before ++ "x86_64" ++ rest) = Some "arm64" \/
  extractArchFromFilename (before ++ "x86_64" ++ rest) = Some "x64".
Proof.
  rewrite extractArch_tokens.
  unfold arch_by_tokens, arch_groups, first_group.
  destruct (mentions ["arm64"; "aarch64"] (before ++ "x86_64" ++ rest));
    [left; reflexivity|].
  right. unfold mentions. cbn [existsb].
  rewrite (includes_inside true "x86_64" before rest), orb_true_r.
  reflexivity.
Qed.

(** ** The assembly stage in full *)

Lemma console_only (tr : list Event) :
  Forall (fun e => is_console_event e = true) tr ->
  filter is_fs_event tr = [] /\ filter is_child_event tr = [] /\
  milestones tr = [] /\ targets tr = [].
Proof.
  induction 1 as [|e tr He _ (H1 & H2 & H3 & H4)]; [auto|].
  unfold milestones, targets in *. simpl.
  destruct e; try discriminate He; simpl; auto.
Qed.

Lemma bind_logger_console {B} o message (f : unit -> M B) w n tr n' r :
  bind (logger o message) f w n = (tr, n', r) ->
  exists lg tr2,
    f tt w n = (tr2, n', r) /\ tr = (lg ++ tr2)%list /\
    Forall (fun e => is_console_event e = true) lg.
Proof.
  intros E. apply bind_inv in E.
  destruct (logger_run o message w n) as (lg & El & _ & _ & Hc).
  destruct E as [(e & E1 & _) | (tr1 & n1 & [] & tr2 & E1 & E2 & ->)];
    rewrite El in E1; inversion E1; subst.
  exists tr1, tr2. auto.
Qed.

Lemma fs_console (lg tr : list Event) :
  Forall (fun e => is_console_event e = true) lg ->
  filter is_fs_event (lg ++ tr) = filter is_fs_event tr.
Proof.
  intros H. rewrite filter_app. destruct (console_only lg H) as (-> & _).
  reflexivity.
Qed.

Ltac logstep E lg Hlg :=
  apply bind_logger_console in E;
  let t := fresh "t" in
  destruct E as (lg & t & E & -> & Hlg).

(** Resolving the notes, in full. *)
Lemma notes_run o w n :
  match releaseNotes o with
  | Some text => ret (Some text)
  | None => readReleaseNotes (releaseNotesPath o)
  end w n = (notes_reads o, n, resolve_notes w o).
Proof.
  unfold notes_reads, resolve_notes, readReleaseNotes.
  destruct (releaseNotes o) as [text|]; [reflexivity|].
  destruct (releaseNotesPath o) as [file|]; [|reflexivity].
  destruct (Str.truthy file); [|reflexivity].
  unfold try_catch, bind, perform, ret, throw.
  destruct (fileContent w file); reflexivity.
Qed.

Lemma arch_truthy filename :
  (if Str.truthy_opt (extractArchFromFilename filename)
   then extractArchFromFilename filename else None)
  = extractArchFromFilename filename.
Proof.
  unfold extractArchFromFilename.
  repeat match goal with
         | |- context [if is_match ?m then _ else _] => destruct (is_match m)
         end; reflexivity.
Qed.

Section Inspection.
Variable w : World.
Variable o : CreateMetadataOptions.
Variable baseUrl : string.

Lemma inspect_start_one total i d n :
  exists lg,
    inspect_start (logger o) total i d w n
    = ((lg ++ [CreateReadStream d; Stat d])%list, n, Ok tt) /\
    Forall (fun e => is_console_event e = true) lg.
Proof.
  unfold inspect_start, getFileInfo_start, bind, emit, logger, when,
    console_log, ret.
  destruct (default false (verbose o)); eexists; split;
    try reflexivity; repeat constructor.
Qed.

Lemma inspect_start_run total ds : forall i n tr n' r,
  for_each (inspect_start (logger o) total) i ds w n = (tr, n', r) ->
  n' = n /\ r = Ok tt /\ filter is_fs_event tr = inspection_calls ds.
Proof.
  induction ds as [|d ds IH]; intros i n tr n' r E; simpl in E.
  - inversion E; subst. auto.
  - unfold bind in E.
    destruct (inspect_start_one total i d n) as (lg & El & Hlg).
    rewrite El in E.
    destruct (for_each (inspect_start (logger o) total) (S i) ds w n)
      as [[t2 n2] r2] eqn:E2.
    apply IH in E2. destruct E2 as (-> & -> & Hfs).
    inversion E; subst. rewrite <- app_assoc, fs_console by exact Hlg.
    simpl. rewrite Hfs. auto.
Qed.

Lemma inspect_finish_run i d n tr n' r :
  inspect_finish (logger o) baseUrl i d w n = (tr, n', r) ->
  n' = n /\ r = entry_of w baseUrl d /\ filter is_fs_event tr = [].
Proof.
  unfold inspect_finish, getFileInfo_settle, entry_of, entry_url, bind,
    settle, ret, logger, when, console_log, emit.
  destruct (promise_all2 _ _ _) as [[h sz]|e];
    [|intros E; inversion E; subst; auto].
  rewrite arch_truthy.
  destruct (default false (verbose o)); intros E; inversion E; subst; auto.
Qed.

Lemma inspect_finish_all order : forall i n tr n' r,
  map_each
    (fun _ callback =>
       entry <- inspect_finish (logger o) baseUrl (fst callback)
                  (snd callback) ;;
       ret (fst callback, entry))
    i order w n = (tr, n', r) ->
  n' = n /\ r = settle_in_order w baseUrl order /\
  filter is_fs_event tr = [].
Proof.
  induction order as [|c order IH]; intros i n tr n' r E; simpl in E.
  - inversion E; subst. auto.
  - apply bind_inv in E.
    destruct E as [(e & E1 & ->) | (t1 & n1 & entry & t2 & E1 & E & ->)].
    + apply bind_inv in E1.
      destruct E1 as [(e' & E1 & He) | (t3 & n3 & en & t4 & E1 & E3 & _)];
        [|inversion E3].
      inversion He; subst.
      apply inspect_finish_run in E1. destruct E1 as (-> & He' & Hfs).
      simpl. rewrite <- He'. auto.
    + apply bind_inv in E1.
      destruct E1 as [(e' & E1 & He) | (t3 & n3 & en & t4 & E1 & E3 & ->)];
        [discriminate He|].
      inversion E3; subst.
      apply inspect_finish_run in E1. destruct E1 as (-> & He' & Hfs).
      rewrite app_nil_r.
      apply bind_inv in E.
      destruct E as [(e & E2 & ->) | (t5 & n5 & settled & t6 & E2 & E & ->)].
      * apply IH in E2. destruct E2 as (-> & Hes & Hfs2).
        simpl. rewrite <- He', <- Hes, filter_app, Hfs, Hfs2. auto.
      * apply IH in E2. destruct E2 as (-> & Hes & Hfs2).
        inversion E; subst.
        simpl. rewrite <- He', <- Hes, !filter_app, Hfs, Hfs2. auto.
Qed.

Lemma inspect_all_run ds n tr n' r :
  inspect_all (logger o) baseUrl ds w n = (tr, n', r) ->
  n' = n /\ r = entries_of w baseUrl ds /\
  filter is_fs_event tr = inspection_calls ds.
Proof.
  unfold inspect_all, entries_of. intros E. apply bind_inv in E.
  destruct E as [(e & E1 & _) | (t1 & n1 & [] & t2 & E1 & E & ->)].
  { apply inspect_start_run in E1. destruct E1 as (_ & H & _). discriminate H. }
  apply inspect_start_run in E1. destruct E1 as (-> & _ & Hfs).
  apply bind_inv in E.
  destruct E as [(e & E1 & _) | (t3 & n3 & order & t4 & E1 & E & ->)];
    [discriminate E1|].
  inversion E1; subst; clear E1.
  apply bind_inv in E.
  destruct E as [(e & E2 & ->) | (t5 & n5 & settled & t6 & E2 & E & ->)].
  - apply inspect_finish_all in E2. destruct E2 as (-> & <- & Hfs2).
    simpl. rewrite filter_app, Hfs, Hfs2, app_nil_r. auto.
  - apply inspect_finish_all in E2. destruct E2 as (-> & <- & Hfs2).
    inversion E; subst.
    simpl. rewrite !filter_app, Hfs, Hfs2, !app_nil_r. auto.
Qed.

End Inspection.

Lemma notes_reads_fs o : filter is_fs_event (notes_reads o) = notes_reads o.
Proof.
  unfold notes_reads. destruct (releaseNotes o); [reflexivity|].
  destruct (releaseNotesPath o) as [f|]; [|reflexivity].
  destruct (Str.truthy f); reflexivity.
Qed.

(** The assembly stage, in full: its outcome and its file-system calls
    are those the world determines. *)
Lemma assemble_run o w n tr n' r :
  assemble o w n = (tr, n', r) ->
  n' = n /\ r = assembled w o /\ filter is_fs_event tr = assembly_calls w o.
Proof.
  unfold assemble, assembled, assembly_calls. intros E.
  logstep E lg1 Hlg1. rewrite fs_console by exact Hlg1.
  apply bind_inv in E. rewrite notes_run in E.
  destruct E as [(e & E1 & ->) | (t1 & n1 & notes & t2 & E1 & E & ->)];
    inversion E1; subst; clear E1.
  { rewrite H2, notes_reads_fs, app_nil_r. auto. }
  rewrite H2.
  logstep E lg2 Hlg2. logstep E lg3 Hlg3.
  rewrite filter_app, notes_reads_fs, !fs_console by assumption.
  apply bind_inv in E.
  destruct E as [(e & E1 & ->) | (t3 & n3 & entries & t4 & E1 & E & ->)];
    apply inspect_all_run in E1; destruct E1 as (-> & He & Hfs).
  { rewrite <- He, Hfs. auto. }
  rewrite <- He.
  logstep E lg4 Hlg4. logstep E lg5 Hlg5.
  apply bind_inv in E.
  destruct E as [(e & E1 & _) | (t5 & n5 & date & t6 & E1 & E & ->)];
    unfold settle in E1; inversion E1; subst; clear E1.
  apply bind_inv in E.
  assert (Hw : exists lg6,
             when (default false (autoUpdaterCompat o)
                   && (0 <? Datatypes.length entries)%nat)
               (logger o "Adding auto-updater compatibility fields") w n5
             = (lg6, n5, Ok tt)
             /\ Forall (fun e => is_console_event e = true) lg6).
  { unfold when. destruct (_ && _).
    - destruct (logger_run o "Adding auto-updater compatibility fields" w n5)
        as (lg & El & _ & _ & Hc). eauto.
    - exists []. split; [reflexivity | constructor]. }
  destruct Hw as (lg6 & Ew & Hlg6). rewrite Ew in E.
  destruct E as [(e & E1 & _) | (t7 & n7 & [] & t8 & E1 & E & ->)];
    inversion E1; subst; clear E1.
  unfold ret in E. inversion E; subst; clear E.
  split; [reflexivity|]. split; [reflexivity|].
  rewrite !filter_app.
  destruct (console_only _ Hlg4) as (-> & _).
  destruct (console_only _ Hlg5) as (-> & _).
  destruct (console_only _ Hlg6) as (-> & _).
  rewrite Hfs. simpl. rewrite !app_nil_r. reflexivity.
Qed.

(** ** The run, stage by stage *)

(** The persistence stage, in full. *)
Lemma persist_run o manifest w n tr n' r :
  persist o manifest w n = (tr, n', r) ->
  n' = n /\ r = persisted w o /\
  filter is_fs_event tr = persist_calls w o manifest /\
  milestones tr = persist_calls w o manifest /\
  filter is_child_event tr = [].
Proof.
  unfold persist, persisted, persist_calls, milestones, bind, perform, logger,
    when, console_log, emit, ret.
  destruct (mkdirResult w (default "." (outputDir o))) as [[]|e];
    [destruct (writeResult w (manifest_file o)) as [[]|e']|];
    destruct (default false (verbose o)); intros E; inversion E; subst;
    simpl; auto.
Qed.

Lemma no_fs_events (tr : list Event) :
  Forall (fun e => is_fs_event e = false) tr -> filter is_fs_event tr = [].
Proof.
  induction 1 as [|e tr He _ IH]; [reflexivity|]. simpl. rewrite He. exact IH.
Qed.

Lemma sign_all_no_fs o key file w n tr n' r :
  sign_all o key file w n = (tr, n', r) -> filter is_fs_event tr = [].
Proof.
  intros E. apply no_fs_events.
  assert (H : sat w (fun e => is_fs_event e = false) (fun f => f = file)
                (sign_all o key file)).
  { apply sat_sign_all; try reflexivity.
    intros k f cr _. apply Forall_child_protocol.
    intros e He. destruct e; try discriminate He; reflexivity. }
  exact (proj1 (H _ _ _ _ E)).
Qed.

Lemma quiet_no_fs_milestone (tr : list Event) :
  Forall quiet_event tr ->
  milestones tr = [] /\ filter is_child_event tr = [].
Proof.
  induction 1 as [|e tr [Hc Hm] _ [IH1 IH2]]; [auto|].
  unfold milestones in *. simpl. rewrite Hc, Hm. auto.
Qed.

(** A run, stage by stage: what each stage does is what the world
    determines, and a stage runs only if the one before succeeded. *)
Lemma pipeline_stages o w tr r :
  run_pipeline o w = (tr, r) ->
  exists lg,
    Forall (fun e => is_console_event e = true) lg /\
    ((valid o = false /\ tr = lg /\ r = Throw (validation_error o)) \/
     (valid o = true /\
      exists ta,
        Forall quiet_event ta /\
        filter is_fs_event ta = assembly_calls w o /\
        match assembled w o with
        | Throw e => tr = (lg ++ ta)%list /\ r = Throw e
        | Ok manifest =>
            exists tp,
              filter is_fs_event tp = persist_calls w o manifest /\
              milestones tp = persist_calls w o manifest /\
              filter is_child_event tp = [] /\
              match persisted w o with
              | Throw e => tr = (lg ++ ta ++ tp)%list /\ r = Throw e
              | Ok _ =>
                  exists ts ns,
                    sign_all o (default EmptyString (secretKeyPath o))
                      (manifest_file o) w 0 = (ts, ns, r) /\
                    tr = (lg ++ ta ++ tp ++ ts)%list
              end
        end)).
Proof.
  unfold run_pipeline.
  destruct (createReleaseMetadata o w 0) as [[tr0 n0] r0] eqn:E.
  intros E0. inversion E0; subst; clear E0.
  rewrite createReleaseMetadata_staged in E. unfold staged in E.
  apply bind_logger_console in E. destruct E as (lg & t1 & E & -> & Hlg).
  exists lg. split; [exact Hlg|].
  unfold valid, validation_error.
  destruct (distributables o) as [|d ds] eqn:Hds.
  { simpl in E. inversion E; subst. left. rewrite app_nil_r. auto. }
  simpl in E. simpl negb.
  destruct (Str.truthy_opt (secretKeyPath o)).
  2:{ simpl in E. inversion E; subst. left. rewrite app_nil_r. auto. }
  simpl in E. right. split; [reflexivity|].
  apply bind_inv in E.
  destruct E as [(e & E1 & ->) | (ta & n1 & m & t2 & E1 & E & ->)].
  { exists t1. destruct (assemble_quiet w o _ _ _ _ E1) as (Fa & _ & _).
    apply assemble_run in E1. destruct E1 as (_ & <- & Hfs). auto. }
  exists ta. destruct (assemble_quiet w o _ _ _ _ E1) as (Fa & _ & _).
  apply assemble_run in E1. destruct E1 as (-> & <- & Hfs).
  split; [exact Fa|]. split; [exact Hfs|].
  apply bind_inv in E.
  destruct E as [(e & E1 & ->) | (tp & n2 & f & t3 & E1 & E & ->)].
  { exists t2. apply persist_run in E1.
    destruct E1 as (_ & <- & H1 & H2 & H3). auto. }
  exists tp. apply persist_run in E1.
  destruct E1 as (-> & Hp & H1 & H2 & H3). rewrite <- Hp.
  split; [exact H1|]. split; [exact H2|]. split; [exact H3|].
  assert (f = manifest_file o) as ->.
  { unfold persisted in Hp.
    destruct (mkdirResult w _); [|discriminate].
    destruct (writeResult w _); [|discriminate]. congruence. }
  exists t3, n0. auto.
Qed.

(** Every manifest a run writes is the one the world determines. *)
Lemma written_is_assembled o w file m :
  In (WriteFile file (stringify m)) (fst (run_pipeline o w)) ->
  assembled w o = Ok m.
Proof.
  destruct (run_pipeline o w) as [tr r] eqn:E. simpl. intros Hin.
  apply pipeline_stages in E. destruct E as (lg & Hlg & E).
  assert (Hnl : ~ In (WriteFile file (stringify m)) lg).
  { intros H. rewrite Forall_forall in Hlg. discriminate (Hlg _ H). }
  destruct E as [(_ & -> & _) | (_ & ta & Fa & _ & E)]; [contradiction|].
  assert (Hna : ~ In (WriteFile file (stringify m)) ta).
  { intros H. rewrite Forall_forall in Fa. destruct (Fa _ H) as [_ Hm].
    discriminate Hm. }
  destruct (assembled w o) as [manifest|e].
  2:{ destruct E as (-> & _). apply in_app_or in Hin. tauto. }
  destruct E as (tp & _ & Hmp & _ & E).
  assert (Hp : In (WriteFile file (stringify m)) tp -> manifest = m).
  { intros H. pose proof (In_milestones _ _ H eq_refl) as Hin2.
    rewrite Hmp in Hin2. unfold persist_calls in Hin2.
    destruct Hin2 as [H0 | H0]; [discriminate H0|].
    destruct (mkdirResult w _); [|destruct H0].
    destruct H0 as [H0 | []]. inversion H0. reflexivity. }
  destruct (persisted w o) as [f|e].
  - destruct E as (ts & ns & Es & ->).
    apply in_app_or in Hin. destruct Hin as [Hin | Hin]; [contradiction|].
    apply in_app_or in Hin. destruct Hin as [Hin | Hin]; [contradiction|].
    apply in_app_or in Hin. destruct Hin as [Hin | Hin];
      [rewrite (Hp Hin); reflexivity|].
    exfalso. apply sign_all_no_fs in Es.
    assert (Hf : In (WriteFile file (stringify m)) (filter is_fs_event ts))
      by (apply filter_In; auto).
    rewrite Es in Hf. destruct Hf.
  - destruct E as (-> & _).
    apply in_app_or in Hin. destruct Hin as [Hin | Hin]; [contradiction|].
    apply in_app_or in Hin. destruct Hin as [Hin | Hin]; [contradiction|].
    rewrite (Hp Hin). reflexivity.
Qed.

(** ** The manifest that is written *)

Lemma entry_of_ok w baseUrl d entry :
  entry_of w baseUrl d = Ok entry ->
  fileDigest w d = Ok (ReleaseFile.sha512 entry) /\
  fileSize w d = Ok (ReleaseFile.size entry) /\
  ReleaseFile.arch entry = extractArchFromFilename (Path.basename d).
Proof.
  unfold entry_of, promise_all2.
  destruct (fileDigest w d); [|destruct (fileSize w d); discriminate].
  destruct (fileSize w d); [|discriminate].
  intros E. inversion E. auto.
Qed.

Lemma entry_of_throw w baseUrl d msg :
  entry_of w baseUrl d = Throw msg ->
  fileDigest w d = Throw msg \/ fileSize w d = Throw msg.
Proof.
  unfold entry_of, promise_all2.
  destruct (fileDigest w d), (fileSize w d); try discriminate;
    try (intros E; inversion E; auto).
  destruct (statFirst w d); inversion E; auto.
Qed.

Lemma entry_of_fails w baseUrl d e :
  fileDigest w d = Throw e \/ fileSize w d = Throw e ->
  exists msg, entry_of w baseUrl d = Throw msg.
Proof.
  unfold entry_of, promise_all2.
  intros [H | H]; rewrite H; destruct (fileDigest w d), (fileSize w d);
    try discriminate H; eauto.
Qed.

Lemma settle_in_order_ok w baseUrl order : forall settled,
  settle_in_order w baseUrl order = Ok settled ->
  Forall2
    (fun c r => fst r = fst c /\ entry_of w baseUrl (snd c) = Ok (snd r))
    order settled.
Proof.
  induction order as [|c order IH]; intros settled; simpl.
  - intros E. inversion E. constructor.
  - destruct (entry_of w baseUrl (snd c)) as [e|] eqn:Ee; [|discriminate].
    destruct (settle_in_order w baseUrl order) as [es|]; [|discriminate].
    intros E. inversion E; subst. constructor; auto.
Qed.

Lemma settle_in_order_throw w baseUrl order msg :
  settle_in_order w baseUrl order = Throw msg ->
  exists c, In c order /\ entry_of w baseUrl (snd c) = Throw msg.
Proof.
  induction order as [|c order IH]; simpl; [discriminate|].
  destruct (entry_of w baseUrl (snd c)) as [e|e] eqn:Ee.
  - destruct (settle_in_order w baseUrl order) as [es|e']; [discriminate|].
    intros E. inversion E; subst. destruct (IH eq_refl) as (c' & Hin & H).
    exists c'. auto.
  - intros E. inversion E; subst. exists c. auto.
Qed.

Lemma settle_in_order_fails w baseUrl order c e :
  In c order -> entry_of w baseUrl (snd c) = Throw e ->
  exists msg, settle_in_order w baseUrl order = Throw msg.
Proof.
  induction order as [|c' order IH]; intros Hin Hf; [destruct Hin|].
  simpl. destruct (entry_of w baseUrl (snd c')) as [en|msg] eqn:Ee; [|eauto].
  destruct Hin as [-> | Hin]; [congruence|].
  destruct (IH Hin Hf) as [msg ->]. eauto.
Qed.

Lemma entries_of_ok w baseUrl ds entries :
  entries_of w baseUrl ds = Ok entries ->
  Forall2 (fun d e => entry_of w baseUrl d = Ok e) ds entries.
Proof.
  unfold entries_of.
  destruct (settle_in_order w baseUrl (completion_order w ds))
    as [settled|] eqn:E; [|discriminate].
  intros H. inversion H; subst.
  eapply results_in_input_order;
    [apply completion_order_perm | apply settle_in_order_ok, E].
Qed.

Lemma entries_of_throw w baseUrl ds msg :
  entries_of w baseUrl ds = Throw msg ->
  exists d, In d ds /\
            (fileDigest w d = Throw msg \/ fileSize w d = Throw msg).
Proof.
  unfold entries_of.
  destruct (settle_in_order w baseUrl (completion_order w ds))
    as [settled|e] eqn:E; [discriminate|].
  intros H. inversion H; subst.
  apply settle_in_order_throw in E. destruct E as (c & Hin & Hc).
  exists (snd c). split; [eapply completion_order_In, Hin|].
  eapply entry_of_throw, Hc.
Qed.

Lemma entries_of_fails w baseUrl ds d e :
  In d ds -> (fileDigest w d = Throw e \/ fileSize w d = Throw e) ->
  exists msg, entries_of w baseUrl ds = Throw msg.
Proof.
  intros Hin Hf. unfold entries_of.
  destruct (In_completion_order w ds d Hin) as (j & Hj).
  destruct (entry_of_fails w baseUrl d e Hf) as (msg & Hmsg).
  destruct (settle_in_order_fails w baseUrl _ (j, d) msg Hj Hmsg)
    as (msg' & ->).
  eauto.
Qed.

Lemma assembled_files w o m :
  assembled w o = Ok m ->
  entries_of w (default "" (baseUrl o)) (distributables o)
  = Ok (ReleaseManifest.files m).
Proof.
  unfold assembled. destruct (resolve_notes w o); [|discriminate].
  destruct (entries_of w _ _) as [es|]; [|discriminate].
  intros E. inversion E. rewrite build_manifest_files. reflexivity.
Qed.

(** X5. In every run that writes a manifest, the files list of the
    manifest has one entry per artifact, in input order, and the sha512
    and size of each entry are the digest and the size the file system
    reported for that artifact. *)
Theorem files_mirror_artifacts (o : CreateMetadataOptions) (w : World)
  file m :
  In (WriteFile file (stringify m)) (fst (run_pipeline o w)) ->
  Forall2
    (fun d entry =>
       fileDigest w d = Ok (ReleaseFile.sha512 entry) /\
       fileSize w d = Ok (ReleaseFile.size entry))
    (distributables o) (ReleaseManifest.files m).
Proof.
  intros Hin. apply written_is_assembled in Hin.
  apply assembled_files, entries_of_ok in Hin.
  eapply Forall2_impl; [|exact Hin]. intros d e E.
  apply entry_of_ok in E. tauto.
Qed.

(** X6. In every run that writes a manifest, the arch field of each
    entry is what [extractArchFromFilename] gives for the base name of
    its artifact (directories of the path play no part), and is absent
    when that gives nothing. *)
Theorem entry_arch_from_basename (o : CreateMetadataOptions) (w : World)
  file m :
  In (WriteFile file (stringify m)) (fst (run_pipeline o w)) ->
  Forall2
    (fun d entry =>
       ReleaseFile.arch entry = extractArchFromFilename (Path.basename d))
    (distributables o) (ReleaseManifest.files m).
Proof.
  intros Hin. apply written_is_assembled in Hin.
  apply assembled_files, entries_of_ok in Hin.
  eapply Forall2_impl; [|exact Hin]. intros d e E.
  apply entry_of_ok in E. tauto.
Qed.

(** X7. In every run that writes a manifest, the manifest's version is
    the given appVersion when there is one (even an empty one); if not,
    the version extracted from the base name of the first artifact; and
    1.0.0 when that yields nothing. *)
Theorem version_resolution (o : CreateMetadataOptions) (w : World) file m :
  In (WriteFile file (stringify m)) (fst (run_pipeline o w)) ->
  exists first rest,
    distributables o = first :: rest /\
    ReleaseManifest.version m
    = match appVersion o with
      | Some v => v
      | None =>
          match extractVersionFromFilename (Path.basename first) with
          | Some v => v
          | None => "1.0.0"
          end
      end.
Proof.
  intros Hin. destruct (written_manifest o w _ _ Hin) as (_ & Hv & Hm).
  destruct Hm as (entries & notes & -> & _ & _).
  unfold valid in Hv. destruct (distributables o) as [|d ds] eqn:Hds;
    [discriminate Hv|].
  exists d, ds. split; [reflexivity|].
  unfold build_manifest, effective_version. rewrite Hds.
  destruct (default false (autoUpdaterCompat o) && _); [|reflexivity].
  destruct entries; reflexivity.
Qed.

(** X8. In every run that writes a manifest, the schema version is 1,
    no release name is set, the release date is the time of the run, and
    the updater version is the given one, 1.0.0 by default. *)
Theorem manifest_header (o : CreateMetadataOptions) (w : World) file m :
  In (WriteFile file (stringify m)) (fst (run_pipeline o w)) ->
  ReleaseManifest.schemaVersion m = 1%Z /\
  ReleaseManifest.releaseName m = None /\
  ReleaseManifest.releaseDate m = now w /\
  ReleaseManifest.updaterVersion m
  = match updaterVersion o with
    | Some v => v
    | None => "1.0.0"
    end.
Proof.
  intros Hin. destruct (written_manifest o w _ _ Hin) as (_ & _ & Hm).
  destruct Hm as (entries & notes & -> & _ & _).
  unfold build_manifest.
  destruct (default false (autoUpdaterCompat o) && _);
    [destruct entries|]; repeat split.
Qed.

(** ** Failures before signing *)

Lemma console_prefix_fs (lg tr : list Event) :
  Forall (fun e => is_console_event e = true) lg ->
  filter is_fs_event (lg ++ tr) = filter is_fs_event tr /\
  filter is_child_event (lg ++ tr) = filter is_child_event tr /\
  milestones (lg ++ tr) = milestones tr.
Proof.
  intros H. destruct (console_only lg H) as (H1 & H2 & H3 & _).
  unfold milestones in *. rewrite !filter_app, H1, H2, H3. auto.
Qed.

(** X9. When the release notes are to be read from a file (no inline
    notes, a non-empty path) and reading it fails, a run that passed
    validation rejects with the text "Failed to read release notes from
    <path>: <cause>"; the only file-system call of the run is that read,
    and no signer is started. *)
Theorem unreadable_notes_abort (o : CreateMetadataOptions) (w : World)
  (file e : string) :
  valid o = true ->
  releaseNotes o = None -> releaseNotesPath o = Some file ->
  Str.truthy file = true -> fileContent w file = Throw e ->
  snd (run_pipeline o w)
  = Throw ("Failed to read release notes from " ++ file ++ ": " ++ e) /\
  filter is_fs_event (fst (run_pipeline o w)) = [ReadFile file] /\
  filter is_child_event (fst (run_pipeline o w)) = [].
Proof.
  intros Hv Hn Hp Ht He.
  destruct (run_pipeline o w) as [tr r] eqn:E. simpl.
  apply pipeline_stages in E. destruct E as (lg & Hlg & E).
  destruct E as [(Hv' & _) | (_ & ta & Fa & Hfs & E)]; [congruence|].
  assert (Hr : resolve_notes w o
               = Throw ("Failed to read release notes from " ++ file ++ ": "
                        ++ e)).
  { unfold resolve_notes. rewrite Hn, Hp, Ht, He. reflexivity. }
  unfold assembled in E. unfold assembly_calls in Hfs. rewrite Hr in E, Hfs.
  destruct E as (-> & ->).
  destruct (console_prefix_fs lg ta Hlg) as (-> & -> & _).
  destruct (quiet_no_fs_milestone ta Fa) as (_ & ->).
  rewrite Hfs. unfold notes_reads. rewrite Hn, Hp, Ht. auto.
Qed.

(** X10. When hashing or stat'ing some artifact fails (and the release
    notes could be resolved), the run rejects with the error of a failed
    operation on some artifact: which one is a matter of which fails
    first in time, whatever the order in which the inspections settle.
    Every artifact has been opened and stat'ed all the same, in input
    order; no directory is made, no manifest written and no signer
    started. *)
Theorem failed_inspection_aborts (o : CreateMetadataOptions) (w : World)
  (notes : option string) (d e : string) :
  valid o = true ->
  resolve_notes w o = Ok notes ->
  In d (distributables o) ->
  fileDigest w d = Throw e \/ fileSize w d = Throw e ->
  (exists msg d',
     snd (run_pipeline o w) = Throw msg /\ In d' (distributables o) /\
     (fileDigest w d' = Throw msg \/ fileSize w d' = Throw msg)) /\
  filter is_fs_event (fst (run_pipeline o w))
  = (notes_reads o ++ inspection_calls (distributables o))%list /\
  milestones (fst (run_pipeline o w)) = [] /\
  filter is_child_event (fst (run_pipeline o w)) = [].
Proof.
  intros Hv Hn Hin Hf.
  destruct (run_pipeline o w) as [tr r] eqn:E. simpl.
  apply pipeline_stages in E. destruct E as (lg & Hlg & E).
  destruct E as [(Hv' & _) | (_ & ta & Fa & Hfs & E)]; [congruence|].
  destruct (entries_of_fails w (default "" (baseUrl o)) _ _ _ Hin Hf)
    as [msg Hmsg].
  unfold assembled in E. unfold assembly_calls in Hfs.
  rewrite Hn in E, Hfs. rewrite Hmsg in E. destruct E as (-> & ->).
  destruct (console_prefix_fs lg ta Hlg) as (-> & -> & ->).
  destruct (quiet_no_fs_milestone ta Fa) as (-> & ->).
  split; [|auto]. apply entries_of_throw in Hmsg.
  destruct Hmsg as (d' & Hd' & H). exists msg, d'. auto.
Qed.

(** X11. When the manifest could be assembled but making the output
    directory or writing the manifest fails, the run rejects with that
    very error (it is not wrapped); the write is attempted only if the
    directory could be made; and no signer is started. *)
Theorem failed_persist_aborts (o : CreateMetadataOptions) (w : World)
  (manifest : ReleaseManifest.t) (e : string) :
  valid o = true ->
  assembled w o = Ok manifest ->
  persisted w o = Throw e ->
  snd (run_pipeline o w) = Throw e /\
  milestones (fst (run_pipeline o w))
  = Mkdir (default "." (outputDir o))
    :: match mkdirResult w (default "." (outputDir o)) with
       | Ok _ => [WriteFile (manifest_file o) (stringify manifest)]
       | Throw _ => []
       end /\
  filter is_child_event (fst (run_pipeline o w)) = [].
Proof.
  intros Hv Ha Hp.
  destruct (run_pipeline o w) as [tr r] eqn:E. simpl.
  apply pipeline_stages in E. destruct E as (lg & Hlg & E).
  destruct E as [(Hv' & _) | (_ & ta & Fa & Hfs & E)]; [congruence|].
  rewrite Ha in E. destruct E as (tp & _ & Hmp & Hcp & E).
  rewrite Hp in E. destruct E as (-> & ->).
  destruct (console_prefix_fs lg (ta ++ tp) Hlg) as (_ & -> & ->).
  destruct (quiet_no_fs_milestone ta Fa) as (Hma & Hca).
  unfold milestones in *. rewrite !filter_app, Hma, Hca, Hmp, Hcp. auto.
Qed.

(** X12. The file-system calls of a successful run are exactly these, in
    this order: the read of the release notes file (if one is to be
    read), for each artifact in input order its opening for hashing and
    its stat, the making of the output directory, and the writing of the
    manifest. Signing adds no file-system call of the orchestrator. *)
Theorem file_system_footprint (o : CreateMetadataOptions) (w : World)
  (tr : list Event) (result : string) :
  run_pipeline o w = (tr, Ok result) ->
  exists manifest,
    assembled w o = Ok manifest /\
    filter is_fs_event tr
    = (notes_reads o ++ inspection_calls (distributables o)
       ++ [Mkdir (default "." (outputDir o));
           WriteFile (manifest_file o) (stringify manifest)])%list.
Proof.
  intros E. apply pipeline_stages in E. destruct E as (lg & Hlg & E).
  destruct E as [(_ & _ & Hr) | (_ & ta & Fa & Hfs & E)]; [discriminate Hr|].
  destruct (assembled w o) as [manifest|e] eqn:Ha;
    [|destruct E as (_ & Hr); discriminate Hr].
  destruct E as (tp & Hfp & _ & _ & E).
  destruct (persisted w o) as [f|e] eqn:Hp;
    [|destruct E as (_ & Hr); discriminate Hr].
  destruct E as (ts & ns & Es & ->).
  exists manifest. split; [reflexivity|].
  destruct (console_prefix_fs lg (ta ++ tp ++ ts) Hlg) as (-> & _).
  rewrite !filter_app, Hfs, Hfp, (sign_all_no_fs _ _ _ _ _ _ _ _ Es).
  unfold assembly_calls, persist_calls, assembled in *.
  destruct (resolve_notes w o); [|discriminate Ha].
  unfold persisted in Hp. destruct (mkdirResult w _); [|discriminate Hp].
  rewrite app_nil_r, <- app_assoc. reflexivity.
Qed.

(** ** Failure and success of signing *)

(** X13. When a signer ends with a status other than zero, the output
    directory has been made and the manifest written before, and every
    file before the failing one (the manifest first, then the artifacts
    in input order) has been signed to the end: nothing is rolled back,
    and the failing signer's exit is the last progress event. *)
Theorem signer_failure_keeps_output (o : CreateMetadataOptions) (w : World)
  (tr : list Event) (r : outcome string) (pid : nat) (code : option Z) :
  run_pipeline o w = (tr, r) ->
  In (Close pid code) tr -> is_zero code = false ->
  exists manifest f,
    nth_error (manifest_file o :: distributables o) pid = Some f /\
    milestones tr
    = (Mkdir (default "." (outputDir o))
       :: WriteFile (manifest_file o) (stringify manifest)
       :: all_signed (default EmptyString (secretKeyPath o)) (password o) 0
            (firstn pid (manifest_file o :: distributables o))
       ++ [Spawn pid "minisign"
             (sign_args f (default EmptyString (secretKeyPath o)))
             (strategy (password o)) inherit inherit;
           Close pid code])%list.
Proof.
  intros E Hin Hcode. apply pipeline_shape in E.
  destruct E as [(Hc & _) | (pre & m & t3 & n' & -> & Hc & Hm & Qm & E)].
  { destruct (no_child_events _ Hc) as [_ Hno]. exfalso. exact (Hno _ _ Hin). }
  destruct (no_child_events _ Hc) as [Htp Hno].
  assert (Hin3 : In (Close pid code) (milestones t3)).
  { apply In_milestones; [|reflexivity]. apply in_app_or in Hin.
    destruct Hin as [Hin | Hin]; [exfalso; exact (Hno _ _ Hin) | exact Hin]. }
  destruct r as [result | msg].
  - apply sign_all_ok in E. destruct E as (_ & Hms & _).
    rewrite Hms in Hin3. apply all_signed_closes in Hin3. subst.
    discriminate Hcode.
  - apply sign_all_fail in E.
    destruct E as (j & f & c & pre3 & Hj & Hc3 & Hmsg & Hms & Hts & Htr).
    rewrite Hms in Hin3. apply in_app_or in Hin3.
    destruct Hin3 as [Hin3 | [Hin3 | [Hin3 | []]]].
    + apply all_signed_closes in Hin3. subst. discriminate Hcode.
    + discriminate Hin3.
    + inversion Hin3; subst. simpl in *.
      exists m, f. split; [exact Hj|].
      rewrite milestones_app, Hm, Hms. reflexivity.
Qed.

Section Calm.
Variable w : World.
Variable o : CreateMetadataOptions.
Variable key : string.
Hypothesis calm :
  forall pid args input, exitCode (minisign w pid args input) = Some 0%Z.

Lemma sign_outcome_calm n f :
  sign_outcome (password o) (signer_run w n f key (password o)) = Ok tt.
Proof. unfold sign_outcome, signer_run. rewrite calm. reflexivity. Qed.

Lemma sign_loop_calm fs : forall i n tr n' r,
  for_each (sign_one o key) i fs w n = (tr, n', r) -> r = Ok tt.
Proof.
  induction fs as [|f fs IH]; intros i n tr n' r E; simpl in E.
  - inversion E. reflexivity.
  - destruct (sign_one_run w o key i f n) as (lg & E1' & _).
    rewrite sign_outcome_calm in E1'.
    apply bind_inv in E.
    destruct E as [(e & E1 & _) | (tr1 & n1 & [] & tr2 & E1 & E2 & _)].
    + rewrite E1' in E1. discriminate E1.
    + exact (IH _ _ _ _ _ E2).
Qed.

Lemma sign_all_calm file n tr n' r :
  sign_all o key file w n = (tr, n', r) -> r = Ok file.
Proof.
  unfold sign_all. intros E.
  apply bind_logger_console in E. destruct E as (lg1 & t1 & E & _).
  assert (E' : exists t2,
             bind (signFile file key (password o))
               (fun _ =>
                  logger o "Signing distributable files..." ;;
                  for_each (sign_one o key) 0 (distributables o) ;;
                  logger o "Release metadata creation completed successfully!" ;;
                  ret file) w n = (t2, n', r)).
  { destruct (Str.truthy_opt (password o)); apply bind_logger_console in E;
      destruct E as (lg2 & t2 & E & _); eauto. }
  clear E. destruct E' as (t2 & E).
  apply bind_inv in E. rewrite signFile_run, sign_outcome_calm in E.
  destruct E as [(e & E1 & _) | (ts & n1 & [] & t3 & E1 & E & _)];
    [discriminate E1|].
  apply bind_logger_console in E. destruct E as (lg3 & t4 & E & _).
  apply bind_inv in E.
  destruct E as [(e & E1' & _) | (tl & n2 & [] & t5 & _ & E & _)].
  - apply sign_loop_calm in E1'. discriminate E1'.
  - apply bind_logger_console in E. destruct E as (lg4 & t6 & E & _).
    inversion E. reflexivity.
Qed.

End Calm.

Lemma entries_of_succeed w baseUrl ds :
  (forall d, In d ds ->
     exists h s, fileDigest w d = Ok h /\ fileSize w d = Ok s) ->
  exists entries, entries_of w baseUrl ds = Ok entries.
Proof.
  intros H. unfold entries_of.
  assert (Hall : forall c, In c (completion_order w ds) ->
                   exists e, entry_of w baseUrl (snd c) = Ok e).
  { intros c Hc. apply completion_order_In in Hc.
    destruct (H _ Hc) as (h & s & Hh & Hs).
    unfold entry_of, promise_all2. rewrite Hh, Hs. eauto. }
  induction (completion_order w ds) as [|c order IH]; simpl; [eauto|].
  destruct (Hall c (or_introl eq_refl)) as (e & ->).
  destruct IH as [es E]; [intros c' Hc'; apply Hall; right; exact Hc'|].
  destruct (settle_in_order w baseUrl order); [eauto | discriminate].
Qed.

(** X14. A run with at least one artifact and a non-empty key path
    resolves to the path of the manifest whenever the environment does
    not fail it: the notes file (if one is to be read) is readable,
    every artifact can be hashed and stat'ed, the directory can be made
    and the manifest written, and every signer exits with status 0. The
    run has no other way to fail. *)
Theorem run_succeeds_when_world_does (o : CreateMetadataOptions) (w : World) :
  valid o = true ->
  (forall file, releaseNotes o = None -> releaseNotesPath o = Some file ->
     Str.truthy file = true -> exists content, fileContent w file = Ok content) ->
  (forall d, In d (distributables o) ->
     exists h s, fileDigest w d = Ok h /\ fileSize w d = Ok s) ->
  mkdirResult w (default "." (outputDir o)) = Ok tt ->
  writeResult w (manifest_file o) = Ok tt ->
  (forall pid args input, exitCode (minisign w pid args input) = Some 0%Z) ->
  snd (run_pipeline o w) = Ok (manifest_file o).
Proof.
  intros Hv Hnotes Hfiles Hmk Hwr Hcalm.
  destruct (run_pipeline o w) as [tr r] eqn:E. simpl.
  apply pipeline_stages in E. destruct E as (lg & Hlg & E).
  destruct E as [(Hv' & _) | (_ & ta & Fa & Hfs & E)]; [congruence|].
  assert (Hn : exists notes, resolve_notes w o = Ok notes).
  { unfold resolve_notes. destruct (releaseNotes o) as [text|] eqn:Hr; [eauto|].
    destruct (releaseNotesPath o) as [file|] eqn:Hp; [|eauto].
    destruct (Str.truthy file) eqn:Ht; [|eauto].
    destruct (Hnotes file eq_refl eq_refl Ht) as [content ->]. eauto. }
  destruct Hn as [notes Hn].
  destruct (entries_of_succeed w (default "" (baseUrl o)) _ Hfiles)
    as [entries He].
  unfold assembled in E. rewrite Hn, He in E.
  destruct E as (tp & _ & _ & _ & E).
  unfold persisted in E. rewrite Hmk, Hwr in E.
  destruct E as (ts & ns & Es & _).
  exact (sign_all_calm w o _ Hcalm _ _ _ _ _ Es).
Qed.

(** ** Two runs compared *)

Section Related.
Context {X : Type}.
Variable w : World.
Variables f1 f2 : Event -> list X.

Lemma related_ret {A} (a : A) : related w f1 f2 (ret a) (ret a).
Proof. intros n. simpl. auto. Qed.

Lemma related_throw {A} (e : string) :
  related w f1 f2 (@throw A e) (@throw A e).
Proof. intros n. simpl. auto. Qed.

Lemma related_bind {A B} (m1 m2 : M A) (k1 k2 : A -> M B) :
  related w f1 f2 m1 m2 -> (forall a, related w f1 f2 (k1 a) (k2 a)) ->
  related w f1 f2 (bind m1 k1) (bind m2 k2).
Proof.
  intros Hm Hk n. unfold bind. specialize (Hm n).
  destruct (m1 w n) as [[t1 n1] r1], (m2 w n) as [[t2 n2] r2].
  destruct Hm as (Ht & -> & ->). destruct r2 as [a|e]; [|auto].
  specialize (Hk a n2).
  destruct (k1 a w n2) as [[t1' n1'] r1'], (k2 a w n2) as [[t2' n2'] r2'].
  destruct Hk as (Ht' & -> & ->). rewrite !flat_map_app, Ht, Ht'. auto.
Qed.

Lemma related_try_catch {A} (m1 m2 : M A) (h1 h2 : string -> M A) :
  related w f1 f2 m1 m2 -> (forall e, related w f1 f2 (h1 e) (h2 e)) ->
  related w f1 f2 (try_catch m1 h1) (try_catch m2 h2).
Proof.
  intros Hm Hh n. unfold try_catch. specialize (Hm n).
  destruct (m1 w n) as [[t1 n1] r1], (m2 w n) as [[t2 n2] r2].
  destruct Hm as (Ht & -> & ->). destruct r2 as [a|e]; [auto|].
  specialize (Hh e n2).
  destruct (h1 e w n2) as [[t1' n1'] r1'], (h2 e w n2) as [[t2' n2'] r2'].
  destruct Hh as (Ht' & -> & ->). rewrite !flat_map_app, Ht, Ht'. auto.
Qed.

Lemma related_emit (e1 e2 : Event) :
  f1 e1 = f2 e2 -> related w f1 f2 (emit e1) (emit e2).
Proof. intros H n. simpl. rewrite H. auto. Qed.

Lemma related_perform {A} (e : Event) (res : World -> outcome A) :
  f1 e = f2 e -> related w f1 f2 (perform e res) (perform e res).
Proof. intros H n. simpl. rewrite H. auto. Qed.

Lemma related_settle {A} (res : World -> outcome A) :
  related w f1 f2 (settle res) (settle res).
Proof. intros n. simpl. auto. Qed.

Lemma related_when (b : bool) (m1 m2 : M unit) :
  related w f1 f2 m1 m2 -> related w f1 f2 (when b m1) (when b m2).
Proof. intros H. destruct b; [exact H | apply related_ret]. Qed.

Lemma related_for_each {A} (b1 b2 : nat -> A -> M unit) (xs : list A) :
  (forall i x, related w f1 f2 (b1 i x) (b2 i x)) ->
  forall i, related w f1 f2 (for_each b1 i xs) (for_each b2 i xs).
Proof.
  intros Hb. induction xs as [|x xs IH]; intros i; simpl.
  - apply related_ret.
  - apply related_bind; [apply Hb | intros _; apply IH].
Qed.

Lemma related_map_each {A B} (b1 b2 : nat -> A -> M B) (xs : list A) :
  (forall i x, related w f1 f2 (b1 i x) (b2 i x)) ->
  forall i, related w f1 f2 (map_each b1 i xs) (map_each b2 i xs).
Proof.
  intros Hb. induction xs as [|x xs IH]; intros i; simpl.
  - apply related_ret.
  - apply related_bind; [apply Hb | intros y].
    apply related_bind; [apply IH | intros ys; apply related_ret].
Qed.

(** Computations that are equal at every state are related alike. *)
Lemma related_ext {A} (m1 m1' m2 m2' : M A) :
  (forall n, m1 w n = m1' w n) -> (forall n, m2 w n = m2' w n) ->
  related w f1 f2 m1' m2' -> related w f1 f2 m1 m2.
Proof. intros H1 H2 H n. rewrite H1, H2. apply H. Qed.

End Related.

(** Two runs on inputs that differ in the password and in the verbose
    flag only are related as soon as their log lines and their signer
    calls are. *)
Section TwoRuns.
Context {X : Type}.
Variable w : World.
Variables f1 f2 : Event -> list X.
Variable ds : list string.
Variable key : option string.
Variable compat : option bool.
Variables rn rnp od uv av bu : option string.
Variable pl : option Platform.
Variables pw1 pw2 : option string.
Variables v1 v2 : option bool.

Let o1 := mkOptions ds key compat rn rnp od uv av bu pl pw1 v1.
Let o2 := mkOptions ds key compat rn rnp od uv av bu pl pw2 v2.

Hypothesis same_fs : forall e, is_fs_event e = true -> f1 e = f2 e.
Hypothesis same_strategy : Str.truthy_opt pw1 = Str.truthy_opt pw2.
Hypothesis log_related :
  forall message, related w f1 f2 (logger o1 message) (logger o2 message).
Hypothesis sign_related :
  forall file k, related w f1 f2 (signFile file k pw1) (signFile file k pw2).

Lemma related_notes :
  related w f1 f2
    match rn with
    | Some text => ret (Some text)
    | None => readReleaseNotes rnp
    end
    match rn with
    | Some text => ret (Some text)
    | None => readReleaseNotes rnp
    end.
Proof.
  destruct rn as [text|]; [apply related_ret|].
  unfold readReleaseNotes. destruct rnp as [file|]; [|apply related_ret].
  destruct (Str.truthy file); [|apply related_ret].
  apply related_try_catch; [|intros e; apply related_throw].
  apply related_bind; [|intros c; apply related_ret].
  apply related_perform. apply same_fs. reflexivity.
Qed.

Lemma related_inspect_all baseUrl :
  related w f1 f2 (inspect_all (logger o1) baseUrl ds)
    (inspect_all (logger o2) baseUrl ds).
Proof.
  unfold inspect_all. apply related_bind.
  - apply related_for_each. intros i d. unfold inspect_start.
    apply related_bind; [apply log_related | intros _].
    unfold getFileInfo_start.
    apply related_bind; [|intros _]; apply related_emit, same_fs; reflexivity.
  - intros _. apply related_bind; [apply related_settle | intros order].
    apply related_bind; [|intros settled; apply related_ret].
    apply related_map_each. intros i c.
    apply related_bind; [|intros entry; apply related_ret].
    unfold inspect_finish.
    apply related_bind; [apply related_settle|].
    intros [h s].
    apply related_bind; [apply log_related | intros _].
    apply related_bind; [apply log_related | intros _].
    apply related_ret.
Qed.

Lemma related_assemble : related w f1 f2 (assemble o1) (assemble o2).
Proof.
  unfold assemble.
  apply related_bind; [apply log_related | intros _].
  apply related_bind; [apply related_notes | intros notes].
  apply related_bind; [apply log_related | intros _].
  apply related_bind; [apply log_related | intros _].
  apply related_bind; [apply related_inspect_all | intros entries].
  apply related_bind; [apply log_related | intros _].
  apply related_bind; [apply log_related | intros _].
  apply related_bind; [apply related_settle | intros d].
  apply related_bind;
    [apply related_when, log_related | intros _; apply related_ret].
Qed.

Lemma related_persist manifest :
  related w f1 f2 (persist o1 manifest) (persist o2 manifest).
Proof.
  unfold persist.
  apply related_bind; [apply log_related | intros _].
  apply related_bind; [apply log_related | intros _].
  apply related_bind;
    [apply related_perform; apply same_fs; reflexivity | intros _].
  apply related_bind; [apply log_related | intros _].
  apply related_bind;
    [apply related_perform; apply same_fs; reflexivity | intros _].
  apply related_ret.
Qed.

Lemma related_sign_all k file :
  related w f1 f2 (sign_all o1 k file) (sign_all o2 k file).
Proof.
  unfold sign_all.
  apply related_bind; [apply log_related | intros _].
  apply related_bind.
  { change (password o1) with pw1. change (password o2) with pw2.
    rewrite same_strategy. destruct (Str.truthy_opt pw2); apply log_related. }
  intros _.
  apply related_bind; [apply sign_related | intros _].
  apply related_bind; [apply log_related | intros _].
  apply related_bind.
  { apply related_for_each. intros i d. unfold sign_one.
    apply related_bind; [apply log_related | intros _; apply sign_related]. }
  intros _.
  apply related_bind; [apply log_related | intros _; apply related_ret].
Qed.

Lemma related_pipeline :
  related w f1 f2 (createReleaseMetadata o1) (createReleaseMetadata o2).
Proof.
  eapply related_ext;
    [intros n; apply createReleaseMetadata_staged
    |intros n; apply createReleaseMetadata_staged|].
  unfold staged.
  apply related_bind; [apply log_related | intros _].
  change (distributables o1) with ds. change (distributables o2) with ds.
  change (secretKeyPath o1) with key. change (secretKeyPath o2) with key.
  destruct (Datatypes.length ds =? 0)%nat; [apply related_throw|].
  destruct (negb (Str.truthy_opt key)); [apply related_throw|].
  apply related_bind; [apply related_assemble | intros manifest].
  apply related_bind; [apply related_persist | intros file].
  apply related_sign_all.
Qed.

End TwoRuns.

Lemma flat_map_singleton {A B} (g : A -> B) (l : list A) :
  flat_map (fun x => [g x]) l = map g l.
Proof. induction l as [|x l IH]; simpl; [|rewrite IH]; reflexivity. Qed.

Lemma flat_map_filter {A} (p : A -> bool) (l : list A) :
  flat_map (fun x => if p x then [] else [x]) l
  = filter (fun x => negb (p x)) l.
Proof.
  induction l as [|x l IH]; simpl; [reflexivity|].
  rewrite IH. destruct (p x); reflexivity.
Qed.

Lemma sign_trace_no_progress n file k pw r :
  Forall (fun e => is_progress_line e = false) (sign_trace n file k pw r).
Proof.
  unfold sign_trace, child_protocol.
  destruct (Str.truthy_opt pw), (Str.truthy (diagnostics r)),
    (is_zero (exitCode r)); repeat constructor.
Qed.

Lemma progress_line_logged message :
  is_progress_line (ConsoleLog ("[ToDesktop Release] " ++ message)) = true.
Proof. unfold is_progress_line. apply starts_with_self. Qed.

Lemma related_logger_verbose w o1 o2 message :
  default false (verbose o1) = true ->
  default false (verbose o2) = false ->
  related w (fun e => if is_progress_line e then [] else [e])
    (fun e => [e]) (logger o1 message) (logger o2 message).
Proof.
  intros H1 H2 n. unfold logger. rewrite H1, H2.
  unfold when, console_log, emit, ret. cbn [flat_map].
  rewrite progress_line_logged. auto.
Qed.

Lemma verbose_related (o : CreateMetadataOptions) (w : World) :
  related w (fun e => if is_progress_line e then [] else [e]) (fun e => [e])
    (createReleaseMetadata (with_verbose o (Some true)))
    (createReleaseMetadata (with_verbose o None)).
Proof.
  destruct o as [ds key compat rn rnp od uv av bu pl pw v].
  unfold with_verbose.
  cbn [distributables secretKeyPath autoUpdaterCompat releaseNotes
       releaseNotesPath outputDir updaterVersion appVersion baseUrl platform
       password verbose].
  apply related_pipeline.
  - intros e He; destruct e; try discriminate He; reflexivity.
  - reflexivity.
  - intros message; apply related_logger_verbose; reflexivity.
  - intros file k n. rewrite signFile_run. split; [|auto].
    rewrite flat_map_filter, (flat_map_singleton (fun e => e)), map_id.
    pose proof (sign_trace_no_progress n file k pw
                  (signer_run w n file k pw)) as F.
    induction F as [|e l He _ IH]; [reflexivity|].
    simpl. rewrite He. simpl. rewrite IH. reflexivity.
Qed.

(** X15. The verbose flag changes nothing but the console: the run with
    verbose set settles as the run without it, and its trace with the
    lines that begin with "[ToDesktop Release] " left out is the trace of
    the run without it. Verbose false is the same as verbose absent. *)
Theorem verbose_only_adds_progress_lines (o : CreateMetadataOptions)
  (w : World) :
  snd (run_pipeline (with_verbose o (Some true)) w)
  = snd (run_pipeline (with_verbose o None) w) /\
  filter (fun e => negb (is_progress_line e))
    (fst (run_pipeline (with_verbose o (Some true)) w))
  = fst (run_pipeline (with_verbose o None) w) /\
  run_pipeline (with_verbose o (Some false)) w
  = run_pipeline (with_verbose o None) w.
Proof.
  pose proof (verbose_related o w 0) as Hrel.
  split; [|split; [|destruct o; reflexivity]].
  all: unfold run_pipeline;
    destruct (createReleaseMetadata (with_verbose o (Some true)) w 0)
      as [[t1 n1] r1];
    destruct (createReleaseMetadata (with_verbose o None) w 0)
      as [[t2 n2] r2];
    destruct Hrel as (Ht & _ & Hr); cbn [fst snd].
  - exact Hr.
  - rewrite flat_map_filter, (flat_map_singleton (fun e => e)), map_id in Ht.
    exact Ht.
Qed.

Lemma related_logger_same {X} w (f : Event -> list X) o1 o2 message :
  verbose o1 = verbose o2 ->
  related w f f (logger o1 message) (logger o2 message).
Proof.
  intros H n. unfold logger. rewrite H.
  destruct (when _ _ w n) as [[t n'] r]. auto.
Qed.

Lemma redact_sign_trace n file k p1 p2 r :
  Str.truthy p1 = true -> Str.truthy p2 = true ->
  map redact (sign_trace n file k (Some p1) r)
  = map redact (sign_trace n file k (Some p2) r).
Proof.
  intros H1 H2. unfold sign_trace, child_protocol, strategy, exit_detail.
  cbn [Str.truthy_opt]. rewrite H1, H2.
  rewrite !map_app. cbn [map redact app]. reflexivity.
Qed.

Lemma password_related (o : CreateMetadataOptions) (w : World)
  (p1 p2 : string) :
  Str.truthy p1 = true -> Str.truthy p2 = true ->
  (forall pid args,
     minisign w pid args (Some (p1 ++ Str.newline))
     = minisign w pid args (Some (p2 ++ Str.newline))) ->
  related w (fun e => [redact e]) (fun e => [redact e])
    (createReleaseMetadata (with_password o (Some p1)))
    (createReleaseMetadata (with_password o (Some p2))).
Proof.
  intros H1 H2 Hw.
  destruct o as [ds key compat rn rnp od uv av bu pl pw v].
  unfold with_password.
  cbn [distributables secretKeyPath autoUpdaterCompat releaseNotes
       releaseNotesPath outputDir updaterVersion appVersion baseUrl platform
       password verbose].
  apply related_pipeline.
  - reflexivity.
  - cbn [Str.truthy_opt]. rewrite H1, H2. reflexivity.
  - intros message. apply related_logger_same. reflexivity.
  - intros file k n. rewrite !signFile_run.
    assert (Hr : signer_run w n file k (Some p1)
                 = signer_run w n file k (Some p2)).
    { unfold signer_run, signer_input. cbn [Str.truthy_opt default].
      rewrite H1, H2. apply Hw. }
    rewrite Hr. rewrite !flat_map_singleton.
    split; [apply redact_sign_trace; assumption|].
    split; [reflexivity|].
    unfold sign_outcome, exit_detail. cbn [Str.truthy_opt].
    rewrite H1, H2. reflexivity.
Qed.

(** X16. A non-empty password reaches nothing but the signer's standard
    input: if the signer behaves alike on two non-empty passwords, the
    two runs settle alike and their traces (console lines, file-system
    calls, the manifest written, the signer's arguments) are equal once
    what is written to the signer's input is blanked. *)
Theorem password_reaches_only_stdin (o : CreateMetadataOptions) (w : World)
  (p1 p2 : string) :
  Str.truthy p1 = true -> Str.truthy p2 = true ->
  (forall pid args,
     minisign w pid args (Some (p1 ++ Str.newline))
     = minisign w pid args (Some (p2 ++ Str.newline))) ->
  snd (run_pipeline (with_password o (Some p1)) w)
  = snd (run_pipeline (with_password o (Some p2)) w) /\
  map redact (fst (run_pipeline (with_password o (Some p1)) w))
  = map redact (fst (run_pipeline (with_password o (Some p2)) w)).
Proof.
  intros H1 H2 Hw.
  pose proof (password_related o w p1 p2 H1 H2 Hw 0) as Hrel.
  unfold run_pipeline.
  destruct (createReleaseMetadata (with_password o (Some p1)) w 0)
    as [[t1 n1] r1].
  destruct (createReleaseMetadata (with_password o (Some p2)) w 0)
    as [[t2 n2] r2].
  destruct Hrel as (Ht & _ & Hr). cbn [fst snd].
  rewrite !flat_map_singleton in Ht. auto.
Qed.

(** ** The release notes *)

Lemma inspection_no_read ds f : ~ In (ReadFile f) (inspection_calls ds).
Proof.
  unfold inspection_calls. intros H. apply in_flat_map in H.
  destruct H as (d & _ & [H | [H | []]]); discriminate H.
Qed.

(** The file-system calls of a run that passed validation: those of the
    notes, then calls among which there is no read, and among which is
    the writing of the assembled manifest if the directory could be
    made. *)
Lemma run_fs_calls o w :
  valid o = true ->
  exists rest,
    filter is_fs_event (fst (run_pipeline o w)) = (notes_reads o ++ rest)%list /\
    (forall f, ~ In (ReadFile f) rest) /\
    (forall m, assembled w o = Ok m ->
       mkdirResult w (default "." (outputDir o)) = Ok tt ->
       In (WriteFile (manifest_file o) (stringify m)) rest).
Proof.
  intros Hv. destruct (run_pipeline o w) as [tr r] eqn:E. simpl.
  apply pipeline_stages in E. destruct E as (lg & Hlg & E).
  destruct E as [(Hv' & _) | (_ & ta & Fa & Hfs & E)]; [congruence|].
  unfold assembly_calls in Hfs.
  destruct (assembled w o) as [manifest|e] eqn:Ha.
  - destruct E as (tp & Hfp & _ & _ & E).
    assert (Hn : exists notes, resolve_notes w o = Ok notes).
    { unfold assembled in Ha. destruct (resolve_notes w o); [eauto|].
      discriminate Ha. }
    destruct Hn as (notes & Hn). rewrite Hn in Hfs.
    assert (Ht : filter is_fs_event tr
                 = (notes_reads o ++ inspection_calls (distributables o)
                    ++ persist_calls w o manifest)%list).
    { destruct (persisted w o) as [f|e].
      - destruct E as (ts & ns & Es & ->).
        destruct (console_prefix_fs lg (ta ++ tp ++ ts) Hlg) as (-> & _).
        rewrite !filter_app, Hfs, Hfp, (sign_all_no_fs _ _ _ _ _ _ _ _ Es).
        rewrite app_nil_r, <- app_assoc. reflexivity.
      - destruct E as (-> & _).
        destruct (console_prefix_fs lg (ta ++ tp) Hlg) as (-> & _).
        rewrite !filter_app, Hfs, Hfp, <- app_assoc. reflexivity. }
    exists (inspection_calls (distributables o) ++ persist_calls w o manifest)%list.
    split; [exact Ht|]. split.
    + intros f H. apply in_app_or in H. destruct H as [H | H].
      * exact (inspection_no_read _ _ H).
      * unfold persist_calls in H. destruct H as [H | H]; [discriminate H|].
        destruct (mkdirResult w _); [|destruct H].
        destruct H as [H | []]. discriminate H.
    + intros m Hm Hmk. inversion Hm; subst. apply in_or_app. right.
      unfold persist_calls. rewrite Hmk. right. left. reflexivity.
  - destruct E as (-> & _).
    destruct (console_prefix_fs lg ta Hlg) as (-> & _). rewrite Hfs.
    exists match resolve_notes w o with
           | Ok _ => inspection_calls (distributables o)
           | Throw _ => []
           end.
    split; [reflexivity|]. split; [|discriminate].
    intros f H. destruct (resolve_notes w o); [|destruct H].
    exact (inspection_no_read _ _ H).
Qed.

Lemma notes_for_resolve w o notes :
  notes_for w o notes <-> resolve_notes w o = Ok notes.
Proof.
  unfold notes_for, resolve_notes.
  destruct (releaseNotes o) as [text|].
  { split; intros H; [subst | inversion H]; reflexivity. }
  destruct (releaseNotesPath o) as [file|].
  2:{ split; intros H; [subst | inversion H]; reflexivity. }
  destruct (Str.truthy file).
  2:{ split; intros H; [subst | inversion H]; reflexivity. }
  destruct (fileContent w file) as [content|e]; split.
  - intros (c & Hc & ->). inversion Hc. reflexivity.
  - intros H. inversion H. eauto.
  - intros (c & Hc & _). discriminate Hc.
  - discriminate.
Qed.

Lemma assembled_notes w o m :
  assembled w o = Ok m ->
  exists notes, notes_for w o notes /\
                ReleaseManifest.releaseNotes m = release_notes_of notes.
Proof.
  unfold assembled. destruct (resolve_notes w o) as [notes|] eqn:Hn;
    [|discriminate].
  destruct (entries_of w _ _) as [es|]; [|discriminate].
  intros E. inversion E. exists notes.
  split; [apply notes_for_resolve, Hn | apply build_manifest_notes].
Qed.

(** C9. In a run that passes validation, the release notes are the
    explicitly supplied string when there is one, and the notes file is
    then not read; else, when a (non-empty) path is supplied, the notes
    file is read, before any other file-system call and once, and its
    content makes the notes; else there are none, and nothing is read.
    The manifest is written with the notes so resolved (unless an
    inspection or the making of the directory fails first), and every
    manifest written carries them: its [releaseNotes] field is there
    exactly when the resolved notes are a non-empty string. A run that
    fails validation reads and writes nothing. *)
Theorem release_notes_resolution (o : CreateMetadataOptions) (w : World) :
  valid o = true ->
  let tr := fst (run_pipeline o w) in
  (* an explicit string wins, and the notes file is then not read *)
  (forall text, releaseNotes o = Some text ->
     (forall f, ~ In (ReadFile f) tr) /\
     forall file m, In (WriteFile file (stringify m)) tr ->
       ReleaseManifest.releaseNotes m = release_notes_of (Some text)) /\
  (* else the notes file is read, first of all and once, when a path is
     supplied, and its content makes the notes *)
  (forall c p, releaseNotes o = None ->
     releaseNotesPath o = Some (String c p) ->
     (exists rest,
        filter is_fs_event tr = ReadFile (String c p) :: rest /\
        forall f, ~ In (ReadFile f) rest) /\
     forall file m, In (WriteFile file (stringify m)) tr ->
       exists content,
         fileContent w (String c p) = Ok content /\
         ReleaseManifest.releaseNotes m = release_notes_of (Some content)) /\
  (* else none *)
  (releaseNotes o = None -> Str.truthy_opt (releaseNotesPath o) = false ->
     (forall f, ~ In (ReadFile f) tr) /\
     forall file m, In (WriteFile file (stringify m)) tr ->
       ReleaseManifest.releaseNotes m = None) /\
  (* and the manifest is written with the notes so resolved, unless an
     inspection or the making of the directory fails *)
  (forall notes, notes_for w o notes ->
     (forall d, In d (distributables o) ->
        exists h s, fileDigest w d = Ok h /\ fileSize w d = Ok s) ->
     mkdirResult w (default "." (outputDir o)) = Ok tt ->
     exists m,
       In (WriteFile (manifest_file o) (stringify m)) tr /\
       ReleaseManifest.releaseNotes m = release_notes_of notes) /\
  (* the field is there exactly for non-empty notes *)
  (forall notes text,
     release_notes_of notes = Some text <-> notes = Some text /\ text <> "").
Proof.
  intros Hv tr.
  destruct (run_fs_calls o w Hv) as (rest & Hfs & Hrest & Hwrite).
  fold tr in Hfs.
  assert (Hread : forall f, In (ReadFile f) tr -> In (ReadFile f) (notes_reads o)).
  { intros f H.
    assert (H' : In (ReadFile f) (filter is_fs_event tr)).
    { apply filter_In. split; [exact H | reflexivity]. }
    rewrite Hfs in H'. apply in_app_or in H'. destruct H' as [H' | H'];
      [exact H' | destruct (Hrest _ H')]. }
  assert (Hnotes : forall file m, In (WriteFile file (stringify m)) tr ->
            exists notes, notes_for w o notes /\
              ReleaseManifest.releaseNotes m = release_notes_of notes).
  { intros file m Hin. apply written_is_assembled in Hin.
    apply assembled_notes, Hin. }
  split; [|split; [|split; [|split]]].
  - intros text Ht. split.
    + intros f H. apply Hread in H. unfold notes_reads in H.
      rewrite Ht in H. destruct H.
    + intros file m Hin. destruct (Hnotes _ _ Hin) as (notes & Hn & ->).
      unfold notes_for in Hn. rewrite Ht in Hn. subst. reflexivity.
  - intros c p Hnone Hp. split.
    + exists rest. split; [|exact Hrest].
      rewrite Hfs. unfold notes_reads. rewrite Hnone, Hp. reflexivity.
    + intros file m Hin. destruct (Hnotes _ _ Hin) as (notes & Hn & ->).
      unfold notes_for in Hn. rewrite Hnone, Hp in Hn. simpl in Hn.
      destruct Hn as (content & Hc & ->). exists content. auto.
  - intros Hnone Hp. split.
    + intros f H. apply Hread in H. unfold notes_reads in H.
      rewrite Hnone in H. destruct (releaseNotesPath o) as [file|];
        [|destruct H].
      simpl in Hp. rewrite Hp in H. destruct H.
    + intros file m Hin. destruct (Hnotes _ _ Hin) as (notes & Hn & ->).
      unfold notes_for in Hn. rewrite Hnone in Hn.
      destruct (releaseNotesPath o) as [file'|]; [|subst; reflexivity].
      simpl in Hp. rewrite Hp in Hn. subst. reflexivity.
  - intros notes Hn Hfiles Hmk.
    apply notes_for_resolve in Hn.
    destruct (entries_of_succeed w (default "" (baseUrl o)) _ Hfiles)
      as (es & Hes).
    pose (m := build_manifest (effective_version o)
                 (default "1.0.0" (updaterVersion o)) (now w) es notes
                 (default false (autoUpdaterCompat o)) (distributables o)).
    assert (Ha : assembled w o = Ok m).
    { unfold assembled. rewrite Hn, Hes. reflexivity. }
    exists m. split; [|apply build_manifest_notes].
    assert (H : In (WriteFile (manifest_file o) (stringify m))
                  (filter is_fs_event tr)).
    { rewrite Hfs. apply in_or_app. right. apply Hwrite; assumption. }
    apply filter_In in H. apply H.
  - intros notes text. unfold release_notes_of. split.
    + destruct notes as [s|]; simpl; [|discriminate].
      destruct s; simpl; [discriminate|].
      intros E. inversion E; subst. split; [reflexivity | discriminate].
    + intros (-> & Hne). simpl. destruct text; [congruence | reflexivity].
Qed.

Lemma release_notes_resolution_witness :
  In (ReadFile "NOTES.md") (fst (run_pipeline opts_notes_file calm_world)) /\
  In (WriteFile "latest-mac.yml" (stringify manifest_notes_file))
     (fst (run_pipeline opts_notes_file calm_world)) /\
  ReleaseManifest.releaseNotes manifest_notes_file = Some "notes from file" /\
  (exists rest,
     filter is_fs_event (fst (run_pipeline opts_notes_file calm_world))
     = ReadFile "NOTES.md" :: rest /\
     forall f, ~ In (ReadFile f) rest) /\
  (exists m,
     In (WriteFile (manifest_file opts_notes_file) (stringify m))
        (fst (run_pipeline opts_notes_file calm_world)) /\
     ReleaseManifest.releaseNotes m
     = release_notes_of (Some "notes from file")).
Proof.
  split; [find_event|]. split; [find_event|]. split; [reflexivity|].
  pose proof (release_notes_resolution opts_notes_file calm_world eq_refl)
    as (_ & Hpath & _ & Hwrite & _).
  split.
  - exact (proj1 (Hpath "N"%char "OTES.md" eq_refl eq_refl)).
  - apply (Hwrite (Some "notes from file")).
    + exists "notes from file". split; reflexivity.
    + intros d _. exists ("digest:" ++ d), 12345%N. split; reflexivity.
    + reflexivity.
Defined.

(** ** Instances *)

Lemma files_mirror_artifacts_witness :
  In (WriteFile "latest-mac.yml" (stringify manifest_two))
     (fst (run_pipeline opts_two calm_world)) /\
  Forall2
    (fun d entry =>
       fileDigest calm_world d = Ok (ReleaseFile.sha512 entry) /\
       fileSize calm_world d = Ok (ReleaseFile.size entry))
    (distributables opts_two) (ReleaseManifest.files manifest_two).
Proof.
  split; [find_event|].
  apply (files_mirror_artifacts opts_two calm_world "latest-mac.yml"
           manifest_two).
  find_event.
Defined.

Lemma entry_arch_from_basename_witness :
  In (WriteFile "latest-mac.yml" (stringify manifest_two))
     (fst (run_pipeline opts_two calm_world)) /\
  Forall2
    (fun d entry =>
       ReleaseFile.arch entry = extractArchFromFilename (Path.basename d))
    (distributables opts_two) (ReleaseManifest.files manifest_two).
Proof.
  split; [find_event|].
  apply (entry_arch_from_basename opts_two calm_world "latest-mac.yml"
           manifest_two).
  find_event.
Defined.

Lemma version_resolution_witness :
  In (WriteFile "latest-mac.yml" (stringify manifest_two))
     (fst (run_pipeline opts_two calm_world)) /\
  exists first rest,
    distributables opts_two = first :: rest /\
    ReleaseManifest.version manifest_two
    = match appVersion opts_two with
      | Some v => v
      | None =>
          match extractVersionFromFilename (Path.basename first) with
          | Some v => v
          | None => "1.0.0"
          end
      end.
Proof.
  split; [find_event|].
  apply (version_resolution opts_two calm_world "latest-mac.yml"
           manifest_two).
  find_event.
Defined.

Lemma manifest_header_witness :
  In (WriteFile "latest-mac.yml" (stringify manifest_compat_cdn))
     (fst (run_pipeline opts_compat_cdn calm_world)) /\
  ReleaseManifest.schemaVersion manifest_compat_cdn = 1%Z /\
  ReleaseManifest.releaseName manifest_compat_cdn = None /\
  ReleaseManifest.releaseDate manifest_compat_cdn = now calm_world /\
  ReleaseManifest.updaterVersion manifest_compat_cdn
  = match updaterVersion opts_compat_cdn with
    | Some v => v
    | None => "1.0.0"
    end.
Proof.
  split; [find_event|].
  apply (manifest_header opts_compat_cdn calm_world "latest-mac.yml"
           manifest_compat_cdn).
  find_event.
Defined.

Lemma unreadable_notes_abort_witness :
  snd (run_pipeline opts_notes_file unreadable_world)
  = Throw ("Failed to read release notes from " ++ "NOTES.md" ++ ": "
           ++ "ENOENT: no such file or directory") /\
  filter is_fs_event (fst (run_pipeline opts_notes_file unreadable_world))
  = [ReadFile "NOTES.md"] /\
  filter is_child_event (fst (run_pipeline opts_notes_file unreadable_world))
  = [].
Proof.
  apply (unreadable_notes_abort opts_notes_file unreadable_world "NOTES.md"
           "ENOENT: no such file or directory"); reflexivity.
Defined.

Lemma failed_inspection_aborts_witness :
  snd (run_pipeline opts_two missing_world)
  = Throw "ENOENT: no such file or directory, stat 'dist/App-2.1.0-x64.dmg'" /\
  (exists msg d',
     snd (run_pipeline opts_two missing_world) = Throw msg /\
     In d' (distributables opts_two) /\
     (fileDigest missing_world d' = Throw msg \/
      fileSize missing_world d' = Throw msg)) /\
  filter is_fs_event (fst (run_pipeline opts_two missing_world))
  = (notes_reads opts_two ++ inspection_calls (distributables opts_two))%list /\
  milestones (fst (run_pipeline opts_two missing_world)) = [] /\
  filter is_child_event (fst (run_pipeline opts_two missing_world)) = [].
Proof.
  split; [vm_compute; reflexivity|].
  apply (failed_inspection_aborts opts_two missing_world None
           "dist/App-2.1.0-arm64.dmg"
           "ENOENT: no such file or directory, open 'dist/App-2.1.0-arm64.dmg'").
  - reflexivity.
  - reflexivity.
  - left; reflexivity.
  - left; reflexivity.
Defined.

Lemma failed_persist_aborts_witness :
  assembled readonly_world opts_compat_cdn = Ok manifest_compat_cdn /\
  snd (run_pipeline opts_compat_cdn readonly_world)
  = Throw "EROFS: read-only file system" /\
  milestones (fst (run_pipeline opts_compat_cdn readonly_world))
  = Mkdir (default "." (outputDir opts_compat_cdn))
    :: match mkdirResult readonly_world
               (default "." (outputDir opts_compat_cdn)) with
       | Ok _ => [WriteFile (manifest_file opts_compat_cdn)
                    (stringify manifest_compat_cdn)]
       | Throw _ => []
       end /\
  filter is_child_event (fst (run_pipeline opts_compat_cdn readonly_world))
  = [].
Proof.
  split; [vm_compute; reflexivity|].
  apply (failed_persist_aborts opts_compat_cdn readonly_world
           manifest_compat_cdn "EROFS: read-only file system").
  - reflexivity.
  - vm_compute; reflexivity.
  - vm_compute; reflexivity.
Defined.

Lemma file_system_footprint_witness :
  exists manifest,
    assembled calm_world opts_notes_file = Ok manifest /\
    filter is_fs_event (fst (run_pipeline opts_notes_file calm_world))
    = (notes_reads opts_notes_file
       ++ inspection_calls (distributables opts_notes_file)
       ++ [Mkdir (default "." (outputDir opts_notes_file));
           WriteFile (manifest_file opts_notes_file) (stringify manifest)])%list.
Proof.
  apply (file_system_footprint opts_notes_file calm_world
           (fst (run_pipeline opts_notes_file calm_world)) "latest-mac.yml").
  vm_compute; reflexivity.
Defined.

Lemma signer_failure_keeps_output_witness :
  In (Close 1 (Some 1%Z)) (fst (run_pipeline opts_one (fails_at 1))) /\
  exists manifest f,
    nth_error (manifest_file opts_one :: distributables opts_one) 1 = Some f /\
    milestones (fst (run_pipeline opts_one (fails_at 1)))
    = (Mkdir (default "." (outputDir opts_one))
       :: WriteFile (manifest_file opts_one) (stringify manifest)
       :: all_signed (default EmptyString (secretKeyPath opts_one))
            (password opts_one) 0
            (firstn 1 (manifest_file opts_one :: distributables opts_one))
       ++ [Spawn 1 "minisign"
             (sign_args f (default EmptyString (secretKeyPath opts_one)))
             (strategy (password opts_one)) inherit inherit;
           Close 1 (Some 1%Z)])%list.
Proof.
  split; [find_event|].
  apply (signer_failure_keeps_output opts_one (fails_at 1)
           (fst (run_pipeline opts_one (fails_at 1)))
           (snd (run_pipeline opts_one (fails_at 1))) 1 (Some 1%Z)).
  - apply surjective_pairing.
  - find_event.
  - reflexivity.
Defined.

Lemma run_succeeds_when_world_does_witness :
  snd (run_pipeline opts_notes_file calm_world)
  = Ok (manifest_file opts_notes_file).
Proof.
  apply (run_succeeds_when_world_does opts_notes_file calm_world).
  - reflexivity.
  - intros file _ _ _. exists "notes from file". reflexivity.
  - intros d _. exists ("digest:" ++ d), 12345%N. split; reflexivity.
  - reflexivity.
  - reflexivity.
  - intros pid args input. reflexivity.
Defined.

Lemma password_reaches_only_stdin_witness :
  snd (run_pipeline (with_password opts_one (Some "alpha")) calm_world)
  = snd (run_pipeline (with_password opts_one (Some "beta")) calm_world) /\
  map redact
    (fst (run_pipeline (with_password opts_one (Some "alpha")) calm_world))
  = map redact
      (fst (run_pipeline (with_password opts_one (Some "beta")) calm_world)).
Proof.
  apply (password_reaches_only_stdin opts_one calm_world "alpha" "beta").
  - reflexivity.
  - reflexivity.
  - intros pid args. reflexivity.
Defined.
